(** * kvdo I/O submitter ([vdo/kernel/ioSubmitter.c]): model and properties

    A shallow embedding of the bio submission layer of kvdo: routing of
    requests to bio-submission work queues by physical block number or by
    the round-robin rotor, the per-queue bio map used to group adjacent
    data requests, the work function that hands grouped bios to the
    device, and the construction of the submitter.

    Conventions of the embedding:
    - [unsigned int] and [sector_t]/[uint64_t] values are integers in [Z]
      with the wrap-around of the C arithmetic written out ([wrap32],
      [wrap64]);
    - a [KVIO *] is an address of type [kvio_ptr]; the KVIO structures
      live in a store ([kvios]) and [NULL] is [None];
    - a bio is its address together with the fields it has when it is
      given to [submitBio]; a [bio_list] is the sequence of its bios;
    - undefined behaviour of the C code (division by zero, indexing
      outside [bioQueueData[]], dereferencing a [NULL] bio) is the result
      [None] of the functions that can run into it. *)

From stdpp Require Import base option numbers list gmap.

#[local] Open Scope Z_scope.

(** ** Machine integers *)

Definition wrap32 (z : Z) : Z := z mod 2 ^ 32.
Definition wrap64 (z : Z) : Z := z mod 2 ^ 64.

(** [a % b] and [a / b] on unsigned operands; a zero divisor is undefined. *)
Definition umod (a b : Z) : option Z :=
  if decide (b = 0) then None else Some (a mod b).
Definition udiv (a b : Z) : option Z :=
  if decide (b = 0) then None else Some (a / b).

(** The value of an [unsigned int] expression stored in an [int]: the
    kernel's compilers reduce it modulo 2^32 into the range of [int]. *)
Definition int32 (z : Z) : Z :=
  let w := wrap32 z in if decide (w < 2 ^ 31) then w else w - 2 ^ 32.

(** ** Data model *)

Abbreviation kvio_ptr := positive.

(** [bio_data_dir]: the direction of a bio. *)
Inductive data_dir := READ | WRITE.

#[global] Instance data_dir_eq_dec : EqDecision data_dir.
Proof. solve_decision. Defined.

(** [BioQAction]: the action codes of the bio queue ([bioQueueType]). *)
Inductive BioQAction :=
| BIO_Q_ACTION_COMPRESSED_DATA
| BIO_Q_ACTION_DATA
| BIO_Q_ACTION_FLUSH
| BIO_Q_ACTION_HIGH
| BIO_Q_ACTION_METADATA
| BIO_Q_ACTION_READCACHE
| BIO_Q_ACTION_VERIFY.

#[global] Instance BioQAction_eq_dec : EqDecision BioQAction.
Proof. solve_decision. Defined.

(** The priority column of [bioQueueType.actionTable]. *)
Definition action_priority (a : BioQAction) : Z :=
  match a with
  | BIO_Q_ACTION_COMPRESSED_DATA => 0
  | BIO_Q_ACTION_DATA => 0
  | BIO_Q_ACTION_FLUSH => 2
  | BIO_Q_ACTION_HIGH => 2
  | BIO_Q_ACTION_METADATA => 1
  | BIO_Q_ACTION_READCACHE => 0
  | BIO_Q_ACTION_VERIFY => 1
  end.

Abbreviation bio_ptr := positive.

(** A [BIO]: the address of the bio, which tells two bios with equal
    fields apart, and the fields this file reads, as they are when the bio
    is given to [submitBio].  [bi_next] is the link of the kernel's
    [bio_list]; lists of bios are modelled as sequences, see
    [bio_list_merge] below. *)
Record BIO := mkBIO {
  bio_address : bio_ptr;  (* the value of the [BIO *] *)
  bi_sector : Z;          (* getBioSector(bio) *)
  bi_dir : data_dir;      (* bio_data_dir(bio) *)
  bi_private : kvio_ptr;  (* the KVIO owning the bio *)
}.

#[global] Instance BIO_eq_dec : EqDecision BIO.
Proof. solve_decision. Defined.

Definition getBioSector (bio : BIO) : Z := bi_sector bio.
Definition bio_data_dir (bio : BIO) : data_dir := bi_dir bio.

(** [KvdoWorkItem]: the action code set by [setupKVIOWork]. *)
Record KvdoWorkItem := mkWorkItem { action : BioQAction }.

(** A [KVIO]: [physical] is [kvio->vio->physical], [isData] the result of
    [isData(kvio)]; both are set by the caller before [submitBio]. *)
Record KVIO := mkKVIO {
  physical : Z;
  isData : bool;
  bioToSubmit : BIO;
  biosMerged : list BIO;
  workItem : KvdoWorkItem;
}.

#[global] Instance KVIO_inhabited : Inhabited KVIO :=
  populate (mkKVIO 0 false (mkBIO 11 0 READ 1%positive) []
                   (mkWorkItem BIO_Q_ACTION_DATA)).

Definition set_biosMerged (l : list BIO) (k : KVIO) : KVIO :=
  mkKVIO (physical k) (isData k) (bioToSubmit k) l (workItem k).

(** What a bio queue does that is visible outside: taking and dropping the
    lock, changing the bio map, handing a bio to the device
    ([generic_make_request]), queueing a work item. *)
Inductive event :=
| Ev_mutex_lock (queueNumber : Z)
| Ev_mutex_unlock (queueNumber : Z)
| Ev_intMapPut (queueNumber : Z) (key : Z) (value : kvio_ptr) (result : Z)
| Ev_intMapRemove (queueNumber : Z) (key : Z)
| Ev_bio_list_init (kvio : kvio_ptr)
| Ev_generic_make_request (bio : BIO)
| Ev_enqueue (queueNumber : Z) (item : kvio_ptr).

#[global] Instance event_eq_dec : EqDecision event.
Proof. solve_decision. Defined.

(** [BioQueueData]: the work queue is the sequence of items queued and
    not yet handed to the work function; the bio map is a finite map from
    sector to KVIO address.  The plug and the mutex carry no data. *)
Record BioQueueData := mkBioQueueData {
  queue : list kvio_ptr;
  map : gmap Z kvio_ptr;
  queueNumber : Z;
}.

Record IOSubmitter := mkIOSubmitter {
  numBioQueuesUsed : Z;
  bioQueueRotationInterval : Z;
  bioQueueRotor : Z;
  bioQueueData : list BioQueueData;
}.

(** The memory outside the submitter: the KVIO structures and the record
    of visible events, oldest first. *)
Record Mem := mkMem {
  kvios : gmap kvio_ptr KVIO;
  trace : list event;
}.

Record State := mkState {
  ioSubmitter : IOSubmitter;
  mem : Mem;
}.

(** ** Routing *)

(** [bioQueueNumberForPBN]: the product of the two [unsigned int] fields
    is an [unsigned int]; the remainder and the quotient are taken in 64
    bits and the result is stored in an [unsigned int]. *)
Definition bioQueueNumberForPBN (ioSubmitter : IOSubmitter) (pbn : Z)
  : option Z :=
  r ← umod pbn (wrap32 (numBioQueuesUsed ioSubmitter
                         * bioQueueRotationInterval ioSubmitter));
  q ← udiv r (bioQueueRotationInterval ioSubmitter);
  Some (wrap32 q).

(** [advanceBioRotor]: post-increment of the [unsigned int] rotor, then
    the same reduction as for a block number. *)
Definition advanceBioRotor (bioData : IOSubmitter)
  : option (Z * IOSubmitter) :=
  let rotor := bioQueueRotor bioData in
  let bioData' :=
    mkIOSubmitter (numBioQueuesUsed bioData)
                  (bioQueueRotationInterval bioData)
                  (wrap32 (rotor + 1))
                  (bioQueueData bioData) in
  index ← umod rotor (wrap32 (numBioQueuesUsed bioData
                               * bioQueueRotationInterval bioData));
  index ← udiv index (bioQueueRotationInterval bioData);
  Some (index, bioData').

(** [bioQueueDataForPBN]: [&ioSubmitter->bioQueueData[bioQueueIndex]],
    here the index together with the element it designates. *)
Definition bioQueueDataForPBN (ioSubmitter : IOSubmitter) (pbn : Z)
  : option (nat * BioQueueData) :=
  bioQueueIndex ← bioQueueNumberForPBN ioSubmitter pbn;
  bqd ← bioQueueData ioSubmitter !! Z.to_nat bioQueueIndex;
  Some (Z.to_nat bioQueueIndex, bqd).

Definition enqueueWorkQueue (bqd : BioQueueData) (item : kvio_ptr)
  : BioQueueData :=
  mkBioQueueData (queue bqd ++ [item]) (map bqd) (queueNumber bqd).

Definition set_bioQueueData (i : nat) (bqd : BioQueueData)
    (s : IOSubmitter) : IOSubmitter :=
  mkIOSubmitter (numBioQueuesUsed s) (bioQueueRotationInterval s)
                (bioQueueRotor s) (<[i := bqd]> (bioQueueData s)).

(** [enqueueBioWorkItem]: a work item with no block number goes to the
    queue the rotor designates. *)
Definition enqueueBioWorkItem (ioSubmitter : IOSubmitter)
    (workItem : kvio_ptr) : option IOSubmitter :=
  '(bioQueueIndex, ioSubmitter') ← advanceBioRotor ioSubmitter;
  bqd ← bioQueueData ioSubmitter' !! Z.to_nat bioQueueIndex;
  Some (set_bioQueueData (Z.to_nat bioQueueIndex)
                         (enqueueWorkQueue bqd workItem) ioSubmitter').

(** The queues chosen by [n] successive calls of [advanceBioRotor]. *)
Fixpoint rotorRun (n : nat) (s : IOSubmitter)
  : option (list Z * IOSubmitter) :=
  match n with
  | O => Some ([], s)
  | S n' =>
      '(i, s') ← advanceBioRotor s;
      '(l, s'') ← rotorRun n' s';
      Some (i :: l, s'')
  end.

(** Successive calls of [enqueueBioWorkItem], one per item. *)
Fixpoint enqueueBioWorkItems (items : list kvio_ptr) (s : IOSubmitter)
  : option IOSubmitter :=
  match items with
  | [] => Some s
  | item :: items' =>
      s' ← enqueueBioWorkItem s item; enqueueBioWorkItems items' s'
  end.

(** How often [j] occurs in a list of queue numbers. *)
Fixpoint occurrences (j : Z) (l : list Z) : nat :=
  match l with
  | [] => O
  | i :: l' => ((if decide (i = j) then 1 else 0) + occurrences j l')%nat
  end.

(** ** Collaborators that are not part of this file *)

(** [USE_BIOMAP]: the enum constant at the head of the file. *)
Definition USE_BIOMAP : bool := true.

Definition VDO_SUCCESS : Z := 0.

(** The kernel's elevator codes of the two kinds of merge. *)
Definition ELEVATOR_FRONT_MERGE : Z := 1.
Definition ELEVATOR_BACK_MERGE : Z := 2.

(** Modelled from the spec: [areWorkItemActionsEqual] (workQueue.h) holds
    when the work-item classification tags of the two items are equal. *)
Definition areWorkItemActionsEqual (item1 item2 : KvdoWorkItem) : bool :=
  bool_decide (action item1 = action item2).

(** Modelled from the spec: the integer map (intMap.c) is a mapping from
    sector to request.  [intMapGet] yields the request stored under a key,
    or [NULL]. *)
Definition intMapGet (m : gmap Z kvio_ptr) (key : Z) : option kvio_ptr :=
  m !! key.

(** Modelled from the spec: removing a key that is absent leaves the map
    as it is. *)
Definition intMapRemove (m : gmap Z kvio_ptr) (key : Z) : gmap Z kvio_ptr :=
  delete key m.

(** Modelled from the spec: [intMapPut] can fail for lack of memory, and
    then records no entry.  [result] is the code the call returns, chosen
    by the environment; with [update] set an existing entry is replaced. *)
Definition intMapPut (result : Z) (m : gmap Z kvio_ptr) (key : Z)
    (newValue : kvio_ptr) (update : bool) : Z * gmap Z kvio_ptr :=
  if decide (result = VDO_SUCCESS) then
    match m !! key with
    | Some _ => (result, if update then <[key := newValue]> m else m)
    | None => (result, <[key := newValue]> m)
    end
  else (result, m).

(** The kernel's [bio_list], a singly linked list of bios with a head and
    a tail pointer, as the sequence of its bios from head to tail.
    [bio_list_merge] and [bio_list_merge_head] leave the header of the
    second list as it is.  A sequence stands for a linked list as long as
    no bio is linked into two lists and no waiting bio is written; the
    rule [fresh] below is what the callers keep to for that. *)
Definition bio_list_init : list BIO := [].
Definition bio_list_empty (bl : list BIO) : bool :=
  match bl with [] => true | _ :: _ => false end.
Definition bio_list_add (bl : list BIO) (bio : BIO) : list BIO := bl ++ [bio].
Definition bio_list_merge (bl bl2 : list BIO) : list BIO := bl ++ bl2.
Definition bio_list_merge_head (bl bl2 : list BIO) : list BIO := bl2 ++ bl.
Definition bio_list_head (bl : list BIO) : option BIO := head bl.
Definition bio_list_tail (bl : list BIO) : option BIO := last bl.

Definition add_events (evs : list event) (m : Mem) : Mem :=
  mkMem (kvios m) (trace m ++ evs).

Definition set_kvio (p : kvio_ptr) (k : KVIO) (m : Mem) : Mem :=
  mkMem (<[p := k]> (kvios m)) (trace m).

(** Taking an item off a work queue; [None] when it is not queued. *)
Fixpoint dequeueItem (item : kvio_ptr) (q : list kvio_ptr)
  : option (list kvio_ptr) :=
  match q with
  | [] => None
  | x :: q' =>
      if decide (x = item) then Some q' else cons x <$> dequeueItem item q'
  end.

Definition set_map (mp : gmap Z kvio_ptr) (bqd : BioQueueData)
  : BioQueueData :=
  mkBioQueueData (queue bqd) mp (queueNumber bqd).

(** [intMapPut] with [update] set. *)
Definition putResult (result : Z) (key : Z) (v : kvio_ptr)
    (m : gmap Z kvio_ptr) : gmap Z kvio_ptr :=
  if decide (result = VDO_SUCCESS) then <[key := v]> m else m.

(** The three ways [tryBioMapMerge] can go, written out: the bio queue
    and the memory after the call.  [hd :: tl] is the list of the KVIO
    merged into. *)
Definition notMerged (puts : Z * Z) (bqd : BioQueueData) (m : Mem)
    (kvio : kvio_ptr) (bio : BIO) : BioQueueData * Mem :=
  let q := queueNumber bqd in
  (set_map (putResult puts.1 (getBioSector bio) kvio (map bqd)) bqd,
   mkMem (kvios m)
         (trace m ++ [Ev_mutex_lock q;
                      Ev_intMapPut q (getBioSector bio) kvio puts.1;
                      Ev_mutex_unlock q])).

Definition mergedToTail (puts : Z * Z) (bqd : BioQueueData) (m : Mem)
    (kvio prevKvio : kvio_ptr) (hd : BIO) (tl : list BIO)
  : BioQueueData * Mem :=
  let bl := biosMerged (kvios m !!! kvio) in
  let q := queueNumber bqd in
  let tail := getBioSector (List.last tl hd) in
  let tail' := getBioSector (List.last (tl ++ bl) hd) in
  (set_map (putResult puts.2 tail' prevKvio
              (putResult puts.1 (getBioSector hd) prevKvio
                 (delete tail (map bqd)))) bqd,
   mkMem (<[prevKvio := set_biosMerged ((hd :: tl) ++ bl)
                                       (kvios m !!! prevKvio)]> (kvios m))
         (trace m ++ [Ev_mutex_lock q;
                      Ev_intMapRemove q tail;
                      Ev_intMapPut q (getBioSector hd) prevKvio puts.1;
                      Ev_intMapPut q tail' prevKvio puts.2;
                      Ev_mutex_unlock q])).

Definition mergedToHead (puts : Z * Z) (bqd : BioQueueData) (m : Mem)
    (kvio nextKvio : kvio_ptr) (hd : BIO) (tl : list BIO)
  : BioQueueData * Mem :=
  let bl := biosMerged (kvios m !!! kvio) in
  let q := queueNumber bqd in
  let head' := getBioSector (List.hd hd bl) in
  let tail' := getBioSector (List.last tl hd) in
  (set_map (putResult puts.2 tail' nextKvio
              (putResult puts.1 head' nextKvio
                 (delete (getBioSector hd) (map bqd)))) bqd,
   mkMem (<[nextKvio := set_biosMerged (bl ++ hd :: tl)
                                       (kvios m !!! nextKvio)]> (kvios m))
         (trace m ++ [Ev_mutex_lock q;
                      Ev_intMapRemove q (getBioSector hd);
                      Ev_intMapPut q head' nextKvio puts.1;
                      Ev_intMapPut q tail' nextKvio puts.2;
                      Ev_mutex_unlock q])).

(** The two ways [submitBio] can end for the bio, on queue [i].

    The bio has been absorbed: it has joined the list of another KVIO
    [target], found in the bio map of the queue, at the tail or at the
    head; the work queue has no new item and [enqueueKVIOWork] was not
    called; no KVIO but [target] and the KVIO of the bio has changed. *)
Definition absorbed (st st' : State) (i : nat) (bio : BIO) : Prop :=
  let kvio := bi_private bio in
  ∃ bqd bqd' key target hd tl evs,
    bioQueueData (ioSubmitter st) !! i = Some bqd ∧
    bioQueueData (ioSubmitter st') !! i = Some bqd' ∧
    queue bqd' = queue bqd ∧
    map bqd !! key = Some target ∧
    target ≠ kvio ∧
    biosMerged (kvios (mem st) !!! target) = hd :: tl ∧
    (kvios (mem st') !!! target
     = set_biosMerged ((hd :: tl) ++ [bio]) (kvios (mem st) !!! target) ∨
     kvios (mem st') !!! target
     = set_biosMerged (bio :: hd :: tl) (kvios (mem st) !!! target)) ∧
    (∀ p, p ≠ target → p ≠ kvio →
          kvios (mem st') !!! p = kvios (mem st) !!! p) ∧
    trace (mem st') = trace (mem st) ++ evs ∧
    (∀ q p, Ev_enqueue q p ∉ evs).

(** The KVIO of the bio has been queued: the work queue has the KVIO as
    its new last item, by one call of [enqueueKVIOWork] at the end; the
    list of the KVIO holds the bio alone; no other KVIO has changed, so
    the bio has joined no other list. *)
Definition enqueued (st st' : State) (i : nat) (bio : BIO) : Prop :=
  let kvio := bi_private bio in
  ∃ bqd bqd' evs,
    bioQueueData (ioSubmitter st) !! i = Some bqd ∧
    bioQueueData (ioSubmitter st') !! i = Some bqd' ∧
    queue bqd' = queue bqd ++ [kvio] ∧
    biosMerged (kvios (mem st') !!! kvio) = [bio] ∧
    (∀ p, p ≠ kvio → kvios (mem st') !!! p = kvios (mem st) !!! p) ∧
    trace (mem st')
    = trace (mem st) ++ evs ++ [Ev_enqueue (queueNumber bqd) kvio] ∧
    (∀ q p, Ev_enqueue q p ∉ evs).

(** The bios handed to the device, in the order of the calls. *)
Fixpoint requestsOf (tr : list event) : list BIO :=
  match tr with
  | [] => []
  | Ev_generic_make_request b :: tr' => b :: requestsOf tr'
  | _ :: tr' => requestsOf tr'
  end.

(** ** The bio map *)

Section BioMap.

(** [VDO_SECTORS_PER_BLOCK] (constants.h) is not part of this file. *)
Variable VDO_SECTORS_PER_BLOCK : Z.

(** The sector a merge of the given kind looks at; [sector_t] arithmetic
    wraps at 64 bits. *)
Definition mergeSectorFor (sector : Z) (mergeType : Z) : Z :=
  if decide (mergeType = ELEVATOR_BACK_MERGE)
  then wrap64 (sector - VDO_SECTORS_PER_BLOCK)
  else if decide (mergeType = ELEVATOR_FRONT_MERGE)
  then wrap64 (sector + VDO_SECTORS_PER_BLOCK)
  else sector.

(** [getMergeableLocked]. *)
Definition getMergeableLocked (h : gmap kvio_ptr KVIO)
    (m : gmap Z kvio_ptr) (kvio : kvio_ptr) (mergeType : Z)
  : option kvio_ptr :=
  let bio := bioToSubmit (h !!! kvio) in
  let mergeSector := mergeSectorFor (getBioSector bio) mergeType in
  match intMapGet m mergeSector with
  | None => None
  | Some kvioMerge =>
      let km := h !!! kvioMerge in
      if negb (areWorkItemActionsEqual (workItem (h !!! kvio)) (workItem km))
      then None
      else if negb (bool_decide (bio_data_dir bio
                                 = bio_data_dir (bioToSubmit km)))
      then None
      else
        match biosMerged km with
        | [] => None
        | hd :: tl =>
            if decide (mergeType = ELEVATOR_BACK_MERGE) then
              if decide (getBioSector (List.last tl hd) = mergeSector)
              then Some kvioMerge else None
            else if decide (mergeType = ELEVATOR_FRONT_MERGE) then
              if decide (getBioSector hd = mergeSector)
              then Some kvioMerge else None
            else Some kvioMerge
        end
  end.

(** The two merge paths of [tryBioMapMerge], under the lock.  The results
    of the two [intMapPut] calls are [puts]. *)
Definition mergeToTail (puts : Z * Z) (bqd : BioQueueData) (m : Mem)
    (prevKvio kvio : kvio_ptr) : option (BioQueueData * Mem) :=
  let q := queueNumber bqd in
  let h := kvios m in
  tail ← bio_list_tail (biosMerged (h !!! prevKvio));
  let mp1 := intMapRemove (map bqd) (getBioSector tail) in
  let merged := bio_list_merge (biosMerged (h !!! prevKvio))
                               (biosMerged (h !!! kvio)) in
  let m1 := set_kvio prevKvio (set_biosMerged merged (h !!! prevKvio)) m in
  head' ← bio_list_head (biosMerged (kvios m1 !!! prevKvio));
  let '(r1, mp2) := intMapPut puts.1 mp1 (getBioSector head') prevKvio true in
  tail' ← bio_list_tail (biosMerged (kvios m1 !!! prevKvio));
  let '(r2, mp3) := intMapPut puts.2 mp2 (getBioSector tail') prevKvio true in
  Some (set_map mp3 bqd,
        add_events [Ev_intMapRemove q (getBioSector tail);
                    Ev_intMapPut q (getBioSector head') prevKvio r1;
                    Ev_intMapPut q (getBioSector tail') prevKvio r2] m1).

Definition mergeToHead (puts : Z * Z) (bqd : BioQueueData) (m : Mem)
    (nextKvio kvio : kvio_ptr) : option (BioQueueData * Mem) :=
  let q := queueNumber bqd in
  let h := kvios m in
  head ← bio_list_head (biosMerged (h !!! nextKvio));
  let mp1 := intMapRemove (map bqd) (getBioSector head) in
  let merged := bio_list_merge_head (biosMerged (h !!! nextKvio))
                                    (biosMerged (h !!! kvio)) in
  let m1 := set_kvio nextKvio (set_biosMerged merged (h !!! nextKvio)) m in
  head' ← bio_list_head (biosMerged (kvios m1 !!! nextKvio));
  let '(r1, mp2) := intMapPut puts.1 mp1 (getBioSector head') nextKvio true in
  tail' ← bio_list_tail (biosMerged (kvios m1 !!! nextKvio));
  let '(r2, mp3) := intMapPut puts.2 mp2 (getBioSector tail') nextKvio true in
  Some (set_map mp3 bqd,
        add_events [Ev_intMapRemove q (getBioSector head);
                    Ev_intMapPut q (getBioSector head') nextKvio r1;
                    Ev_intMapPut q (getBioSector tail') nextKvio r2] m1).

(** [tryBioMapMerge]. *)
Definition tryBioMapMerge (puts : Z * Z) (bioQueueData : BioQueueData)
    (m : Mem) (kvio : kvio_ptr) (bio : BIO)
  : option (BioQueueData * Mem * bool) :=
  let q := queueNumber bioQueueData in
  let m := add_events [Ev_mutex_lock q] m in
  let prevKvio := getMergeableLocked (kvios m) (map bioQueueData) kvio
                                     ELEVATOR_BACK_MERGE in
  let nextKvio := getMergeableLocked (kvios m) (map bioQueueData) kvio
                                     ELEVATOR_FRONT_MERGE in
  let nextKvio := if decide (prevKvio = nextKvio) then None else nextKvio in
  match prevKvio, nextKvio with
  | None, None =>
      let '(result, mp) := intMapPut puts.1 (map bioQueueData)
                                     (getBioSector bio) kvio true in
      Some (set_map mp bioQueueData,
            add_events [Ev_intMapPut q (getBioSector bio) kvio result;
                        Ev_mutex_unlock q] m,
            false)
  | Some prevKvio, None =>
      '(bqd, m) ← mergeToTail puts bioQueueData m prevKvio kvio;
      Some (bqd, add_events [Ev_mutex_unlock q] m, true)
  | _, Some nextKvio =>
      '(bqd, m) ← mergeToHead puts bioQueueData m nextKvio kvio;
      Some (bqd, add_events [Ev_mutex_unlock q] m, true)
  end.

(** The cases of [tryBioMapMerge]. *)
Inductive tryBioMapMerge_case (puts : Z * Z) (bqd : BioQueueData) (m : Mem)
    (kvio : kvio_ptr) (bio : BIO) : BioQueueData * Mem * bool → Prop :=
| case_notMerged :
    getMergeableLocked (kvios m) (map bqd) kvio ELEVATOR_BACK_MERGE = None →
    getMergeableLocked (kvios m) (map bqd) kvio ELEVATOR_FRONT_MERGE = None →
    tryBioMapMerge_case puts bqd m kvio bio
                        (notMerged puts bqd m kvio bio, false)
| case_mergedToTail prevKvio hd tl :
    getMergeableLocked (kvios m) (map bqd) kvio ELEVATOR_BACK_MERGE
    = Some prevKvio →
    biosMerged (kvios m !!! prevKvio) = hd :: tl →
    tryBioMapMerge_case puts bqd m kvio bio
                        (mergedToTail puts bqd m kvio prevKvio hd tl, true)
| case_mergedToHead nextKvio hd tl :
    getMergeableLocked (kvios m) (map bqd) kvio ELEVATOR_FRONT_MERGE
    = Some nextKvio →
    biosMerged (kvios m !!! nextKvio) = hd :: tl →
    tryBioMapMerge_case puts bqd m kvio bio
                        (mergedToHead puts bqd m kvio nextKvio hd tl, true).

(** [sendBioToDevice]: the counters and the trace record belong to the
    statistics collaborator; the call of [generic_make_request] is the
    visible effect. *)
Definition sendBioToDevice (m : Mem) (bio : BIO) : Mem :=
  add_events [Ev_generic_make_request bio] m.

(** The locked part of [processBioMap]: take the group off the map and
    off the KVIO.  The result is the head of the detached list. *)
Definition detachBioList (bqd : BioQueueData) (m : Mem) (kvio : kvio_ptr)
  : BioQueueData * Mem * list BIO :=
  let q := queueNumber bqd in
  let bl := biosMerged (kvios m !!! kvio) in
  let '(mp, removals) :=
    match bl with
    | [] => (map bqd, [])
    | hd :: tl =>
        (intMapRemove (intMapRemove (map bqd) (getBioSector hd))
                      (getBioSector (List.last tl hd)),
         [Ev_intMapRemove q (getBioSector hd);
          Ev_intMapRemove q (getBioSector (List.last tl hd))])
    end in
  let m1 := set_kvio kvio (set_biosMerged bio_list_init (kvios m !!! kvio)) m in
  (set_map mp bqd,
   add_events ([Ev_mutex_lock q] ++ removals
               ++ [Ev_bio_list_init kvio; Ev_mutex_unlock q]) m1,
   bl).

(** The loop of [processBioMap] over the detached list. *)
Fixpoint sendBioList (m : Mem) (bio : list BIO) : Mem :=
  match bio with
  | [] => m
  | b :: next => sendBioList (sendBioToDevice m b) next
  end.

(** [processBioMap], run by the thread of [bioQueueData]. *)
Definition processBioMap (bioQueueData : BioQueueData) (m : Mem)
    (item : kvio_ptr) : BioQueueData * Mem :=
  let kvio := item in
  if USE_BIOMAP && isData (kvios m !!! kvio) then
    let '(bqd, m1, bio) := detachBioList bioQueueData m kvio in
    (bqd, sendBioList m1 bio)
  else
    (bioQueueData, sendBioToDevice m (bioToSubmit (kvios m !!! kvio))).

(** What [submitBio] writes into the KVIO of the bio before it looks for a
    queue: [bioToSubmit], the work item ([setupKVIOWork]) and the list
    holding the bio alone ([bio_list_init], [bio_list_add]).  The call of
    [bio_list_init] is recorded by [submitBio]. *)
Definition setupKVIO (bio : BIO) (action : BioQAction) (k : KVIO) : KVIO :=
  mkKVIO (physical k) (isData k) bio (bio_list_add bio_list_init bio)
         (mkWorkItem action).

(** [submitBio].  The list of the KVIO is set up with no mutex held.
    [bio->bi_next = NULL] writes the link of the bio submitted, which is
    the link of no sequence of the model as long as that bio waits in no
    list (see [fresh] below).  The flag changes of the MD RAID5 mode touch
    no field of the model. *)
Definition submitBio (puts : Z * Z) (st : State) (bio : BIO)
    (action : BioQAction) : option State :=
  let kvio := bi_private bio in
  let m := add_events [Ev_bio_list_init kvio]
             (set_kvio kvio (setupKVIO bio action (kvios (mem st) !!! kvio))
                       (mem st)) in
  '(i, bioQueueData) ←
    bioQueueDataForPBN (ioSubmitter st) (physical (kvios m !!! kvio));
  '(bqd, m, merged) ←
    (if USE_BIOMAP && isData (kvios m !!! kvio)
     then tryBioMapMerge puts bioQueueData m kvio bio
     else Some (bioQueueData, m, false));
  if (merged : bool)
  then Some (mkState (set_bioQueueData i bqd (ioSubmitter st)) m)
  else Some (mkState (set_bioQueueData i (enqueueWorkQueue bqd kvio)
                                       (ioSubmitter st))
                     (add_events [Ev_enqueue (queueNumber bqd) kvio] m)).

(** The work queue hands a queued item to [processBioMap] on the thread
    of the queue the item was put on. *)
Definition runWorkItem (i : nat) (item : kvio_ptr) (st : State)
  : option State :=
  bqd ← bioQueueData (ioSubmitter st) !! i;
  rest ← dequeueItem item (queue bqd);
  let '(bqd', m) :=
    processBioMap (mkBioQueueData rest (map bqd) (queueNumber bqd))
                  (mem st) item in
  Some (mkState (set_bioQueueData i bqd' (ioSubmitter st)) m).

(** *** Runs of the submitter

    A run interleaves the callers of [submitBio] with the bio queue
    threads.  The critical sections of [tryBioMapMerge] and
    [processBioMap] exclude each other, and a detached list is reachable
    from the detaching thread only, so a run is a sequence of whole calls. *)
Inductive label :=
| L_prepare (p : kvio_ptr) (k : KVIO)
    (* the owner of a KVIO that is not queued fills it in *)
| L_submitBio (puts : Z * Z) (bio : BIO) (action : BioQAction)
| L_processBioMap (i : nat) (item : kvio_ptr).

Definition exec (st : State) (l : label) : option State :=
  match l with
  | L_prepare p k => Some (mkState (ioSubmitter st) (set_kvio p k (mem st)))
  | L_submitBio puts bio action => submitBio puts st bio action
  | L_processBioMap i item => runWorkItem i item st
  end.

End BioMap.

(** A KVIO is queued when its work item is in one of the work queues. *)
Definition queued (s : IOSubmitter) (p : kvio_ptr) : Prop :=
  p ∈ mjoin (queue <$> bioQueueData s).

(** What the callers may do: a KVIO is written and submitted by its owner
    only while it is not queued. *)
Definition allowed (st : State) (l : label) : Prop :=
  match l with
  | L_prepare p _ => ¬ queued (ioSubmitter st) p
  | L_submitBio _ bio _ => ¬ queued (ioSubmitter st) (bi_private bio)
  | L_processBioMap _ _ => True
  end.

(** The sectors of the data bios pending on a bio queue. *)
Definition pendingSectors (h : gmap kvio_ptr KVIO) (bqd : BioQueueData)
  : list Z :=
  p ← queue bqd;
  if isData (h !!! p) then getBioSector <$> biosMerged (h !!! p) else [].

(** No data bio pending on the queue has the sector [s]. *)
Definition fresh_sector (h : gmap kvio_ptr KVIO) (bqd : BioQueueData)
    (s : Z) : Prop :=
  ∀ p b, p ∈ queue bqd → isData (h !!! p) = true →
         b ∈ biosMerged (h !!! p) → getBioSector b ≠ s.

(** A stricter regime: every [intMapPut] succeeds, and a data bio is
    submitted only when no data bio pending on its queue has its sector. *)
Definition undisturbed (st : State) (l : label) : Prop :=
  match l with
  | L_submitBio puts bio _ =>
      puts = (VDO_SUCCESS, VDO_SUCCESS) ∧
      let k := kvios (mem st) !!! bi_private bio in
      (isData k = true →
       match bioQueueDataForPBN (ioSubmitter st) (physical k) with
       | Some (_, bqd) => getBioSector bio ∉ pendingSectors (kvios (mem st)) bqd
       | None => True
       end)
  | _ => True
  end.

Definition initial (st : State) : Prop :=
  Forall (λ bqd, queue bqd = [] ∧ map bqd = ∅)
         (bioQueueData (ioSubmitter st)).

(** The states a run can be in, the steps being restricted by [P]. *)
Inductive reachable (VDO_SECTORS_PER_BLOCK : Z)
    (P : State → label → Prop) : State → Prop :=
| reachable_initial st :
    initial st → reachable VDO_SECTORS_PER_BLOCK P st
| reachable_step st l st' :
    reachable VDO_SECTORS_PER_BLOCK P st →
    P st l →
    exec VDO_SECTORS_PER_BLOCK st l = Some st' →
    reachable VDO_SECTORS_PER_BLOCK P st'.

#[global] Instance allowed_dec st l : Decision (allowed st l).
Proof. destruct l; simpl; unfold queued; apply _. Defined.

#[global] Instance undisturbed_dec st l : Decision (undisturbed st l).
Proof.
  destruct l as [| puts bio act |]; simpl; try apply _.
  destruct (bioQueueDataForPBN _ _) as [[? ?] |]; apply _.
Defined.

(** Running a sequence of steps from a state, every step being checked
    against what the callers may do and, when [strict] is set, against
    the stricter regime. *)
Fixpoint runLabels (VDO_SECTORS_PER_BLOCK : Z) (strict : bool)
    (ls : list label) (st : State) : option State :=
  match ls with
  | [] => Some st
  | l :: ls' =>
      if bool_decide (allowed st l ∧ (strict = true → undisturbed st l))
      then st' ← exec VDO_SECTORS_PER_BLOCK st l;
           runLabels VDO_SECTORS_PER_BLOCK strict ls' st'
      else None
  end.

(** The bios of a list strictly between its head and its tail. *)
Definition interior (bl : list BIO) : list BIO :=
  match bl with
  | [] => []
  | _ :: tl => removelast tl
  end.

(** Every key of the bio map belongs to a queued data KVIO with a
    non-empty list, and is the sector of the head or of the tail of it. *)
Definition map_sound (h : gmap kvio_ptr KVIO) (bqd : BioQueueData) : Prop :=
  ∀ key p, map bqd !! key = Some p →
    p ∈ queue bqd ∧ isData (h !!! p) = true ∧
    ∃ hd tl, biosMerged (h !!! p) = hd :: tl ∧
             (key = getBioSector hd ∨ key = getBioSector (List.last tl hd)).

(** Every queued data KVIO has a non-empty list and is found under the
    sector of the head and under the sector of the tail of it. *)
Definition map_complete (h : gmap kvio_ptr KVIO) (bqd : BioQueueData)
  : Prop :=
  ∀ p, p ∈ queue bqd → isData (h !!! p) = true →
    ∃ hd tl, biosMerged (h !!! p) = hd :: tl ∧
             map bqd !! getBioSector hd = Some p ∧
             map bqd !! getBioSector (List.last tl hd) = Some p.

(** The bios pending on a queue have pairwise different sectors. *)
Definition sectors_distinct (h : gmap kvio_ptr KVIO) (bqd : BioQueueData)
  : Prop :=
  (∀ p, p ∈ queue bqd → isData (h !!! p) = true →
        NoDup (getBioSector <$> biosMerged (h !!! p))) ∧
  (∀ p q b c, p ∈ queue bqd → q ∈ queue bqd → p ≠ q →
        isData (h !!! p) = true → isData (h !!! q) = true →
        b ∈ biosMerged (h !!! p) → c ∈ biosMerged (h !!! q) →
        getBioSector b ≠ getBioSector c).

(** No KVIO is queued twice, on one queue or on two. *)
Definition queues_separate (l : list BioQueueData) : Prop :=
  (∀ i bqd, l !! i = Some bqd → NoDup (queue bqd)) ∧
  (∀ i j bi bj p, l !! i = Some bi → l !! j = Some bj →
        p ∈ queue bi → p ∈ queue bj → i = j).

Record sound (st : State) : Prop := mkSound {
  sound_queues : queues_separate (bioQueueData (ioSubmitter st));
  sound_maps : ∀ i bqd, bioQueueData (ioSubmitter st) !! i = Some bqd →
                        map_sound (kvios (mem st)) bqd;
}.

Record tidy (st : State) : Prop := mkTidy {
  tidy_sound : sound st;
  tidy_complete : ∀ i bqd, bioQueueData (ioSubmitter st) !! i = Some bqd →
                           map_complete (kvios (mem st)) bqd;
  tidy_distinct : ∀ i bqd, bioQueueData (ioSubmitter st) !! i = Some bqd →
                           sectors_distinct (kvios (mem st)) bqd;
}.

(** A submitter whose routing is defined: the fields are [unsigned int]
    values, their 32-bit product is not zero, and [bioQueueData] has
    [numBioQueuesUsed] elements. *)
Definition routable (s : IOSubmitter) : Prop :=
  1 ≤ numBioQueuesUsed s < 2 ^ 32 ∧
  1 ≤ bioQueueRotationInterval s < 2 ^ 32 ∧
  wrap32 (numBioQueuesUsed s * bioQueueRotationInterval s) ≠ 0 ∧
  Z.of_nat (length (bioQueueData s)) = numBioQueuesUsed s.

(** How many of the [n] integers from [a] on satisfy [p]. *)
Fixpoint countFrom (p : Z → bool) (a : Z) (n : nat) : nat :=
  match n with
  | O => O
  | S n' => ((if p a then 1 else 0) + countFrom p (a + 1) n')%nat
  end.

(** The queue numbers of [n] successive rotor values from [rotor] on. *)
Fixpoint rotorIndices (w r rotor : Z) (n : nat) : list Z :=
  match n with
  | O => []
  | S n' => (wrap32 rotor mod (w * r)) / r :: rotorIndices w r (rotor + 1) n'
  end.

(** ** Construction and release of the submitter *)

(** What [makeIOSubmitter] acquires: the memory of the submitter, a bio
    map per queue and a work queue (with its thread) per queue. *)
Inductive resource :=
| Res_ioSubmitter
| Res_map (i : nat)
| Res_queue (i : nat).

#[global] Instance resource_eq_dec : EqDecision resource.
Proof. solve_decision. Defined.

(** The kernel side: the resources held, the work queues that have been
    told to finish, and the error log. *)
Record Kernel := mkKernel {
  held : list resource;
  finished : list nat;
  logged : list Z;
}.

Definition acquire (r : resource) (k : Kernel) : Kernel :=
  mkKernel (r :: held k) (finished k) (logged k).
Definition release (r : resource) (k : Kernel) : Kernel :=
  mkKernel (filter (λ r', r' ≠ r) (held k)) (finished k) (logged k).
Definition logError (result : Z) (k : Kernel) : Kernel :=
  mkKernel (held k) (finished k) (logged k ++ [result]).

(** Modelled from the spec: [finishWorkQueue] stops a worker,
    [freeWorkQueue] and [freeIntMap] release a worker and a map, [FREE]
    releases the submitter. *)
Definition finishWorkQueue (i : nat) (k : Kernel) : Kernel :=
  mkKernel (held k) (finished k ++ [i]) (logged k).
Definition freeWorkQueue (i : nat) (k : Kernel) : Kernel :=
  release (Res_queue i) k.
Definition freeIntMap (i : nat) (k : Kernel) : Kernel :=
  release (Res_map i) k.

(** The result codes of the calls that can fail during construction,
    chosen by the environment: [ALLOCATE_EXTENDED], [makeIntMap] for the
    queue with a given number, [makeWorkQueue] for it. *)
Record Outcomes := mkOutcomes {
  allocate_result : Z;
  makeIntMap_result : nat → Z;
  makeWorkQueue_result : nat → Z;
}.

(** How often the body of [for (int i = n - 1; i >= 0; i--)] runs, [n]
    being an [unsigned int]: [i] starts at [n - 1] stored in an [int] and
    the body runs for [i], [i - 1], ..., [0], or not at all when [i]
    starts below zero. *)
Definition countdownFrom (n : Z) : nat := Z.to_nat (int32 (n - 1) + 1).

(** The loop of [cleanupIOSubmitter], [n] being the number of values of
    [i] still to go: the body runs for [i = n - 1], ..., [0]. *)
Fixpoint finishBioQueues (n : nat) (k : Kernel) : Kernel :=
  match n with
  | O => k
  | S i => finishBioQueues i (finishWorkQueue i k)
  end.

Definition cleanupIOSubmitter (ioSubmitter : IOSubmitter) (k : Kernel)
  : Kernel :=
  finishBioQueues (countdownFrom (numBioQueuesUsed ioSubmitter)) k.

(** The loop of [freeIOSubmitter]; the field [numBioQueuesUsed] it counts
    down is not read again before the submitter is released. *)
Fixpoint freeBioQueues (n : nat) (k : Kernel) : Kernel :=
  match n with
  | O => k
  | S i => freeBioQueues i (freeIntMap i (freeWorkQueue i k))
  end.

Definition freeIOSubmitter (ioSubmitter : IOSubmitter) (k : Kernel)
  : Kernel :=
  release Res_ioSubmitter
          (freeBioQueues (countdownFrom (numBioQueuesUsed ioSubmitter)) k).

Definition set_numBioQueuesUsed (n : Z) (s : IOSubmitter) : IOSubmitter :=
  mkIOSubmitter n (bioQueueRotationInterval s) (bioQueueRotor s)
                (bioQueueData s).

(** The loop of [makeIOSubmitter] from queue [i] on, with [remaining]
    queues to set up ([i + remaining] is [threadCount]).  The second
    component is the submitter when every queue has been set up. *)
Fixpoint makeBioQueues (env : Outcomes) (remaining : nat) (i : nat)
    (ioSubmitter : IOSubmitter) (k : Kernel)
  : Z * option IOSubmitter * Kernel :=
  match remaining with
  | O => (VDO_SUCCESS, Some ioSubmitter, k)
  | S remaining' =>
      let result := makeIntMap_result env i in
      if decide (result ≠ 0) then
        let k := logError result k in
        let k := cleanupIOSubmitter ioSubmitter k in
        let k := freeIOSubmitter ioSubmitter k in
        (result, None, k)
      else
        let k := acquire (Res_map i) k in
        (* initializeBioQueue *)
        let ioSubmitter :=
          set_bioQueueData i (mkBioQueueData [] ∅ (Z.of_nat i)) ioSubmitter in
        let result := makeWorkQueue_result env i in
        if decide (result ≠ VDO_SUCCESS) then
          let k := (if USE_BIOMAP then freeIntMap i k else k) in
          let k := logError result k in
          let k := cleanupIOSubmitter ioSubmitter k in
          let k := freeIOSubmitter ioSubmitter k in
          (result, None, k)
        else
          let k := acquire (Res_queue i) k in
          let ioSubmitter :=
            set_numBioQueuesUsed (wrap32 (numBioQueuesUsed ioSubmitter + 1))
                                 ioSubmitter in
          makeBioQueues env remaining' (S i) ioSubmitter k
  end.

(** [makeIOSubmitter].  [ioSubmitterPtr] is what the caller's variable
    holds before the call; the result has what it holds after it.
    [ALLOCATE_EXTENDED] yields zeroed memory; [maxRequestsActive] sizes
    the bio maps, whose capacity is not part of the model. *)
Definition makeIOSubmitter (env : Outcomes) (threadCount : nat)
    (rotationInterval : Z) (maxRequestsActive : Z) (k : Kernel)
    (ioSubmitterPtr : option IOSubmitter)
  : Z * option IOSubmitter * Kernel :=
  let result := allocate_result env in
  if decide (result ≠ VDO_SUCCESS) then (result, ioSubmitterPtr, k)
  else
    let k := acquire Res_ioSubmitter k in
    let ioSubmitter :=
      mkIOSubmitter 0 rotationInterval 0
                    (replicate threadCount (mkBioQueueData [] ∅ 0)) in
    match makeBioQueues env threadCount 0 ioSubmitter k with
    | (_, Some ioSubmitter, k) => (VDO_SUCCESS, Some ioSubmitter, k)
    | (result, None, k) => (result, ioSubmitterPtr, k)
    end.

(** The resources held once [i] queues have been set up. *)
Fixpoint acquired (i : nat) : list resource :=
  match i with
  | O => [Res_ioSubmitter]
  | S i' => Res_queue i' :: Res_map i' :: acquired i'
  end.

(** ** A concrete state for the examples

    One bio queue, rotation interval 1, and three data KVIOs at the
    addresses 1, 2 and 3. *)
Definition example_kvio : KVIO :=
  mkKVIO 0 true (mkBIO 11 0 READ 1%positive) [] (mkWorkItem BIO_Q_ACTION_DATA).

Definition example_state : State :=
  mkState (mkIOSubmitter 1 1 0 [mkBioQueueData [] ∅ 0])
          (mkMem (<[1%positive := example_kvio]>
                    (<[2%positive := example_kvio]>
                       (<[3%positive := example_kvio]> ∅))) []).

(** The items among [items] whose queue number, given at the same
    position of [indices], is [j]; in the order of [items]. *)
Fixpoint itemsFor (j : Z) (indices : list Z) (items : list kvio_ptr)
  : list kvio_ptr :=
  match indices, items with
  | i :: indices', item :: items' =>
      if decide (i = j) then item :: itemsFor j indices' items'
      else itemsFor j indices' items'
  | _, _ => []
  end.

(** The resources of a submitter with [n] queues in use: its memory, and
    the bio map and the work queue of each of the [n] queues. *)
Definition ownedBy (n : nat) (r : resource) : Prop :=
  match r with
  | Res_ioSubmitter => True
  | Res_map i | Res_queue i => (i < n)%nat
  end.

#[global] Instance ownedBy_dec n r : Decision (ownedBy n r).
Proof. destruct r; simpl; apply _. Defined.

(** The result code of the first call that fails for queue [j]:
    [makeIntMap] is called before [makeWorkQueue]. *)
Definition firstError (env : Outcomes) (j : nat) : Z :=
  if decide (makeIntMap_result env j ≠ 0) then makeIntMap_result env j
  else makeWorkQueue_result env j.

(** ** Runs: accounting, locking, shape of the lists *)

(** The bios a queued work item stands for, that is, the bios
    [processBioMap] will hand to the device for it: the list of a data
    KVIO, the bio of any other KVIO. *)
Definition pendingBios (h : gmap kvio_ptr KVIO) (p : kvio_ptr) : list BIO :=
  if USE_BIOMAP && isData (h !!! p) then biosMerged (h !!! p)
  else [bioToSubmit (h !!! p)].

(** The bios of all the work items queued. *)
Definition pending (st : State) : list BIO :=
  p ← mjoin (queue <$> bioQueueData (ioSubmitter st));
  pendingBios (kvios (mem st)) p.

(** The bios given to [submitBio] in a sequence of steps. *)
Definition submittedBios (ls : list label) : list BIO :=
  l ← ls; match l with L_submitBio _ bio _ => [bio] | _ => [] end.

(** The map events of the locked part of [processBioMap]. *)
Definition removals (q : Z) (bl : list BIO) : list event :=
  match bl with
  | [] => []
  | hd :: tl => [Ev_intMapRemove q (getBioSector hd);
                 Ev_intMapRemove q (getBioSector (List.last tl hd))]
  end.

Section RunEffects.

Variable VDO_SECTORS_PER_BLOCK : Z.

(** What a step does to the queues, to the KVIOs and to the record of
    events, case by case: the owner writes a KVIO; [submitBio] queues the
    KVIO of the bio; [submitBio] puts the bio at the tail or at the head
    of the list of a KVIO [target] found in the bio map; the work function
    runs for a queued item. *)
Inductive effect (st : State) : label → State → Prop :=
| effect_prepare p k :
    effect st (L_prepare p k)
           (mkState (ioSubmitter st) (set_kvio p k (mem st)))
| effect_enqueue puts bio act (i : nat) bqd mp evs :
    let kvio := bi_private bio in
    let k := kvios (mem st) !!! kvio in
    let q := queueNumber bqd in
    bioQueueNumberForPBN (ioSubmitter st) (physical k) = Some (Z.of_nat i) →
    bioQueueData (ioSubmitter st) !! i = Some bqd →
    (isData k = false ∧ evs = []) ∨
    (isData k = true ∧
     evs = [Ev_mutex_lock q; Ev_intMapPut q (getBioSector bio) kvio puts.1;
            Ev_mutex_unlock q]) →
    effect st (L_submitBio puts bio act)
      (mkState
         (set_bioQueueData i (mkBioQueueData (queue bqd ++ [kvio]) mp q)
                           (ioSubmitter st))
         (mkMem (<[kvio := setupKVIO bio act k]> (kvios (mem st)))
                (trace (mem st)
                 ++ [Ev_bio_list_init kvio] ++ evs ++ [Ev_enqueue q kvio])))
| effect_absorb puts bio act (i : nat) bqd mp target hd tl (atTail : bool) :
    let kvio := bi_private bio in
    let k := kvios (mem st) !!! kvio in
    let kt := kvios (mem st) !!! target in
    let q := queueNumber bqd in
    bioQueueNumberForPBN (ioSubmitter st) (physical k) = Some (Z.of_nat i) →
    bioQueueData (ioSubmitter st) !! i = Some bqd →
    isData k = true →
    target ∈ queue bqd → target ≠ kvio → isData kt = true →
    biosMerged kt = hd :: tl →
    action (workItem kt) = act →
    bio_data_dir (bioToSubmit kt) = bio_data_dir bio →
    (if atTail
     then getBioSector (List.last tl hd)
          = wrap64 (getBioSector bio - VDO_SECTORS_PER_BLOCK)
     else getBioSector hd
          = wrap64 (getBioSector bio + VDO_SECTORS_PER_BLOCK)) →
    effect st (L_submitBio puts bio act)
      (mkState
         (set_bioQueueData i (mkBioQueueData (queue bqd) mp q) (ioSubmitter st))
         (mkMem (<[target := set_biosMerged
                               (if atTail then (hd :: tl) ++ [bio]
                                else bio :: hd :: tl) kt]>
                   (<[kvio := setupKVIO bio act k]> (kvios (mem st))))
                (trace (mem st)
                 ++ Ev_bio_list_init kvio
                    :: if atTail
                       then [Ev_mutex_lock q;
                             Ev_intMapRemove q (getBioSector (List.last tl hd));
                             Ev_intMapPut q (getBioSector hd) target puts.1;
                             Ev_intMapPut q (getBioSector bio) target puts.2;
                             Ev_mutex_unlock q]
                       else [Ev_mutex_lock q;
                             Ev_intMapRemove q (getBioSector hd);
                             Ev_intMapPut q (getBioSector bio) target puts.1;
                             Ev_intMapPut q (getBioSector (List.last tl hd))
                                          target puts.2;
                             Ev_mutex_unlock q])))
| effect_process (i : nat) item bqd rest mp :
    let k := kvios (mem st) !!! item in
    let q := queueNumber bqd in
    bioQueueData (ioSubmitter st) !! i = Some bqd →
    dequeueItem item (queue bqd) = Some rest →
    effect st (L_processBioMap i item)
      (mkState
         (set_bioQueueData i (mkBioQueueData rest mp q) (ioSubmitter st))
         (mkMem (if USE_BIOMAP && isData k
                 then <[item := set_biosMerged [] k]> (kvios (mem st))
                 else kvios (mem st))
                (trace (mem st)
                 ++ (if USE_BIOMAP && isData k
                     then Ev_mutex_lock q :: removals q (biosMerged k)
                          ++ [Ev_bio_list_init item; Ev_mutex_unlock q]
                     else [])
                 ++ (Ev_generic_make_request
                       <$> pendingBios (kvios (mem st)) item)))).

End RunEffects.

(** Following the mutexes through a record of events.  [holder] is the
    queue whose mutex is held, if any.  A mutex is taken only when none is
    held and dropped only by its holder; the bio map of a queue is changed
    only while the mutex of that queue is held; no bio is handed to the
    device and no work item is queued while a mutex is held.  A list of
    merged bios is set up by [submitBio] with no mutex held and emptied by
    [processBioMap] under the mutex, so [bio_list_init] is bound to no
    state of the mutexes. *)
Definition lockStep (holder : option Z) (e : event) : option (option Z) :=
  match e with
  | Ev_mutex_lock q =>
      match holder with None => Some (Some q) | Some _ => None end
  | Ev_mutex_unlock q =>
      if decide (holder = Some q) then Some None else None
  | Ev_intMapPut q _ _ _ | Ev_intMapRemove q _ =>
      if decide (holder = Some q) then Some holder else None
  | Ev_bio_list_init _ => Some holder
  | Ev_generic_make_request _ | Ev_enqueue _ _ =>
      match holder with None => Some None | Some _ => None end
  end.

Fixpoint lockRun (holder : option Z) (tr : list event)
  : option (option Z) :=
  match tr with
  | [] => Some holder
  | e :: tr' => holder' ← lockStep holder e; lockRun holder' tr'
  end.

Definition lockDiscipline (tr : list event) : Prop :=
  lockRun None tr = Some None.

#[global] Instance lockDiscipline_dec tr : Decision (lockDiscipline tr).
Proof. unfold lockDiscipline. apply _. Defined.

(** The sector of a bio given to [submitBio] is a [sector_t] value. *)
Definition inRange (l : label) : Prop :=
  match l with
  | L_submitBio _ bio _ => 0 ≤ getBioSector bio < 2 ^ 64
  | _ => True
  end.

#[global] Instance inRange_dec l : Decision (inRange l).
Proof. destruct l; simpl; apply _. Defined.

(** A list of bios is a run of blocks: each bio is one block after the
    bio before it, in [sector_t] arithmetic, and has its direction. *)
Fixpoint isRun (VDO_SECTORS_PER_BLOCK : Z) (bl : list BIO) : Prop :=
  match bl with
  | b :: bl' =>
      match bl' with
      | c :: _ =>
          getBioSector c = wrap64 (getBioSector b + VDO_SECTORS_PER_BLOCK) ∧
          bio_data_dir c = bio_data_dir b
      | [] => True
      end ∧ isRun VDO_SECTORS_PER_BLOCK bl'
  | [] => True
  end.

(** A property of the queue position and of the KVIO holds for every
    work item queued. *)
Definition queuedAll (P : nat → KVIO → Prop) (st : State) : Prop :=
  ∀ (i : nat) bqd p,
    bioQueueData (ioSubmitter st) !! i = Some bqd → p ∈ queue bqd →
    P i (kvios (mem st) !!! p).

(** The list of a data KVIO is a run that holds the bio of the KVIO, and
    every bio of it has the direction of that bio. *)
Definition holdsRun (VDO_SECTORS_PER_BLOCK : Z) (k : KVIO) : Prop :=
  isData k = true →
  isRun VDO_SECTORS_PER_BLOCK (biosMerged k) ∧
  bioToSubmit k ∈ biosMerged k ∧
  ∀ b, b ∈ biosMerged k → bio_data_dir b = bio_data_dir (bioToSubmit k).

(** The element of [bioQueueData] at position [i] has the queue number
    [i], as [initializeBioQueue] sets it. *)
Definition numbered (s : IOSubmitter) : Prop :=
  ∀ (i : nat) bqd, bioQueueData s !! i = Some bqd →
                   queueNumber bqd = Z.of_nat i.

(** [bioQueueToSubmitter]: the submitter is found by stepping back
    [queueNumber] elements from the bio queue, here the element at position
    [i], to the first element of the array; stepping to another place is
    undefined. *)
Definition bioQueueToSubmitter (s : IOSubmitter) (i : nat)
  : option IOSubmitter :=
  bioQueue ← bioQueueData s !! i;
  if decide (Z.of_nat i - queueNumber bioQueue = 0) then Some s else None.

(** [assertRunningInBioQueueForPBN], on the thread of the bio queue at
    position [i]: the condition of its [ASSERT_LOG_ONLY]. *)
Definition assertRunningInBioQueueForPBN (s : IOSubmitter) (i : nat)
    (pbn : Z) : option bool :=
  thisQueue ← bioQueueData s !! i;
  submitter ← bioQueueToSubmitter s i;
  computedQueueNumber ← bioQueueNumberForPBN submitter pbn;
  Some (bool_decide (queueNumber thisQueue = computedQueueNumber)).

(** The physical block number of a KVIO selects the queue at position
    [i]. *)
Definition routedTo (s : IOSubmitter) (i : nat) (k : KVIO) : Prop :=
  bioQueueNumberForPBN s (physical k) = Some (Z.of_nat i).

(** The owner of a KVIO leaves it alone while a bio of it waits in a
    list of merged bios. *)
Definition untouched (st : State) (l : label) : Prop :=
  match l with
  | L_prepare p _ => Forall (λ b, bi_private b ≠ p) (pending st)
  | _ => True
  end.

#[global] Instance untouched_dec st l : Decision (untouched st l).
Proof. destruct l; simpl; apply _. Defined.

(** The callers hand a bio over with [submitBio] and leave it alone until
    the work function has handed it to the device: a bio is given to
    [submitBio] only while it does not wait in the list of a queued KVIO.
    A run has no step that writes a bio, so the fields of a waiting bio
    are those it was submitted with.  Under this rule the sequences of
    the model are the lists of the kernel: no bio is linked into two
    lists, the link [bi_next] that [submitBio] clears is the link of no
    list, and the sector [getMergeableLocked] and [processBioMap] read
    from the head or the tail of a list is the sector the bio was
    submitted with. *)
Definition fresh (st : State) (l : label) : Prop :=
  match l with
  | L_submitBio _ bio _ =>
      Forall (λ b, bio_address b ≠ bio_address bio) (pending st)
  | _ => True
  end.

#[global] Instance fresh_dec st l : Decision (fresh st l).
Proof. destruct l; simpl; apply _. Defined.

(** Every step of a sequence of steps taken from a state keeps to the
    rule [P]. *)
Fixpoint observes (VDO_SECTORS_PER_BLOCK : Z) (P : State → label → Prop)
    (ls : list label) (st : State) : Prop :=
  match ls with
  | [] => True
  | l :: ls' =>
      P st l ∧
      match exec VDO_SECTORS_PER_BLOCK st l with
      | Some st' => observes VDO_SECTORS_PER_BLOCK P ls' st'
      | None => True
      end
  end.

#[global] Instance observes_dec B P `{∀ st l, Decision (P st l)} ls st :
  Decision (observes B P ls st).
Proof.
  revert st. induction ls as [| l ls IH]; intros st; simpl; [apply _ |].
  destruct (exec B st l); apply _.
Defined.

(** Every bio the work function will hand to the device for a work item
    queued at position [i] belongs to a KVIO whose physical block number
    selects the queue at position [i]. *)
Definition bios_routed (st : State) : Prop :=
  ∀ (i : nat) bqd p b,
    bioQueueData (ioSubmitter st) !! i = Some bqd → p ∈ queue bqd →
    b ∈ pendingBios (kvios (mem st)) p →
    routedTo (ioSubmitter st) i (kvios (mem st) !!! bi_private b).

(** A second state for the examples: one bio queue as in [example_state],
    a data KVIO at the address 1 and a KVIO that is not a data KVIO at the
    address 4. *)
Definition example_state_mixed : State :=
  mkState (mkIOSubmitter 1 1 0 [mkBioQueueData [] ∅ 0])
          (mkMem (<[1%positive := example_kvio]>
                    (<[4%positive :=
                         mkKVIO 5 false (mkBIO 14 0 READ 4%positive) []
                                (mkWorkItem BIO_Q_ACTION_METADATA)]> ∅)) []).

(** * Properties *)

(** ** Routing *)

Lemma wrap32_small z : 0 ≤ z < 2 ^ 32 → wrap32 z = z.
Proof. intros H. unfold wrap32. by apply Z.mod_small. Qed.

Lemma wrap32_range z : 0 ≤ wrap32 z < 2 ^ 32.
Proof. unfold wrap32. apply Z.mod_pos_bound. lia. Qed.

Lemma wrap32_le z : 0 ≤ z → wrap32 z ≤ z.
Proof. intros H. unfold wrap32. apply Z.mod_le; lia. Qed.

(** The quotient of a residue modulo [d <= w * r] by [r] is below [w]. *)
Lemma residue_quotient_bound x d w r :
  0 < r → 0 < d ≤ w * r → 0 ≤ (x mod d) / r < w.
Proof.
  intros Hr Hd.
  pose proof (Z.mod_pos_bound x d ltac:(lia)) as Hm.
  split; [apply Z.div_pos; lia |].
  apply Z.div_lt_upper_bound; lia.
Qed.

Lemma bioQueueNumberForPBN_Some s pbn i :
  bioQueueNumberForPBN s pbn = Some i →
  wrap32 (numBioQueuesUsed s * bioQueueRotationInterval s) ≠ 0 ∧
  bioQueueRotationInterval s ≠ 0 ∧
  i = wrap32 ((pbn mod wrap32 (numBioQueuesUsed s
                               * bioQueueRotationInterval s))
              / bioQueueRotationInterval s).
Proof.
  unfold bioQueueNumberForPBN, umod, udiv. intros H.
  repeat case_decide; simplify_eq/=; auto.
Qed.

Lemma bioQueueNumberForPBN_defined s pbn :
  wrap32 (numBioQueuesUsed s * bioQueueRotationInterval s) ≠ 0 →
  bioQueueNumberForPBN s pbn
  = Some (wrap32 ((pbn mod wrap32 (numBioQueuesUsed s
                                   * bioQueueRotationInterval s))
                  / bioQueueRotationInterval s)).
Proof.
  intros Hd. unfold bioQueueNumberForPBN, umod, udiv.
  destruct (decide (wrap32 _ = 0)) as [? | _]; [congruence |]. simpl.
  destruct (decide (_ = 0)) as [Hr | _]; [| done].
  rewrite Hr, Z.mul_0_r in Hd. done.
Qed.

Lemma advanceBioRotor_Some s i s' :
  advanceBioRotor s = Some (i, s') →
  wrap32 (numBioQueuesUsed s * bioQueueRotationInterval s) ≠ 0 ∧
  bioQueueRotationInterval s ≠ 0 ∧
  i = (bioQueueRotor s mod wrap32 (numBioQueuesUsed s
                                   * bioQueueRotationInterval s))
      / bioQueueRotationInterval s ∧
  s' = mkIOSubmitter (numBioQueuesUsed s) (bioQueueRotationInterval s)
                     (wrap32 (bioQueueRotor s + 1)) (bioQueueData s).
Proof.
  unfold advanceBioRotor, umod, udiv. intros H.
  repeat case_decide; simplify_eq/=; auto.
Qed.

Lemma advanceBioRotor_defined s :
  wrap32 (numBioQueuesUsed s * bioQueueRotationInterval s) ≠ 0 →
  advanceBioRotor s
  = Some ((bioQueueRotor s mod wrap32 (numBioQueuesUsed s
                                       * bioQueueRotationInterval s))
          / bioQueueRotationInterval s,
          mkIOSubmitter (numBioQueuesUsed s) (bioQueueRotationInterval s)
                        (wrap32 (bioQueueRotor s + 1)) (bioQueueData s)).
Proof.
  intros Hd. unfold advanceBioRotor, umod, udiv.
  destruct (decide (wrap32 _ = 0)) as [? | _]; [congruence |]. simpl.
  destruct (decide (_ = 0)) as [Hr | _]; [| done].
  rewrite Hr, Z.mul_0_r in Hd. done.
Qed.

(** C5, as amended: when the product of the number of queues and the
    rotation interval fits the 32 bits it is computed in, the queue of a
    physical block number [pbn] is [(pbn mod (queues * interval)) /
    interval]; with 4 queues and an interval of 8, block numbers 0 and 7
    go to queue 0, 8 goes to queue 1 and 32 to queue 0. *)
Theorem bioQueueNumberForPBN_formula s pbn :
  1 ≤ numBioQueuesUsed s → 1 ≤ bioQueueRotationInterval s →
  numBioQueuesUsed s * bioQueueRotationInterval s < 2 ^ 32 →
  bioQueueNumberForPBN s pbn
  = Some ((pbn mod (numBioQueuesUsed s * bioQueueRotationInterval s))
          / bioQueueRotationInterval s) ∧
  (numBioQueuesUsed s = 4 → bioQueueRotationInterval s = 8 →
   bioQueueNumberForPBN s 0 = Some 0 ∧ bioQueueNumberForPBN s 7 = Some 0 ∧
   bioQueueNumberForPBN s 8 = Some 1 ∧ bioQueueNumberForPBN s 32 = Some 0).
Proof.
  intros Hw Hr Hprod. split.
  - set (w := numBioQueuesUsed s) in *.
    set (r := bioQueueRotationInterval s) in *.
    assert (Hwrap : wrap32 (w * r) = w * r) by (apply wrap32_small; nia).
    rewrite bioQueueNumberForPBN_defined; fold w r; rewrite Hwrap; [| nia].
    f_equal. apply wrap32_small.
    pose proof (residue_quotient_bound pbn (w * r) w r) as Hb. nia.
  - intros Hw4 Hr8.
    unfold bioQueueNumberForPBN. rewrite Hw4, Hr8. vm_compute. auto.
Qed.

Lemma bioQueueNumberForPBN_formula_witness :
  let s := mkIOSubmitter 4 8 0 [] in
  bioQueueNumberForPBN s 41 = Some ((41 mod (4 * 8)) / 8) ∧
  bioQueueNumberForPBN s 0 = Some 0 ∧ bioQueueNumberForPBN s 7 = Some 0 ∧
  bioQueueNumberForPBN s 8 = Some 1 ∧ bioQueueNumberForPBN s 32 = Some 0.
Proof.
  intros s.
  destruct (bioQueueNumberForPBN_formula s 41) as [H1 H2]; simpl; try lia.
  split; [exact H1 | apply H2; reflexivity].
Defined.

(** C5, as stated, fails when the product does not fit 32 bits: with 3
    queues and an interval of 2^31 the product wraps to 2^31, and block
    number 2^31 goes to queue 0, not to queue 1. *)
Lemma bioQueueNumberForPBN_wraps :
  let s := mkIOSubmitter 3 (2 ^ 31) 0 [] in
  1 ≤ numBioQueuesUsed s ∧ 1 ≤ bioQueueRotationInterval s ∧
  bioQueueNumberForPBN s (2 ^ 31) = Some 0 ∧
  (2 ^ 31 mod (numBioQueuesUsed s * bioQueueRotationInterval s))
  / bioQueueRotationInterval s = 1.
Proof. vm_compute. repeat split; congruence. Qed.

(** C10: with at least one queue and a rotation interval of at least 1,
    a queue number computed from a block number or by the rotor is below
    the number of queues, and it is computed whenever the 32-bit product
    of the two fields is not zero; so the element of [bioQueueData] it
    selects exists. *)
Theorem bioQueueIndex_in_bounds s pbn :
  1 ≤ numBioQueuesUsed s < 2 ^ 32 →
  1 ≤ bioQueueRotationInterval s < 2 ^ 32 →
  (∀ i, bioQueueNumberForPBN s pbn = Some i → 0 ≤ i < numBioQueuesUsed s) ∧
  (∀ i s', advanceBioRotor s = Some (i, s') → 0 ≤ i < numBioQueuesUsed s) ∧
  (wrap32 (numBioQueuesUsed s * bioQueueRotationInterval s) ≠ 0 →
   is_Some (bioQueueNumberForPBN s pbn) ∧ is_Some (advanceBioRotor s)) ∧
  (Z.of_nat (length (bioQueueData s)) = numBioQueuesUsed s →
   ∀ i, bioQueueNumberForPBN s pbn = Some i →
        is_Some (bioQueueData s !! Z.to_nat i)).
Proof.
  intros Hw Hr.
  set (w := numBioQueuesUsed s) in *.
  set (r := bioQueueRotationInterval s) in *.
  assert (Hbound : ∀ x, wrap32 (w * r) ≠ 0 →
                        0 ≤ (x mod wrap32 (w * r)) / r < w).
  { intros x Hd. apply residue_quotient_bound; [lia |].
    pose proof (wrap32_range (w * r)). pose proof (wrap32_le (w * r)). nia. }
  assert (Hpbn : ∀ i, bioQueueNumberForPBN s pbn = Some i → 0 ≤ i < w).
  { intros i Hi. apply bioQueueNumberForPBN_Some in Hi as (Hd & _ & ->).
    fold w r in Hd |- *. specialize (Hbound pbn Hd).
    rewrite wrap32_small; lia. }
  split_and!.
  - done.
  - intros i s' Hi. apply advanceBioRotor_Some in Hi as (Hd & _ & -> & _).
    by apply Hbound.
  - intros Hd. split.
    + rewrite bioQueueNumberForPBN_defined by done. by eexists.
    + rewrite advanceBioRotor_defined by done. by eexists.
  - intros Hlen i Hi. apply Hpbn in Hi.
    apply lookup_lt_is_Some. lia.
Qed.

Lemma bioQueueIndex_in_bounds_witness :
  let s := mkIOSubmitter 4 8 0 (replicate 4 (mkBioQueueData [] ∅ 0)) in
  ∃ i, bioQueueNumberForPBN s 13 = Some i ∧ 0 ≤ i < 4 ∧
       is_Some (bioQueueData s !! Z.to_nat i).
Proof.
  intros s.
  destruct (bioQueueIndex_in_bounds s 13) as (Hpbn & _ & _ & Hsel);
    [simpl; lia | simpl; lia |].
  exists 1. split; [reflexivity |].
  split; [apply Hpbn; reflexivity | apply Hsel; reflexivity].
Defined.

(** *** The rotor *)

Lemma countFrom_add p a n m :
  countFrom p a (n + m)
  = (countFrom p a n + countFrom p (a + Z.of_nat n) m)%nat.
Proof.
  revert a. induction n as [| n IH]; intros a.
  - simpl. by rewrite Z.add_0_r.
  - replace (a + Z.of_nat (S n)) with (a + 1 + Z.of_nat n) by lia.
    cbn [Nat.add countFrom]. rewrite IH. lia.
Qed.

Lemma countFrom_ext p q a n :
  (∀ t, a ≤ t < a + Z.of_nat n → p t = q t) →
  countFrom p a n = countFrom q a n.
Proof.
  revert a. induction n as [| n IH]; intros a H; simpl; [done |].
  rewrite (H a) by lia. rewrite IH; [done |]. intros t Ht. apply H. lia.
Qed.

Lemma countFrom_shift p c a n :
  countFrom p (a + c) n = countFrom (λ t, p (t + c)) a n.
Proof.
  revert a. induction n as [| n IH]; intros a; simpl; [done |].
  replace (a + c + 1) with (a + 1 + c) by lia. by rewrite IH.
Qed.

(** A window of the length of a period counts the same wherever it starts. *)
Lemma countFrom_slide p n a :
  (∀ t, p (t + Z.of_nat n) = p t) →
  countFrom p (a + 1) n = countFrom p a n.
Proof.
  intros Hper.
  pose proof (countFrom_add p a 1 n) as H1.
  pose proof (countFrom_add p a n 1) as H2.
  replace (1 + n)%nat with (n + 1)%nat in H1 by lia.
  rewrite H1 in H2. cbn [countFrom] in H2.
  rewrite (Hper a) in H2. change (Z.of_nat 1) with 1 in H2.
  destruct (p a); lia.
Qed.

Lemma countFrom_period_start p n a :
  (∀ t, p (t + Z.of_nat n) = p t) → 0 ≤ a →
  countFrom p a n = countFrom p 0 n.
Proof.
  intros Hper Ha. revert a Ha.
  apply (natlike_ind (λ a, countFrom p a n = countFrom p 0 n)); [done |].
  intros a Ha IH. unfold Z.succ. by rewrite countFrom_slide.
Qed.

Lemma countFrom_periods p n k a :
  (∀ t, p (t + Z.of_nat n) = p t) → 0 ≤ a →
  countFrom p a (n * k) = (countFrom p 0 n * k)%nat.
Proof.
  intros Hper Ha. revert a Ha. induction k as [| k IH]; intros a Ha.
  - by rewrite !Nat.mul_0_r.
  - replace (n * S k)%nat with (n + n * k)%nat by lia.
    rewrite countFrom_add, IH by lia.
    rewrite (countFrom_period_start p n a) by done. lia.
Qed.

(** Within the block of [r] integers from [c * r] on, every quotient by
    [r] is [c]. *)
Lemma countFrom_block r j c a m :
  0 < r → c * r ≤ a → a + Z.of_nat m ≤ c * r + r →
  countFrom (λ t, bool_decide (t / r = j)) a m
  = if decide (j = c) then m else O.
Proof.
  intros Hr. revert a. induction m as [| m IH]; intros a Hlo Hhi; simpl.
  - by case_decide.
  - rewrite IH by lia.
    assert (a / r = c) as ->.
    { symmetry. apply Z.div_unique with (a - c * r); lia. }
    case_bool_decide; case_decide; try lia; congruence.
Qed.

Lemma countFrom_blocks r j (w : nat) :
  0 < r →
  countFrom (λ t, bool_decide (t / r = j)) 0 (w * Z.to_nat r)
  = if decide (0 ≤ j < Z.of_nat w) then Z.to_nat r else O.
Proof.
  intros Hr. induction w as [| w IH].
  - simpl. case_decide; [lia | done].
  - replace (S w * Z.to_nat r)%nat with (w * Z.to_nat r + Z.to_nat r)%nat
      by lia.
    rewrite countFrom_add, IH.
    rewrite (countFrom_block r j (Z.of_nat w)) by lia.
    repeat case_decide; lia.
Qed.

(** Over one period of [w * r] values every queue below [w] is counted
    [r] times. *)
Lemma countFrom_one_period w r j :
  1 ≤ w → 1 ≤ r → 0 ≤ j < w →
  countFrom (λ t, bool_decide ((t mod (w * r)) / r = j)) 0 (Z.to_nat (w * r))
  = Z.to_nat r.
Proof.
  intros Hw Hr Hj.
  rewrite (countFrom_ext _ (λ t, bool_decide (t / r = j))).
  - replace (Z.to_nat (w * r)) with (Z.to_nat w * Z.to_nat r)%nat by nia.
    rewrite countFrom_blocks by lia. case_decide; [done | lia].
  - intros t Ht. rewrite Z.mod_small; [done | nia].
Qed.

Lemma rotorIndices_wrap w r a n :
  rotorIndices w r (wrap32 a) n = rotorIndices w r a n.
Proof.
  revert a. induction n as [| n IH]; intros a; simpl; [done |].
  assert (wrap32 (wrap32 a) = wrap32 a) as ->.
  { unfold wrap32. by rewrite Z.mod_mod. }
  f_equal. rewrite <- (IH (wrap32 a + 1)), <- (IH (a + 1)).
  f_equal. unfold wrap32. by rewrite Zplus_mod_idemp_l.
Qed.

Lemma rotorIndices_lookup w r a n (t : nat) :
  (t < n)%nat →
  rotorIndices w r a n !! t
  = Some ((wrap32 (a + Z.of_nat t) mod (w * r)) / r).
Proof.
  revert a t. induction n as [| n IH]; intros a t Ht; [lia |].
  destruct t as [| t]; simpl.
  - by rewrite Z.add_0_r.
  - rewrite IH by lia. do 4 f_equal. lia.
Qed.

Lemma rotorIndices_occurrences w r j a n :
  occurrences j (rotorIndices w r a n)
  = countFrom (λ t, bool_decide ((wrap32 t mod (w * r)) / r = j)) a n.
Proof.
  revert a. induction n as [| n IH]; intros a; simpl; [done |].
  rewrite IH. by case_decide; case_bool_decide.
Qed.

Lemma rotorRun_indices n s :
  wrap32 (numBioQueuesUsed s * bioQueueRotationInterval s)
  = numBioQueuesUsed s * bioQueueRotationInterval s →
  numBioQueuesUsed s * bioQueueRotationInterval s ≠ 0 →
  0 ≤ bioQueueRotor s < 2 ^ 32 →
  rotorRun n s
  = Some (rotorIndices (numBioQueuesUsed s) (bioQueueRotationInterval s)
                       (bioQueueRotor s) n,
          mkIOSubmitter (numBioQueuesUsed s) (bioQueueRotationInterval s)
                        (wrap32 (bioQueueRotor s + Z.of_nat n))
                        (bioQueueData s)).
Proof.
  revert s. induction n as [| n IH]; intros s Hwrap Hd Hrot.
  - simpl. rewrite Z.add_0_r, wrap32_small by done. by destruct s.
  - cbn [rotorRun]. rewrite advanceBioRotor_defined by congruence.
    cbn [mbind option_bind].
    rewrite IH; cbn [numBioQueuesUsed bioQueueRotationInterval bioQueueRotor
                     bioQueueData]; try done; [| apply wrap32_range].
    cbn [mbind option_bind rotorIndices].
    rewrite Hwrap, rotorIndices_wrap, (wrap32_small (bioQueueRotor s)) by done.
    do 3 f_equal. unfold wrap32. rewrite Zplus_mod_idemp_l. f_equal. lia.
Qed.

(** C6, as amended: when the product of the number of queues [w] and the
    rotation interval [r] fits 32 bits and either the 32-bit rotor does
    not wrap around during the run or [w * r] divides 2^32, then over
    [w * r * k] successive rotor-routed requests every queue is chosen
    exactly [r * k] times; the rotor advances by one per request, and each
    queue number is the rotor value reduced modulo [w * r] and divided by
    [r]. *)
Theorem rotor_fairness s (k : nat) :
  1 ≤ numBioQueuesUsed s → 1 ≤ bioQueueRotationInterval s →
  numBioQueuesUsed s * bioQueueRotationInterval s < 2 ^ 32 →
  0 ≤ bioQueueRotor s < 2 ^ 32 →
  (bioQueueRotor s
   + numBioQueuesUsed s * bioQueueRotationInterval s * Z.of_nat k ≤ 2 ^ 32
   ∨ (numBioQueuesUsed s * bioQueueRotationInterval s | 2 ^ 32)) →
  let w := numBioQueuesUsed s in
  let r := bioQueueRotationInterval s in
  let n := (Z.to_nat (w * r) * k)%nat in
  ∃ l s',
    rotorRun n s = Some (l, s') ∧
    (∀ j, 0 ≤ j < w → occurrences j l = (Z.to_nat r * k)%nat) ∧
    (∀ t : nat, (t < n)%nat →
       l !! t = Some ((wrap32 (bioQueueRotor s + Z.of_nat t) mod (w * r)) / r)) ∧
    bioQueueRotor s' = wrap32 (bioQueueRotor s + Z.of_nat n).
Proof.
  intros Hw Hr Hprod Hrot Hwin w r n. fold w r in Hprod, Hwin.
  assert (Hwrap : wrap32 (w * r) = w * r) by (apply wrap32_small; nia).
  eexists _, _. split; [apply rotorRun_indices; fold w r; [done | nia | done] |].
  fold w r. split_and!.
  - intros j Hj. rewrite rotorIndices_occurrences.
    rewrite (countFrom_ext _ (λ t, bool_decide ((t mod (w * r)) / r = j))).
    + unfold n. rewrite countFrom_periods.
      * by rewrite countFrom_one_period.
      * intros t. rewrite Z2Nat.id by nia.
        replace (t + w * r) with (t + 1 * (w * r)) by lia.
        by rewrite Z.mod_add by nia.
      * lia.
    + intros t Ht. destruct Hwin as [Hno | Hdiv].
      * rewrite wrap32_small; [done |]. unfold n in Ht. nia.
      * unfold wrap32. by rewrite Z.mod_mod_divide.
  - intros t Ht. by apply rotorIndices_lookup.
  - done.
Qed.

Lemma rotor_fairness_witness :
  let s := mkIOSubmitter 2 3 5 [] in
  ∃ l s', rotorRun 12 s = Some (l, s') ∧
          (∀ j, 0 ≤ j < 2 → occurrences j l = 6%nat).
Proof.
  intros s.
  destruct (rotor_fairness s 2) as (l & s' & Hrun & Hocc & _);
    [simpl; lia .. | left; simpl; lia |].
  exists l, s'. split; [exact Hrun | exact Hocc].
Defined.

(** C6, as stated, fails where the rotor wraps around: with 3 queues, an
    interval of 1 and the rotor at 2^32 - 1, the next three requests go
    to queues 0, 0 and 1. *)
Lemma rotor_unfair_at_wrap :
  let s := mkIOSubmitter 3 1 (2 ^ 32 - 1) [] in
  ∃ l s', rotorRun (Z.to_nat (3 * 1) * 1) s = Some (l, s') ∧
          l = [0; 0; 1] ∧
          occurrences 0 l = 2%nat ∧ occurrences 2 l = 0%nat.
Proof. vm_compute. eexists _, _. repeat split. Qed.


Lemma requestsOf_app tr1 tr2 :
  requestsOf (tr1 ++ tr2) = requestsOf tr1 ++ requestsOf tr2.
Proof.
  induction tr1 as [| e tr1 IH]; [done |].
  destruct e; simpl; by rewrite ?IH.
Qed.

(** ** The bio map *)

Lemma List_last_default {A} (x : A) (l : list A) (d d' : A) :
  List.last (x :: l) d = List.last (x :: l) d'.
Proof.
  revert x. induction l as [| y l IH]; intros x; [done |].
  change (List.last (y :: l) d = List.last (y :: l) d'). apply IH.
Qed.

Lemma last_cons_last {A} (hd : A) (tl : list A) :
  last (hd :: tl) = Some (List.last tl hd).
Proof.
  revert hd. induction tl as [| x tl IH]; intros hd; [done |].
  rewrite last_cons_cons, IH. f_equal.
  destruct tl as [| y tl']; [done |].
  change (List.last (y :: tl') x = List.last (y :: tl') hd).
  apply List_last_default.
Qed.

Lemma bio_list_tail_cons hd tl :
  bio_list_tail (hd :: tl) = Some (List.last tl hd).
Proof. apply last_cons_last. Qed.

Lemma last_app_singleton {A} (tl : list A) (x hd : A) :
  List.last (tl ++ [x]) hd = x.
Proof. apply last_last. Qed.

Lemma kvios_set_kvio_eq p k m : kvios (set_kvio p k m) !!! p = k.
Proof. unfold set_kvio. simpl. by rewrite lookup_total_insert_eq. Qed.

Lemma kvios_set_kvio_ne p q k m :
  p ≠ q → kvios (set_kvio p k m) !!! q = kvios m !!! q.
Proof. intros H. unfold set_kvio. simpl. by rewrite lookup_total_insert_ne. Qed.

Lemma reachable_mono B (P Q : State → label → Prop) st :
  (∀ st l, P st l → Q st l) → reachable B P st → reachable B Q st.
Proof.
  intros HPQ. induction 1 as [st Hinit | st l st' _ IH HP Hexec].
  - by apply reachable_initial.
  - eapply reachable_step; [exact IH | by apply HPQ | exact Hexec].
Qed.

Section BioMapProperties.

Variable VDO_SECTORS_PER_BLOCK : Z.
Local Abbreviation B := VDO_SECTORS_PER_BLOCK.

Lemma mergeSectorFor_back s :
  mergeSectorFor B s ELEVATOR_BACK_MERGE = wrap64 (s - B).
Proof. reflexivity. Qed.

Lemma mergeSectorFor_front s :
  mergeSectorFor B s ELEVATOR_FRONT_MERGE = wrap64 (s + B).
Proof. reflexivity. Qed.

(** A candidate is returned for a request and a kind of merge exactly
    when the bio map has an entry under the adjacent sector (the sector of
    the request minus the block size for a back merge, plus it for a
    front merge, in [sector_t] arithmetic), the work item of the entry has
    the action of the request, its bio has the direction of the request,
    its list of merged bios is not empty, and the tail (back merge) or the
    head (front merge) of that list is at the adjacent sector; the
    candidate is then that entry, and otherwise there is none. *)
Lemma getMergeableLocked_spec h (m : gmap Z kvio_ptr) kvio :
  let bio := bioToSubmit (h !!! kvio) in
  let back := wrap64 (getBioSector bio - B) in
  let front := wrap64 (getBioSector bio + B) in
  let compatible (c : kvio_ptr) :=
    action (workItem (h !!! c)) = action (workItem (h !!! kvio)) ∧
    bio_data_dir (bioToSubmit (h !!! c)) = bio_data_dir bio ∧
    biosMerged (h !!! c) ≠ [] in
  (∀ c, getMergeableLocked B h m kvio ELEVATOR_BACK_MERGE = Some c ↔
        m !! back = Some c ∧ compatible c ∧
        getBioSector <$> bio_list_tail (biosMerged (h !!! c)) = Some back) ∧
  (∀ c, getMergeableLocked B h m kvio ELEVATOR_FRONT_MERGE = Some c ↔
        m !! front = Some c ∧ compatible c ∧
        getBioSector <$> bio_list_head (biosMerged (h !!! c)) = Some front).
Proof.
  intros bio back front compatible. unfold compatible.
  split; intros c; unfold getMergeableLocked, intMapGet;
    rewrite ?mergeSectorFor_back, ?mergeSectorFor_front;
    fold bio; fold back; fold front.
  - destruct (m !! back) as [c' |] eqn:Hget; [| naive_solver].
    unfold areWorkItemActionsEqual.
    case_bool_decide as Hact; simpl.
    2:{ split; [done |]. intros (? & (? & _) & _). simplify_eq; congruence. }
    case_bool_decide as Hdir; simpl.
    2:{ split; [done |]. intros (? & (_ & ? & _) & _). simplify_eq; congruence. }
    destruct (biosMerged (h !!! c')) as [| hd tl] eqn:Hbl.
    { split; [done |]. intros (? & (_ & _ & ?) & _). simplify_eq. }
    case_decide as Htail.
    + split.
      * intros ?. simplify_eq. rewrite Hbl, bio_list_tail_cons. simpl.
        rewrite Htail. repeat split; congruence.
      * intros (? & _). by simplify_eq.
    + split; [done |]. intros (? & _ & Ht). simplify_eq.
      rewrite Hbl, bio_list_tail_cons in Ht. simpl in Ht. congruence.
  - destruct (m !! front) as [c' |] eqn:Hget; [| naive_solver].
    unfold areWorkItemActionsEqual.
    case_bool_decide as Hact; simpl.
    2:{ split; [done |]. intros (? & (? & _) & _). simplify_eq; congruence. }
    case_bool_decide as Hdir; simpl.
    2:{ split; [done |]. intros (? & (_ & ? & _) & _). simplify_eq; congruence. }
    destruct (biosMerged (h !!! c')) as [| hd tl] eqn:Hbl.
    { split; [done |]. intros (? & (_ & _ & ?) & _). simplify_eq. }
    case_decide as Hhead.
    + split.
      * intros ?. simplify_eq. rewrite Hbl. simpl.
        rewrite Hhead. repeat split; congruence.
      * intros (? & _). by simplify_eq.
    + split; [done |]. intros (? & _ & Ht). simplify_eq.
      rewrite Hbl in Ht. simpl in Ht. congruence.
Qed.


Lemma intMapPut_update result m key v :
  intMapPut result m key v true = (result, putResult result key v m).
Proof.
  unfold intMapPut, putResult. case_decide; [| done]. by destruct (m !! key).
Qed.

Lemma mergeToTail_eq puts bqd m prevKvio kvio hd tl :
  biosMerged (kvios m !!! prevKvio) = hd :: tl →
  let bl := biosMerged (kvios m !!! kvio) in
  let q := queueNumber bqd in
  let tail := getBioSector (List.last tl hd) in
  let tail' := getBioSector (List.last (tl ++ bl) hd) in
  mergeToTail puts bqd m prevKvio kvio
  = Some (set_map (putResult puts.2 tail' prevKvio
                     (putResult puts.1 (getBioSector hd) prevKvio
                        (delete tail (map bqd)))) bqd,
          mkMem (<[prevKvio := set_biosMerged ((hd :: tl) ++ bl)
                                              (kvios m !!! prevKvio)]>
                   (kvios m))
                (trace m ++ [Ev_intMapRemove q tail;
                             Ev_intMapPut q (getBioSector hd) prevKvio puts.1;
                             Ev_intMapPut q tail' prevKvio puts.2])).
Proof.
  intros Hbl bl q tail tail'. unfold mergeToTail.
  rewrite Hbl, bio_list_tail_cons. cbn [mbind option_bind].
  rewrite kvios_set_kvio_eq. unfold bio_list_merge. cbn [set_biosMerged biosMerged].
  cbn [app bio_list_head head mbind option_bind].
  rewrite !intMapPut_update.
  change ((hd :: tl) ++ biosMerged (kvios m !!! kvio)) with (hd :: (tl ++ bl)).
  rewrite bio_list_tail_cons. cbn [mbind option_bind].
  rewrite intMapPut_update. done.
Qed.

Lemma mergeToHead_eq puts bqd m nextKvio kvio hd tl :
  biosMerged (kvios m !!! nextKvio) = hd :: tl →
  let bl := biosMerged (kvios m !!! kvio) in
  let q := queueNumber bqd in
  let head' := getBioSector (List.hd hd bl) in
  let tail' := getBioSector (List.last tl hd) in
  mergeToHead puts bqd m nextKvio kvio
  = Some (set_map (putResult puts.2 tail' nextKvio
                     (putResult puts.1 head' nextKvio
                        (delete (getBioSector hd) (map bqd)))) bqd,
          mkMem (<[nextKvio := set_biosMerged (bl ++ hd :: tl)
                                              (kvios m !!! nextKvio)]>
                   (kvios m))
                (trace m ++ [Ev_intMapRemove q (getBioSector hd);
                             Ev_intMapPut q head' nextKvio puts.1;
                             Ev_intMapPut q tail' nextKvio puts.2])).
Proof.
  intros Hbl bl q head' tail'. unfold mergeToHead.
  rewrite Hbl. cbn [bio_list_head head mbind option_bind].
  rewrite kvios_set_kvio_eq. unfold bio_list_merge_head.
  cbn [set_biosMerged biosMerged]. fold bl.
  assert (Hhead : bio_list_head (bl ++ hd :: tl) = Some (List.hd hd bl))
    by by destruct bl.
  assert (Htail : bio_list_tail (bl ++ hd :: tl) = Some (List.last tl hd)).
  { unfold bio_list_tail. rewrite last_app_cons. apply last_cons_last. }
  rewrite Hhead. cbn [mbind option_bind]. rewrite intMapPut_update.
  rewrite Htail. cbn [mbind option_bind]. rewrite intMapPut_update. done.
Qed.


Lemma getMergeableLocked_nonempty h m kvio mergeType c :
  getMergeableLocked B h m kvio mergeType = Some c →
  ∃ hd tl, biosMerged (h !!! c) = hd :: tl.
Proof.
  unfold getMergeableLocked. intros H.
  destruct (intMapGet m _) as [c' |]; [| done].
  repeat (case_match; try done); simplify_eq; eauto.
Qed.

Lemma getMergeableLocked_lookup h m kvio mergeType c :
  getMergeableLocked B h m kvio mergeType = Some c →
  m !! mergeSectorFor B (getBioSector (bioToSubmit (h !!! kvio))) mergeType
  = Some c.
Proof.
  unfold getMergeableLocked, intMapGet. intros H.
  destruct (m !! _) as [c' |]; [| done].
  repeat (case_match; try done); simplify_eq; eauto.
Qed.

(** No candidate: the request is put into the map under its own sector,
    whatever the result of the insertion, and is reported as not merged. *)
Lemma tryBioMapMerge_none puts bqd m kvio bio :
  getMergeableLocked B (kvios m) (map bqd) kvio ELEVATOR_BACK_MERGE = None →
  getMergeableLocked B (kvios m) (map bqd) kvio ELEVATOR_FRONT_MERGE = None →
  tryBioMapMerge B puts bqd m kvio bio
  = Some (notMerged puts bqd m kvio bio, false).
Proof.
  intros Hprev Hnext. unfold tryBioMapMerge, notMerged.
  cbn [add_events kvios]. rewrite Hprev, Hnext.
  rewrite decide_True by done. rewrite intMapPut_update.
  unfold add_events. cbn [kvios trace]. by rewrite <- app_assoc.
Qed.

(** A candidate at the back only, or the same candidate on both sides:
    the list of the request goes to the tail of the candidate. *)
Lemma tryBioMapMerge_back puts bqd m kvio bio prevKvio hd tl :
  getMergeableLocked B (kvios m) (map bqd) kvio ELEVATOR_BACK_MERGE
  = Some prevKvio →
  getMergeableLocked B (kvios m) (map bqd) kvio ELEVATOR_FRONT_MERGE = None ∨
  getMergeableLocked B (kvios m) (map bqd) kvio ELEVATOR_FRONT_MERGE
  = Some prevKvio →
  biosMerged (kvios m !!! prevKvio) = hd :: tl →
  tryBioMapMerge B puts bqd m kvio bio
  = Some (mergedToTail puts bqd m kvio prevKvio hd tl, true).
Proof.
  intros Hprev Hnext Hbl. unfold tryBioMapMerge, mergedToTail.
  cbn [add_events kvios]. rewrite Hprev.
  assert ((if decide (Some prevKvio
                      = getMergeableLocked B (kvios m) (map bqd) kvio
                                           ELEVATOR_FRONT_MERGE)
           then None
           else getMergeableLocked B (kvios m) (map bqd) kvio
                                   ELEVATOR_FRONT_MERGE) = None) as ->.
  { destruct Hnext as [-> | ->]; [by rewrite decide_False | by rewrite decide_True]. }
  rewrite (mergeToTail_eq puts bqd _ prevKvio kvio hd tl) by done.
  cbn [mbind option_bind kvios trace add_events].
  unfold add_events. cbn [kvios trace]. by rewrite <- !app_assoc.
Qed.

(** A candidate at the front that is not also the candidate at the back:
    the list of the request goes to the head of the candidate. *)
Lemma tryBioMapMerge_front puts bqd m kvio bio nextKvio hd tl :
  getMergeableLocked B (kvios m) (map bqd) kvio ELEVATOR_FRONT_MERGE
  = Some nextKvio →
  getMergeableLocked B (kvios m) (map bqd) kvio ELEVATOR_BACK_MERGE
  ≠ Some nextKvio →
  biosMerged (kvios m !!! nextKvio) = hd :: tl →
  tryBioMapMerge B puts bqd m kvio bio
  = Some (mergedToHead puts bqd m kvio nextKvio hd tl, true).
Proof.
  intros Hnext Hprev Hbl. unfold tryBioMapMerge, mergedToHead.
  cbn [add_events kvios]. rewrite Hnext.
  rewrite decide_False by done.
  destruct (getMergeableLocked B (kvios m) (map bqd) kvio ELEVATOR_BACK_MERGE);
    rewrite (mergeToHead_eq puts bqd _ nextKvio kvio hd tl) by done;
    cbn [mbind option_bind kvios trace add_events];
    unfold add_events; cbn [kvios trace]; by rewrite <- !app_assoc.
Qed.

(** [tryBioMapMerge] dereferences no [NULL] bio: it always has a result,
    which is one of the three above. *)
Lemma tryBioMapMerge_cases puts bqd m kvio bio :
  ∃ res, tryBioMapMerge B puts bqd m kvio bio = Some res ∧
         tryBioMapMerge_case B puts bqd m kvio bio res.
Proof.
  destruct (getMergeableLocked B (kvios m) (map bqd) kvio ELEVATOR_FRONT_MERGE)
    as [n |] eqn:Hnext;
  destruct (getMergeableLocked B (kvios m) (map bqd) kvio ELEVATOR_BACK_MERGE)
    as [p |] eqn:Hprev.
  - destruct (decide (p = n)) as [-> | Hne].
    + destruct (getMergeableLocked_nonempty _ _ _ _ _ Hprev) as (hd & tl & Hbl).
      eexists. split; [apply (tryBioMapMerge_back _ _ _ _ _ n hd tl); auto |].
      by apply case_mergedToTail.
    + destruct (getMergeableLocked_nonempty _ _ _ _ _ Hnext) as (hd & tl & Hbl).
      eexists. split; [apply (tryBioMapMerge_front _ _ _ _ _ n hd tl); auto |].
      * congruence.
      * by apply case_mergedToHead.
  - destruct (getMergeableLocked_nonempty _ _ _ _ _ Hnext) as (hd & tl & Hbl).
    eexists. split; [apply (tryBioMapMerge_front _ _ _ _ _ n hd tl); auto |].
    + congruence.
    + by apply case_mergedToHead.
  - destruct (getMergeableLocked_nonempty _ _ _ _ _ Hprev) as (hd & tl & Hbl).
    eexists. split; [apply (tryBioMapMerge_back _ _ _ _ _ p hd tl); auto |].
    by apply case_mergedToTail.
  - eexists. split; [by apply tryBioMapMerge_none |].
    by apply case_notMerged.
Qed.

(** C3: a candidate is returned for a request and a kind of merge exactly
    when the bio map has an entry under the adjacent sector (the sector of
    the request minus the block size for a back merge, plus it for a
    front merge, in [sector_t] arithmetic), the work item of the entry has
    the action of the request, its bio has the direction of the request,
    its list of merged bios is not empty, and the tail (back merge) or the
    head (front merge) of that list is at the adjacent sector; the
    candidate is then that entry, and otherwise there is none. *)
Theorem getMergeableLocked_usable h (m : gmap Z kvio_ptr) kvio :
  let bio := bioToSubmit (h !!! kvio) in
  let back := wrap64 (getBioSector bio - B) in
  let front := wrap64 (getBioSector bio + B) in
  let compatible (c : kvio_ptr) :=
    action (workItem (h !!! c)) = action (workItem (h !!! kvio)) ∧
    bio_data_dir (bioToSubmit (h !!! c)) = bio_data_dir bio ∧
    biosMerged (h !!! c) ≠ [] in
  (∀ c, getMergeableLocked B h m kvio ELEVATOR_BACK_MERGE = Some c ↔
        m !! back = Some c ∧ compatible c ∧
        getBioSector <$> bio_list_tail (biosMerged (h !!! c)) = Some back) ∧
  (∀ c, getMergeableLocked B h m kvio ELEVATOR_FRONT_MERGE = Some c ↔
        m !! front = Some c ∧ compatible c ∧
        getBioSector <$> bio_list_head (biosMerged (h !!! c)) = Some front).
Proof. apply getMergeableLocked_spec. Qed.

(** C4: when the lookups at the back and at the front yield candidates,
    the request is merged; if the two are the same KVIO, the list of the
    request is appended to the tail of the candidate and the bio map is
    changed as for a merge at the back; if they differ, the list of the
    request is put before the head of the candidate at the front, and the
    candidate at the back keeps its list and its entries in the bio map
    (unless under a key at which the candidate at the front is put). *)
Theorem tryBioMapMerge_both_candidates puts bqd m kvio bio prevKvio nextKvio :
  getMergeableLocked B (kvios m) (map bqd) kvio ELEVATOR_BACK_MERGE
  = Some prevKvio →
  getMergeableLocked B (kvios m) (map bqd) kvio ELEVATOR_FRONT_MERGE
  = Some nextKvio →
  let bl := biosMerged (kvios m !!! kvio) in
  let q := queueNumber bqd in
  ∃ bqd' m' evs,
    tryBioMapMerge B puts bqd m kvio bio = Some (bqd', m', true) ∧
    queue bqd' = queue bqd ∧
    trace m' = trace m ++ [Ev_mutex_lock q] ++ evs ++ [Ev_mutex_unlock q] ∧
    (prevKvio = nextKvio →
     biosMerged (kvios m' !!! prevKvio)
     = biosMerged (kvios m !!! prevKvio) ++ bl ∧
     (∀ p, p ≠ prevKvio → kvios m' !!! p = kvios m !!! p) ∧
     ∃ hd tl, biosMerged (kvios m !!! prevKvio) = hd :: tl ∧
       evs = [Ev_intMapRemove q (getBioSector (List.last tl hd));
              Ev_intMapPut q (getBioSector hd) prevKvio puts.1;
              Ev_intMapPut q (getBioSector (List.last (tl ++ bl) hd))
                           prevKvio puts.2]) ∧
    (prevKvio ≠ nextKvio →
     biosMerged (kvios m' !!! nextKvio)
     = bl ++ biosMerged (kvios m !!! nextKvio) ∧
     (∀ p, p ≠ nextKvio → kvios m' !!! p = kvios m !!! p) ∧
     kvios m' !!! prevKvio = kvios m !!! prevKvio ∧
     ∃ hd tl, biosMerged (kvios m !!! nextKvio) = hd :: tl ∧
       evs = [Ev_intMapRemove q (getBioSector hd);
              Ev_intMapPut q (getBioSector (List.hd hd bl)) nextKvio puts.1;
              Ev_intMapPut q (getBioSector (List.last tl hd)) nextKvio puts.2] ∧
       ∀ key, key ≠ getBioSector (List.hd hd bl) →
              key ≠ getBioSector (List.last tl hd) →
              (map bqd' !! key = Some prevKvio ↔
               map bqd !! key = Some prevKvio)).
Proof.
  intros Hprev Hnext bl q.
  destruct (decide (prevKvio = nextKvio)) as [<- | Hne].
  - destruct (getMergeableLocked_nonempty _ _ _ _ _ Hprev) as (hd & tl & Hbl).
    eexists _, _, [Ev_intMapRemove q (getBioSector (List.last tl hd));
              Ev_intMapPut q (getBioSector hd) prevKvio puts.1;
              Ev_intMapPut q (getBioSector (List.last (tl ++ bl) hd))
                           prevKvio puts.2]. split.
    { apply (tryBioMapMerge_back puts bqd m kvio bio prevKvio hd tl); auto. }
    unfold mergedToTail.
    cbn [kvios trace set_map queue]. split_and!; [done | done | | done].
    intros _. rewrite lookup_total_insert_eq. cbn [set_biosMerged biosMerged].
    rewrite Hbl. split_and!; [done | | by eexists _, _].
    intros p Hp. by rewrite lookup_total_insert_ne.
  - destruct (getMergeableLocked_nonempty _ _ _ _ _ Hnext) as (hd & tl & Hbl).
    eexists _, _, [Ev_intMapRemove q (getBioSector hd);
              Ev_intMapPut q (getBioSector (List.hd hd bl)) nextKvio puts.1;
              Ev_intMapPut q (getBioSector (List.last tl hd)) nextKvio puts.2].
    split.
    { apply (tryBioMapMerge_front puts bqd m kvio bio nextKvio hd tl); auto.
      congruence. }
    unfold mergedToHead.
    cbn [kvios trace set_map queue map]. split_and!; [done | done | done |].
    intros _. rewrite lookup_total_insert_eq. cbn [set_biosMerged biosMerged].
    rewrite Hbl. split_and!; [done | | by rewrite lookup_total_insert_ne |].
    { intros p Hp. by rewrite lookup_total_insert_ne. }
    eexists _, _. split_and!; [done | done |].
    intros key Hk1 Hk2. unfold putResult.
    assert (Hfront : map bqd !! getBioSector hd = Some nextKvio).
    { pose proof (getMergeableLocked_lookup _ _ _ _ _ Hnext) as Hl.
      destruct (getMergeableLocked_spec (kvios m) (map bqd) kvio)
        as [_ Hf]. apply Hf in Hnext as (Hl' & _ & Hh).
      rewrite Hbl in Hh. simpl in Hh. congruence. }
    repeat case_decide; rewrite ?lookup_insert_ne by done;
      (destruct (decide (key = getBioSector hd)) as [-> | ?];
       [rewrite lookup_delete_eq, Hfront; naive_solver
       | by rewrite lookup_delete_ne]).
Qed.

Lemma sendBioList_eq m l :
  sendBioList m l = mkMem (kvios m) (trace m ++ (Ev_generic_make_request <$> l)).
Proof.
  revert m. induction l as [| b l IH]; intros m; simpl.
  - rewrite app_nil_r. by destruct m.
  - rewrite IH. unfold sendBioToDevice, add_events. simpl.
    by rewrite <- app_assoc.
Qed.

(** C7: when the work function runs for a data KVIO with a non-empty
    list, it takes the lock, removes the key of the sector of the head
    and the key of the sector of the tail of the list from the bio map
    (a key that is absent changes nothing), empties the list of the KVIO
    and drops the lock, and only then hands the bios of the list to the
    device, head first; after the call the KVIO no longer leads to the
    list. *)
Theorem processBioMap_detaches bqd m kvio hd tl :
  isData (kvios m !!! kvio) = true →
  biosMerged (kvios m !!! kvio) = hd :: tl →
  let q := queueNumber bqd in
  let head := getBioSector hd in
  let tail := getBioSector (List.last tl hd) in
  ∃ bqd' m1 m',
    detachBioList bqd m kvio = (bqd', m1, hd :: tl) ∧
    processBioMap bqd m kvio = (bqd', m') ∧
    m' = sendBioList m1 (hd :: tl) ∧
    queue bqd' = queue bqd ∧
    map bqd' !! head = None ∧ map bqd' !! tail = None ∧
    (∀ key, key ≠ head → key ≠ tail → map bqd' !! key = map bqd !! key) ∧
    (map bqd !! head = None → map bqd !! tail = None → map bqd' = map bqd) ∧
    biosMerged (kvios m1 !!! kvio) = [] ∧
    biosMerged (kvios m' !!! kvio) = [] ∧
    (∀ p, p ≠ kvio → kvios m' !!! p = kvios m !!! p) ∧
    trace m1 = trace m ++ [Ev_mutex_lock q;
                           Ev_intMapRemove q head; Ev_intMapRemove q tail;
                           Ev_bio_list_init kvio; Ev_mutex_unlock q] ∧
    trace m' = trace m1 ++ (Ev_generic_make_request <$> hd :: tl).
Proof.
  intros Hdata Hbl q head tail.
  eexists _, _, _. split.
  { unfold detachBioList. rewrite Hbl. reflexivity. }
  split.
  { unfold processBioMap, detachBioList. rewrite Hdata, Hbl. reflexivity. }
  rewrite sendBioList_eq.
  cbn [set_map queue map kvios trace add_events set_kvio intMapRemove].
  fold q head tail. unfold intMapRemove. split_and!; try done.
  - apply lookup_delete_None. right. apply lookup_delete_eq.
  - by rewrite lookup_delete_eq.
  - intros key H1 H2. by rewrite !lookup_delete_ne.
  - intros H1 H2. rewrite (delete_id _ head) by done. by rewrite delete_id.
  - by rewrite lookup_total_insert_eq.
  - by rewrite lookup_total_insert_eq.
  - intros p Hp. by rewrite lookup_total_insert_ne.
Qed.


Lemma routable_bioQueueDataForPBN s pbn :
  routable s →
  ∃ i bqd, bioQueueDataForPBN s pbn = Some (i, bqd) ∧
           bioQueueData s !! i = Some bqd.
Proof.
  intros (Hw & Hr & Hd & Hlen). unfold bioQueueDataForPBN.
  rewrite bioQueueNumberForPBN_defined by done. cbn [mbind option_bind].
  set (i := wrap32 _).
  assert (Hi : 0 ≤ i < numBioQueuesUsed s).
  { unfold i. rewrite wrap32_small.
    - apply residue_quotient_bound; [lia |].
      pose proof (wrap32_range (numBioQueuesUsed s * bioQueueRotationInterval s)).
      pose proof (wrap32_le (numBioQueuesUsed s * bioQueueRotationInterval s)).
      nia.
    - pose proof (residue_quotient_bound pbn
        (wrap32 (numBioQueuesUsed s * bioQueueRotationInterval s))
        (numBioQueuesUsed s) (bioQueueRotationInterval s)) as Hb.
      pose proof (wrap32_range (numBioQueuesUsed s * bioQueueRotationInterval s)).
      pose proof (wrap32_le (numBioQueuesUsed s * bioQueueRotationInterval s)).
      nia. }
  destruct (lookup_lt_is_Some_2 (bioQueueData s) (Z.to_nat i)) as [bqd Hbqd];
    [lia |].
  rewrite Hbqd. simpl. eauto.
Qed.

Lemma bioQueueDataForPBN_lookup s pbn i bqd :
  bioQueueDataForPBN s pbn = Some (i, bqd) → bioQueueData s !! i = Some bqd.
Proof.
  unfold bioQueueDataForPBN. intros H.
  destruct (bioQueueNumberForPBN s pbn) as [j |]; [| done]. simpl in H.
  destruct (bioQueueData s !! Z.to_nat j) eqn:E; simpl in H; by simplify_eq.
Qed.

(** [submitBio] on a data KVIO, by the cases of [tryBioMapMerge]. *)
Lemma submitBio_eq puts st bio action i bqd :
  let kvio := bi_private bio in
  let m0 := add_events [Ev_bio_list_init kvio]
              (set_kvio kvio (setupKVIO bio action (kvios (mem st) !!! kvio))
                        (mem st)) in
  bioQueueDataForPBN (ioSubmitter st) (physical (kvios (mem st) !!! kvio))
  = Some (i, bqd) →
  ∃ bqd' m' merged,
    submitBio B puts st bio action
    = Some (if (merged : bool)
            then mkState (set_bioQueueData i bqd' (ioSubmitter st)) m'
            else mkState (set_bioQueueData i (enqueueWorkQueue bqd' kvio)
                                           (ioSubmitter st))
                         (add_events [Ev_enqueue (queueNumber bqd') kvio] m')) ∧
    if isData (kvios (mem st) !!! kvio)
    then tryBioMapMerge B puts bqd m0 kvio bio = Some (bqd', m', merged) ∧
         tryBioMapMerge_case B puts bqd m0 kvio bio (bqd', m', merged)
    else (bqd', m', merged) = (bqd, m0, false).
Proof.
  intros kvio m0 Hroute. unfold submitBio. fold kvio. fold m0.
  assert (Hk : kvios m0 !!! kvio
               = setupKVIO bio action (kvios (mem st) !!! kvio))
    by apply kvios_set_kvio_eq.
  rewrite Hk. cbn [setupKVIO physical isData]. rewrite Hroute.
  cbn [mbind option_bind]. unfold USE_BIOMAP. cbn [andb].
  destruct (isData (kvios (mem st) !!! kvio)).
  - destruct (tryBioMapMerge_cases puts bqd m0 kvio bio)
      as ([[bqd' m'] merged] & Hres & Hcase).
    exists bqd', m', merged. rewrite Hres. cbn [mbind option_bind].
    split; [by destruct merged | done].
  - exists bqd, m0, false. done.
Qed.

Lemma set_bioQueueData_lookup_eq i bqd s :
  (i < length (bioQueueData s))%nat →
  bioQueueData (set_bioQueueData i bqd s) !! i = Some bqd.
Proof. intros H. unfold set_bioQueueData. simpl. by apply list_lookup_insert_eq. Qed.

Lemma set_bioQueueData_lookup_ne i j bqd s :
  i ≠ j →
  bioQueueData (set_bioQueueData i bqd s) !! j = bioQueueData s !! j.
Proof. intros H. unfold set_bioQueueData. simpl. by apply list_lookup_insert_ne. Qed.

(** In [sector_t] arithmetic a sector is not its own neighbour, unless
    the block size is a multiple of 2^64. *)
Lemma wrap64_neighbour s :
  wrap64 B ≠ 0 → wrap64 (s - B) ≠ s ∧ wrap64 (s + B) ≠ s.
Proof.
  unfold wrap64. intros HB. split; intros Heq; apply HB.
  - pose proof (Z.div_mod (s - B) (2 ^ 64) ltac:(lia)) as Hdm.
    replace B with (- ((s - B) / 2 ^ 64) * 2 ^ 64) by lia.
    apply Z.mod_mul. lia.
  - pose proof (Z.div_mod (s + B) (2 ^ 64) ltac:(lia)) as Hdm.
    replace B with ((s + B) / 2 ^ 64 * 2 ^ 64) by lia.
    apply Z.mod_mul. lia.
Qed.

(** A request whose list holds its own bio alone is no candidate for
    itself. *)
Lemma getMergeableLocked_other h (m : gmap Z kvio_ptr) kvio mergeType c :
  wrap64 B ≠ 0 →
  biosMerged (h !!! kvio) = [bioToSubmit (h !!! kvio)] →
  mergeType = ELEVATOR_BACK_MERGE ∨ mergeType = ELEVATOR_FRONT_MERGE →
  getMergeableLocked B h m kvio mergeType = Some c → c ≠ kvio.
Proof.
  intros HB Hown Htype Hc ->.
  destruct (wrap64_neighbour (getBioSector (bioToSubmit (h !!! kvio))) HB)
    as [Hback Hfront].
  destruct (getMergeableLocked_spec h m kvio) as [Hb Hf].
  destruct Htype as [-> | ->].
  - apply Hb in Hc as (_ & _ & Ht). rewrite Hown in Ht. simpl in Ht.
    by simplify_eq.
  - apply Hf in Hc as (_ & _ & Hh). rewrite Hown in Hh. simpl in Hh.
    by simplify_eq.
Qed.

(** C8: on a submitter whose routing is defined, [submitBio] always runs
    to its end, and ends in exactly one of two ways.  Either the bio has
    joined the list of a KVIO found in the bio map, at one of its ends,
    and nothing was queued: no work queue has changed and there was no
    call of [enqueueKVIOWork].  Or the KVIO of the bio was queued on the
    chosen bio queue by one such call, with the bio alone in its list,
    and the bio has joined no list: every other KVIO is as it was.  It
    returns nothing.  When the KVIO is a data KVIO and neither lookup
    yields a candidate, [tryBioMapMerge] reports that it did not merge,
    whatever the result of [intMapPut]: the map has the KVIO under the
    sector of the bio if the insertion succeeded and is as before if it
    failed, and the KVIO is queued.  The block size is not a multiple of
    2^64 sectors. *)
Theorem submitBio_merges_or_queues puts st bio action :
  routable (ioSubmitter st) →
  wrap64 B ≠ 0 →
  let kvio := bi_private bio in
  let m0 := add_events [Ev_bio_list_init kvio]
              (set_kvio kvio (setupKVIO bio action (kvios (mem st) !!! kvio))
                        (mem st)) in
  ∃ st' i bqd,
    submitBio B puts st bio action = Some st' ∧
    bioQueueDataForPBN (ioSubmitter st) (physical (kvios (mem st) !!! kvio))
    = Some (i, bqd) ∧
    (∀ j, j ≠ i → bioQueueData (ioSubmitter st') !! j
                  = bioQueueData (ioSubmitter st) !! j) ∧
    (absorbed st st' i bio ∨ enqueued st st' i bio) ∧
    ¬ (absorbed st st' i bio ∧ enqueued st st' i bio) ∧
    (isData (kvios (mem st) !!! kvio) = true →
     getMergeableLocked B (kvios m0) (map bqd) kvio ELEVATOR_BACK_MERGE = None →
     getMergeableLocked B (kvios m0) (map bqd) kvio ELEVATOR_FRONT_MERGE = None →
     (∃ bqd1 m1,
        tryBioMapMerge B puts bqd m0 kvio bio = Some (bqd1, m1, false)) ∧
     enqueued st st' i bio ∧
     ∃ bqd', bioQueueData (ioSubmitter st') !! i = Some bqd' ∧
       map bqd' = (if decide (puts.1 = VDO_SUCCESS)
                   then <[getBioSector bio := kvio]> (map bqd)
                   else map bqd) ∧
       trace (mem st')
       = trace (mem st)
         ++ [Ev_bio_list_init kvio;
             Ev_mutex_lock (queueNumber bqd);
             Ev_intMapPut (queueNumber bqd) (getBioSector bio) kvio puts.1;
             Ev_mutex_unlock (queueNumber bqd);
             Ev_enqueue (queueNumber bqd) kvio]).
Proof.
  intros Hroutable HB kvio m0.
  destruct (routable_bioQueueDataForPBN (ioSubmitter st)
              (physical (kvios (mem st) !!! kvio)) Hroutable)
    as (i & bqd & Hroute & Hi).
  destruct (submitBio_eq puts st bio action i bqd Hroute)
    as (bqd' & m' & merged & Hsub & Hcase).
  fold kvio in Hsub, Hcase. fold m0 in Hcase.
  assert (Hlen : (i < length (bioQueueData (ioSubmitter st)))%nat)
    by (by eapply lookup_lt_Some).
  assert (Hexcl : ∀ st', ¬ (absorbed st st' i bio ∧ enqueued st st' i bio)).
  { intros st' [(b1 & b1' & ? & ? & ? & ? & ? & H1 & H1' & Hq1 & _)
                (b2 & b2' & ? & H2 & H2' & Hq2 & _)].
    simplify_eq. rewrite Hq1 in Hq2.
    apply (f_equal length) in Hq2. rewrite length_app in Hq2. simpl in Hq2. lia. }
  assert (Hk0 : kvios m0 !!! kvio
                = setupKVIO bio action (kvios (mem st) !!! kvio))
    by apply kvios_set_kvio_eq.
  assert (Hown : biosMerged (kvios m0 !!! kvio) = [bio]) by (by rewrite Hk0).
  assert (Hself : biosMerged (kvios m0 !!! kvio)
                  = [bioToSubmit (kvios m0 !!! kvio)]) by (by rewrite Hk0).
  assert (Hother : ∀ p, p ≠ kvio → kvios m0 !!! p = kvios (mem st) !!! p).
  { intros p Hp. apply (kvios_set_kvio_ne kvio p); done. }
  assert (Htr : trace m0 = trace (mem st) ++ [Ev_bio_list_init kvio]) by done.
  clearbody m0.
  eexists _, i, bqd. split; [exact Hsub |]. split; [exact Hroute |].
  assert (Henq : ∀ mp evs,
            bqd' = set_map mp bqd → m' = mkMem (kvios m0) (trace m0 ++ evs) →
            (∀ q p, Ev_enqueue q p ∉ evs) →
            merged = false →
            enqueued st
              (mkState (set_bioQueueData i (enqueueWorkQueue bqd' kvio)
                                         (ioSubmitter st))
                       (add_events [Ev_enqueue (queueNumber bqd') kvio] m'))
              i bio).
  { intros mp evs -> -> Hevs _.
    exists bqd, (enqueueWorkQueue (set_map mp bqd) kvio),
           (Ev_bio_list_init kvio :: evs).
    cbn [ioSubmitter mem add_events kvios trace].
    rewrite set_bioQueueData_lookup_eq by done.
    split_and!; [done | done | done | exact Hown | exact Hother | |].
    - rewrite Htr. cbn [set_map queueNumber]. by rewrite <- !app_assoc.
    - intros q p Hin. apply elem_of_cons in Hin as [Hin | Hin]; [done |].
      by apply (Hevs q p). }
  assert (Habs : ∀ target hd tl mp key evs (atTail : bool),
            bqd' = set_map mp bqd →
            m' = mkMem (<[target := set_biosMerged
                                      (if atTail then (hd :: tl) ++ [bio]
                                       else bio :: hd :: tl)
                                      (kvios m0 !!! target)]> (kvios m0))
                       (trace m0 ++ evs) →
            (∀ q p, Ev_enqueue q p ∉ evs) →
            map bqd !! key = Some target → target ≠ kvio →
            biosMerged (kvios m0 !!! target) = hd :: tl →
            absorbed st (mkState (set_bioQueueData i bqd' (ioSubmitter st)) m')
                     i bio).
  { intros target hd tl mp key evs atTail -> -> Hevs Hkey Hne Hbl.
    exists bqd, (set_map mp bqd), key, target, hd, tl,
           (Ev_bio_list_init kvio :: evs).
    cbn [ioSubmitter mem kvios trace].
    rewrite set_bioQueueData_lookup_eq by done.
    rewrite lookup_total_insert_eq. rewrite (Hother target Hne) in Hbl |- *.
    split_and!; [done | done | done | done | done | done | | | |].
    - destruct atTail; [by left | by right].
    - intros p Hp1 Hp2. rewrite lookup_total_insert_ne by done.
      by apply Hother.
    - rewrite Htr. by rewrite <- !app_assoc.
    - intros q p Hin. apply elem_of_cons in Hin as [Hin | Hin]; [done |].
      by apply (Hevs q p). }
  split.
  { intros j Hj. destruct merged; cbn [ioSubmitter];
      by rewrite set_bioQueueData_lookup_ne. }
  destruct (isData (kvios (mem st) !!! kvio)) eqn:Hdata.
  - destruct Hcase as [Hres Hcase].
    inversion Hcase as [Hprev Hnext | p hd tl Hprev Hbl | n hd tl Hnext Hbl];
      subst.
    + (* not merged *)
      assert (Hnone : enqueued st
                (mkState (set_bioQueueData i
                            (enqueueWorkQueue (notMerged puts bqd m0 kvio bio).1
                                              kvio) (ioSubmitter st))
                         (add_events
                            [Ev_enqueue
                               (queueNumber (notMerged puts bqd m0 kvio bio).1)
                               kvio]
                            (notMerged puts bqd m0 kvio bio).2)) i bio).
      { eapply (Henq _ [Ev_mutex_lock (queueNumber bqd);
                        Ev_intMapPut (queueNumber bqd) (getBioSector bio) kvio
                                     puts.1;
                        Ev_mutex_unlock (queueNumber bqd)]);
          [unfold notMerged; done | unfold notMerged; done | | done].
        intros q p Hin. set_solver. }
      split_and!; [by right | apply Hexcl |].
      intros _ _ _. split; [by eexists _, _ |]. split; [exact Hnone |].
      eexists. cbn [ioSubmitter mem].
      rewrite set_bioQueueData_lookup_eq by done.
      split; [done |]. unfold notMerged, putResult, add_events.
      cbn [fst snd map enqueueWorkQueue set_map kvios trace queueNumber].
      split; [done |]. rewrite Htr. by rewrite <- !app_assoc.
    + (* merged to the tail of [p] *)
      assert (Hne : p ≠ kvio).
      { eapply (getMergeableLocked_other (kvios m0)); [done | | by left | done].
        done. }
      split_and!; [left | apply Hexcl |].
      { eapply (Habs p hd tl _
                     (mergeSectorFor B
                        (getBioSector (bioToSubmit (kvios m0 !!! kvio)))
                        ELEVATOR_BACK_MERGE)
                     [Ev_mutex_lock (queueNumber bqd);
                      Ev_intMapRemove (queueNumber bqd)
                                      (getBioSector (List.last tl hd));
                      Ev_intMapPut (queueNumber bqd) (getBioSector hd) p puts.1;
                      Ev_intMapPut (queueNumber bqd)
                        (getBioSector (List.last (tl ++ [bio]) hd)) p puts.2;
                      Ev_mutex_unlock (queueNumber bqd)] true);
          [unfold mergedToTail; done | | | | done | done].
        - unfold mergedToTail. cbn [snd]. rewrite Hown. done.
        - intros q p' Hin. set_solver.
        - by apply getMergeableLocked_lookup. }
      intros _ Hprev' _. congruence.
    + (* merged to the head of [n] *)
      assert (Hne : n ≠ kvio).
      { eapply (getMergeableLocked_other (kvios m0)); [done | | by right | done].
        done. }
      split_and!; [left | apply Hexcl |].
      { eapply (Habs n hd tl _
                     (mergeSectorFor B
                        (getBioSector (bioToSubmit (kvios m0 !!! kvio)))
                        ELEVATOR_FRONT_MERGE)
                     [Ev_mutex_lock (queueNumber bqd);
                      Ev_intMapRemove (queueNumber bqd) (getBioSector hd);
                      Ev_intMapPut (queueNumber bqd)
                        (getBioSector (List.hd hd [bio])) n puts.1;
                      Ev_intMapPut (queueNumber bqd)
                        (getBioSector (List.last tl hd)) n puts.2;
                      Ev_mutex_unlock (queueNumber bqd)] false);
          [unfold mergedToHead; done | | | | done | done].
        - unfold mergedToHead. cbn [snd]. rewrite Hown. done.
        - intros q p' Hin. set_solver.
        - by apply getMergeableLocked_lookup. }
      intros _ _ Hnext'. congruence.
  - simplify_eq. split_and!; [right | apply Hexcl | done].
    eapply (Henq (map bqd) []); [by destruct bqd | | | done].
    + rewrite app_nil_r. by destruct m0.
    + intros q p Hin. by apply elem_of_nil in Hin.
Qed.


Lemma getMergeableLocked_absent h (m : gmap Z kvio_ptr) kvio mergeType :
  m !! mergeSectorFor B (getBioSector (bioToSubmit (h !!! kvio))) mergeType
  = None →
  getMergeableLocked B h m kvio mergeType = None.
Proof. intros H. unfold getMergeableLocked, intMapGet. by rewrite H. Qed.

Lemma bioQueueDataForPBN_at s pbn (i : nat) bqd :
  bioQueueNumberForPBN s pbn = Some (Z.of_nat i) →
  bioQueueData s !! i = Some bqd →
  bioQueueDataForPBN s pbn = Some (i, bqd).
Proof.
  intros Hn Hi. unfold bioQueueDataForPBN. rewrite Hn. simpl.
  rewrite Nat2Z.id, Hi. done.
Qed.

(** [submitBio] for a data KVIO, given the result of [tryBioMapMerge]. *)
Lemma submitBio_data puts st bio action i bqd res merged :
  let kvio := bi_private bio in
  let m0 := add_events [Ev_bio_list_init kvio]
              (set_kvio kvio (setupKVIO bio action (kvios (mem st) !!! kvio))
                        (mem st)) in
  bioQueueDataForPBN (ioSubmitter st) (physical (kvios (mem st) !!! kvio))
  = Some (i, bqd) →
  isData (kvios (mem st) !!! kvio) = true →
  tryBioMapMerge B puts bqd m0 kvio bio = Some (res, merged) →
  submitBio B puts st bio action
  = Some (if (merged : bool)
          then mkState (set_bioQueueData i res.1 (ioSubmitter st)) res.2
          else mkState (set_bioQueueData i (enqueueWorkQueue res.1 kvio)
                                         (ioSubmitter st))
                       (add_events [Ev_enqueue (queueNumber res.1) kvio]
                                   res.2)).
Proof.
  intros kvio m0 Hroute Hdata Hres. unfold submitBio. fold kvio. fold m0.
  assert (Hk : kvios m0 !!! kvio
               = setupKVIO bio action (kvios (mem st) !!! kvio))
    by apply kvios_set_kvio_eq.
  rewrite Hk. cbn [setupKVIO physical isData]. rewrite Hroute, Hdata.
  cbn [mbind option_bind andb USE_BIOMAP]. rewrite Hres.
  destruct res as [bqd' m']. cbn [mbind option_bind fst snd].
  by destruct merged.
Qed.

(** [runWorkItem] for a queued data KVIO with a non-empty list. *)
Lemma dequeueItem_app_last item q :
  item ∉ q → dequeueItem item (q ++ [item]) = Some q.
Proof.
  induction q as [| x q IH]; intros Hnot; simpl.
  - by rewrite decide_True.
  - rewrite decide_False by set_solver. rewrite IH by set_solver. done.
Qed.

Lemma dequeueItem_elem_of item q :
  item ∈ q → ∃ rest, dequeueItem item q = Some rest.
Proof.
  induction q as [| x q IH]; intros Hin; [set_solver |]. simpl.
  case_decide; [eauto |].
  destruct IH as [rest ->]; [set_solver |]. simpl. eauto.
Qed.


(** *** [submitBio] case by case, for a data KVIO *)

Lemma submitBio_no_candidate puts st bio action (i : nat) bqd :
  let kvio := bi_private bio in
  let k := kvios (mem st) !!! kvio in
  let q := queueNumber bqd in
  bioQueueNumberForPBN (ioSubmitter st) (physical k) = Some (Z.of_nat i) →
  bioQueueData (ioSubmitter st) !! i = Some bqd →
  isData k = true →
  map bqd !! wrap64 (getBioSector bio - B) = None →
  map bqd !! wrap64 (getBioSector bio + B) = None →
  submitBio B puts st bio action
  = Some (mkState
            (set_bioQueueData i
               (mkBioQueueData (queue bqd ++ [kvio])
                  (putResult puts.1 (getBioSector bio) kvio (map bqd)) q)
               (ioSubmitter st))
            (mkMem (<[kvio := setupKVIO bio action k]> (kvios (mem st)))
                   (trace (mem st)
                    ++ [Ev_bio_list_init kvio; Ev_mutex_lock q;
                        Ev_intMapPut q (getBioSector bio) kvio puts.1;
                        Ev_mutex_unlock q; Ev_enqueue q kvio]))).
Proof.
  intros kvio k q Hroute Hbqd Hdata Hback Hfront.
  set (m0 := add_events [Ev_bio_list_init kvio]
               (set_kvio kvio (setupKVIO bio action k) (mem st))).
  assert (Hk : kvios m0 !!! kvio = setupKVIO bio action k)
    by apply kvios_set_kvio_eq.
  rewrite (submitBio_data puts st bio action i bqd
             (notMerged puts bqd m0 kvio bio) false).
  - unfold notMerged, add_events, enqueueWorkQueue.
    cbn [fst snd queue map queueNumber set_map kvios trace m0 set_kvio
         add_events].
    by rewrite <- !app_assoc.
  - by apply bioQueueDataForPBN_at.
  - done.
  - apply tryBioMapMerge_none; apply getMergeableLocked_absent;
      fold m0; rewrite Hk; cbn [setupKVIO bioToSubmit];
      by rewrite ?mergeSectorFor_back, ?mergeSectorFor_front.
Qed.

Lemma submitBio_front_candidate puts st bio act (i : nat) bqd
    nextKvio hd tl :
  let kvio := bi_private bio in
  let k := kvios (mem st) !!! kvio in
  let kn := kvios (mem st) !!! nextKvio in
  let q := queueNumber bqd in
  bioQueueNumberForPBN (ioSubmitter st) (physical k) = Some (Z.of_nat i) →
  bioQueueData (ioSubmitter st) !! i = Some bqd →
  isData k = true →
  nextKvio ≠ kvio →
  map bqd !! wrap64 (getBioSector bio - B) = None →
  map bqd !! wrap64 (getBioSector bio + B) = Some nextKvio →
  action (workItem kn) = act →
  bio_data_dir (bioToSubmit kn) = bio_data_dir bio →
  biosMerged kn = hd :: tl →
  getBioSector hd = wrap64 (getBioSector bio + B) →
  submitBio B puts st bio act
  = Some (mkState
            (set_bioQueueData i
               (set_map
                  (putResult puts.2 (getBioSector (List.last tl hd)) nextKvio
                     (putResult puts.1 (getBioSector bio) nextKvio
                        (delete (getBioSector hd) (map bqd)))) bqd)
               (ioSubmitter st))
            (mkMem (<[nextKvio := set_biosMerged (bio :: hd :: tl) kn]>
                      (<[kvio := setupKVIO bio act k]> (kvios (mem st))))
                   (trace (mem st)
                    ++ [Ev_bio_list_init kvio; Ev_mutex_lock q;
                        Ev_intMapRemove q (getBioSector hd);
                        Ev_intMapPut q (getBioSector bio) nextKvio puts.1;
                        Ev_intMapPut q (getBioSector (List.last tl hd))
                                     nextKvio puts.2;
                        Ev_mutex_unlock q]))).
Proof.
  intros kvio k kn q Hroute Hbqd Hdata Hne Hback Hfront Hact Hdir Hbl Hhd.
  set (m0 := add_events [Ev_bio_list_init kvio]
               (set_kvio kvio (setupKVIO bio act k) (mem st))).
  assert (Hk : kvios m0 !!! kvio = setupKVIO bio act k)
    by apply kvios_set_kvio_eq.
  assert (Hn : kvios m0 !!! nextKvio = kn)
    by (by apply kvios_set_kvio_ne).
  assert (Hprev : getMergeableLocked B (kvios m0) (map bqd) kvio
                                     ELEVATOR_BACK_MERGE = None).
  { apply getMergeableLocked_absent. rewrite Hk. cbn [setupKVIO bioToSubmit].
    by rewrite mergeSectorFor_back. }
  assert (Hnext : getMergeableLocked B (kvios m0) (map bqd) kvio
                                     ELEVATOR_FRONT_MERGE = Some nextKvio).
  { apply (getMergeableLocked_spec (kvios m0) (map bqd) kvio).
    rewrite Hk, Hn. cbn [setupKVIO bioToSubmit workItem action].
    rewrite Hbl. cbn [bio_list_head head fmap option_fmap option_map].
    rewrite Hhd. done. }
  rewrite (submitBio_data puts st bio act i bqd
             (mergedToHead puts bqd m0 kvio nextKvio hd tl) true).
  - unfold mergedToHead. rewrite Hk, Hn.
    cbn [fst snd setupKVIO biosMerged bio_list_add bio_list_init app List.hd
         kvios trace m0 set_kvio add_events]. by rewrite <- !app_assoc.
  - by apply bioQueueDataForPBN_at.
  - done.
  - apply tryBioMapMerge_front; [done | | by rewrite Hn].
    rewrite Hprev. done.
Qed.

Lemma submitBio_back_candidate puts st bio act (i : nat) bqd
    prevKvio hd tl :
  let kvio := bi_private bio in
  let k := kvios (mem st) !!! kvio in
  let kp := kvios (mem st) !!! prevKvio in
  let q := queueNumber bqd in
  bioQueueNumberForPBN (ioSubmitter st) (physical k) = Some (Z.of_nat i) →
  bioQueueData (ioSubmitter st) !! i = Some bqd →
  isData k = true →
  prevKvio ≠ kvio →
  map bqd !! wrap64 (getBioSector bio - B) = Some prevKvio →
  map bqd !! wrap64 (getBioSector bio + B) = None →
  action (workItem kp) = act →
  bio_data_dir (bioToSubmit kp) = bio_data_dir bio →
  biosMerged kp = hd :: tl →
  getBioSector (List.last tl hd) = wrap64 (getBioSector bio - B) →
  submitBio B puts st bio act
  = Some (mkState
            (set_bioQueueData i
               (set_map
                  (putResult puts.2 (getBioSector bio) prevKvio
                     (putResult puts.1 (getBioSector hd) prevKvio
                        (delete (getBioSector (List.last tl hd)) (map bqd))))
                  bqd)
               (ioSubmitter st))
            (mkMem (<[prevKvio := set_biosMerged ((hd :: tl) ++ [bio]) kp]>
                      (<[kvio := setupKVIO bio act k]> (kvios (mem st))))
                   (trace (mem st)
                    ++ [Ev_bio_list_init kvio; Ev_mutex_lock q;
                        Ev_intMapRemove q (getBioSector (List.last tl hd));
                        Ev_intMapPut q (getBioSector hd) prevKvio puts.1;
                        Ev_intMapPut q (getBioSector bio) prevKvio puts.2;
                        Ev_mutex_unlock q]))).
Proof.
  intros kvio k kp q Hroute Hbqd Hdata Hne Hback Hfront Hact Hdir Hbl Htl.
  set (m0 := add_events [Ev_bio_list_init kvio]
               (set_kvio kvio (setupKVIO bio act k) (mem st))).
  assert (Hk : kvios m0 !!! kvio = setupKVIO bio act k)
    by apply kvios_set_kvio_eq.
  assert (Hp : kvios m0 !!! prevKvio = kp)
    by (by apply kvios_set_kvio_ne).
  assert (Hnext : getMergeableLocked B (kvios m0) (map bqd) kvio
                                     ELEVATOR_FRONT_MERGE = None).
  { apply getMergeableLocked_absent. rewrite Hk. cbn [setupKVIO bioToSubmit].
    by rewrite mergeSectorFor_front. }
  assert (Hprev : getMergeableLocked B (kvios m0) (map bqd) kvio
                                     ELEVATOR_BACK_MERGE = Some prevKvio).
  { apply (getMergeableLocked_spec (kvios m0) (map bqd) kvio).
    rewrite Hk, Hp. cbn [setupKVIO bioToSubmit workItem action].
    rewrite Hbl, bio_list_tail_cons.
    cbn [fmap option_fmap option_map]. rewrite Htl. done. }
  rewrite (submitBio_data puts st bio act i bqd
             (mergedToTail puts bqd m0 kvio prevKvio hd tl) true).
  - unfold mergedToTail. rewrite Hk, Hp.
    cbn [fst snd setupKVIO biosMerged bio_list_add bio_list_init app
         kvios trace m0 set_kvio add_events].
    rewrite last_app_singleton. by rewrite <- !app_assoc.
  - by apply bioQueueDataForPBN_at.
  - done.
  - apply tryBioMapMerge_back; [done | by left | by rewrite Hp].
Qed.

(** [runWorkItem] for a queued data KVIO with a non-empty list. *)
Lemma runWorkItem_data (i : nat) item st bqd rest hd tl :
  bioQueueData (ioSubmitter st) !! i = Some bqd →
  dequeueItem item (queue bqd) = Some rest →
  isData (kvios (mem st) !!! item) = true →
  biosMerged (kvios (mem st) !!! item) = hd :: tl →
  let q := queueNumber bqd in
  let head := getBioSector hd in
  let tail := getBioSector (List.last tl hd) in
  runWorkItem i item st
  = Some (mkState
            (set_bioQueueData i
               (mkBioQueueData rest (delete tail (delete head (map bqd))) q)
               (ioSubmitter st))
            (mkMem (<[item := set_biosMerged [] (kvios (mem st) !!! item)]>
                      (kvios (mem st)))
                   (trace (mem st)
                    ++ [Ev_mutex_lock q; Ev_intMapRemove q head;
                        Ev_intMapRemove q tail; Ev_bio_list_init item;
                        Ev_mutex_unlock q]
                    ++ (Ev_generic_make_request <$> hd :: tl)))).
Proof.
  intros Hbqd Hdeq Hdata Hbl q head tail. unfold runWorkItem.
  rewrite Hbqd. cbn [mbind option_bind]. rewrite Hdeq.
  cbn [mbind option_bind]. unfold processBioMap, detachBioList.
  rewrite Hdata, Hbl. cbn [USE_BIOMAP andb]. rewrite sendBioList_eq.
  unfold add_events, set_kvio, set_map, intMapRemove, bio_list_init.
  cbn [queue map queueNumber kvios trace]. fold q head tail.
  by rewrite <- !app_assoc.
Qed.


Lemma set_bioQueueData_length i bqd s :
  length (bioQueueData (set_bioQueueData i bqd s)) = length (bioQueueData s).
Proof. unfold set_bioQueueData. simpl. apply length_insert. Qed.

Lemma bioQueueNumberForPBN_set_bioQueueData i bqd s pbn :
  bioQueueNumberForPBN (set_bioQueueData i bqd s) pbn
  = bioQueueNumberForPBN s pbn.
Proof. reflexivity. Qed.

(** C1: three data requests of one direction and one action at the
    consecutive sectors [S], [S + B] and [S + 2 B], routed to one bio
    queue whose map has nothing at the sectors around them, submitted in
    the order middle, first, last with every map insertion succeeding and
    nothing processed in between, form one list on the KVIO of the middle
    request, which alone is queued; when its work item runs, the bios
    handed to the device are first, middle, last in this order, and the
    bio map then has no entry at any of the three sectors. *)
Theorem adjacent_requests_leave_in_sector_order
    (st : State) (first middle last : BIO) (act : BioQAction)
    (S : Z) (i : nat) (bqd : BioQueueData) :
  let ok := (VDO_SUCCESS, VDO_SUCCESS) in
  let q := queueNumber bqd in
  0 < B → 4 * B ≤ 2 ^ 64 → 0 ≤ S → S + 2 * B < 2 ^ 64 →
  getBioSector first = S → getBioSector middle = S + B →
  getBioSector last = S + 2 * B →
  bio_data_dir first = bio_data_dir middle →
  bio_data_dir last = bio_data_dir middle →
  bi_private first ≠ bi_private middle →
  bi_private last ≠ bi_private middle →
  bi_private first ≠ bi_private last →
  (∀ bio, bio ∈ [first; middle; last] →
     isData (kvios (mem st) !!! bi_private bio) = true ∧
     bioQueueNumberForPBN (ioSubmitter st)
                          (physical (kvios (mem st) !!! bi_private bio))
     = Some (Z.of_nat i)) →
  bioQueueData (ioSubmitter st) !! i = Some bqd →
  bi_private middle ∉ queue bqd →
  (∀ key, key ∈ [wrap64 (S - B); S; S + 2 * B; wrap64 (S + 3 * B)] →
          map bqd !! key = None) →
  ∃ st1 st2 st3 st4 bqd3 bqd4,
    submitBio B ok st middle act = Some st1 ∧
    submitBio B ok st1 first act = Some st2 ∧
    submitBio B ok st2 last act = Some st3 ∧
    runWorkItem i (bi_private middle) st3 = Some st4 ∧
    bioQueueData (ioSubmitter st3) !! i = Some bqd3 ∧
    queue bqd3 = queue bqd ++ [bi_private middle] ∧
    biosMerged (kvios (mem st3) !!! bi_private middle)
    = [first; middle; last] ∧
    requestsOf (trace (mem st3)) = requestsOf (trace (mem st)) ∧
    requestsOf (trace (mem st4))
    = requestsOf (trace (mem st)) ++ [first; middle; last] ∧
    trace (mem st4)
    = trace (mem st3)
      ++ [Ev_mutex_lock q; Ev_intMapRemove q S; Ev_intMapRemove q (S + 2 * B);
          Ev_bio_list_init (bi_private middle); Ev_mutex_unlock q;
          Ev_generic_make_request first; Ev_generic_make_request middle;
          Ev_generic_make_request last] ∧
    bioQueueData (ioSubmitter st4) !! i = Some bqd4 ∧
    queue bqd4 = queue bqd ∧
    map bqd4 !! S = None ∧ map bqd4 !! (S + B) = None ∧
    map bqd4 !! (S + 2 * B) = None.
Proof.
  intros ok q HB HB4 HS HS2 HsF HsM HsL HdF HdL HneFM HneLM HneFL
         Hreq Hbqd HnotQ Hfree.
  destruct (Hreq first) as [HdataF HrouteF]; [set_solver |].
  destruct (Hreq middle) as [HdataM HrouteM]; [set_solver |].
  destruct (Hreq last) as [HdataL HrouteL]; [set_solver |].
  pose proof (Hfree (wrap64 (S - B)) ltac:(set_solver)) as Hf1.
  pose proof (Hfree S ltac:(set_solver)) as Hf2.
  pose proof (Hfree (S + 2 * B) ltac:(set_solver)) as Hf3.
  pose proof (Hfree (wrap64 (S + 3 * B)) ltac:(set_solver)) as Hf4.
  clear Hreq Hfree.
  set (pF := bi_private first) in *.
  set (pM := bi_private middle) in *.
  set (pL := bi_private last) in *.
  assert (Hlen : (i < length (bioQueueData (ioSubmitter st)))%nat)
    by (by eapply lookup_lt_Some).
  (* sector arithmetic *)
  assert (Hw1 : wrap64 (S + B - B) = S)
    by (unfold wrap64; rewrite Z.mod_small; lia).
  assert (Hw2 : wrap64 (S + B + B) = S + 2 * B)
    by (unfold wrap64; rewrite Z.mod_small; lia).
  assert (Hw3 : wrap64 (S + B) = S + B)
    by (unfold wrap64; rewrite Z.mod_small; lia).
  assert (Hw4 : wrap64 (S + 2 * B - B) = S + B)
    by (unfold wrap64; rewrite Z.mod_small; lia).
  assert (Hw5 : wrap64 (S + 2 * B + B) = wrap64 (S + 3 * B))
    by (f_equal; lia).
  assert (Hlo : wrap64 (S - B) ≠ S ∧ wrap64 (S - B) ≠ S + B).
  { unfold wrap64. destruct (decide (B ≤ S)).
    - rewrite Z.mod_small by lia. lia.
    - replace (S - B) with (S - B + 2 ^ 64 + (-1) * 2 ^ 64) by lia.
      rewrite Z.mod_add by lia. rewrite Z.mod_small by lia. lia. }
  assert (Hhi : wrap64 (S + 3 * B) ≠ S ∧ wrap64 (S + 3 * B) ≠ S + B).
  { unfold wrap64. destruct (decide (S + 3 * B < 2 ^ 64)).
    - rewrite Z.mod_small by lia. lia.
    - replace (S + 3 * B) with (S + 3 * B - 2 ^ 64 + 1 * 2 ^ 64) by lia.
      rewrite Z.mod_add by lia. rewrite Z.mod_small by lia. lia. }
  destruct Hlo as [Hlo1 Hlo2]. destruct Hhi as [Hhi1 Hhi2].
  (* the middle request is put into the map and queued *)
  pose proof (submitBio_no_candidate ok st middle act i bqd) as Hsub1.
  cbv zeta in Hsub1. fold pM q in Hsub1. rewrite HsM, Hw1, Hw2 in Hsub1.
  specialize (Hsub1 HrouteM Hbqd HdataM Hf2 Hf3).
  unfold putResult in Hsub1. cbn [ok fst] in Hsub1.
  rewrite decide_True in Hsub1 by done.
  set (kM := setupKVIO middle act (kvios (mem st) !!! pM)) in *.
  set (b1 := mkBioQueueData (queue bqd ++ [pM])
                            (<[S + B := pM]> (map bqd)) q) in *.
  set (st1 := mkState _ _) in Hsub1.
  assert (Hlen1 : (i < length (bioQueueData (ioSubmitter st1)))%nat)
    by (unfold st1; cbn [ioSubmitter]; by rewrite set_bioQueueData_length).
  (* the first request goes to the head of the list of the middle one *)
  pose proof (submitBio_front_candidate ok st1 first act i b1 pM middle [])
    as Hsub2.
  cbv zeta in Hsub2. fold pF in Hsub2. rewrite HsF in Hsub2.
  assert (HF1 : kvios (mem st1) !!! pF = kvios (mem st) !!! pF)
    by (unfold st1; cbn [mem kvios]; by rewrite lookup_total_insert_ne).
  assert (HM1 : kvios (mem st1) !!! pM = kM)
    by (unfold st1; cbn [mem kvios]; by rewrite lookup_total_insert_eq).
  rewrite HF1, HM1 in Hsub2.
  unfold st1 at 1 2 in Hsub2. cbn [ioSubmitter] in Hsub2.
  rewrite bioQueueNumberForPBN_set_bioQueueData in Hsub2.
  rewrite set_bioQueueData_lookup_eq in Hsub2 by done.
  specialize (Hsub2 HrouteF eq_refl HdataF ltac:(done)).
  cbn [b1 map queueNumber] in Hsub2. rewrite Hw3 in Hsub2.
  rewrite lookup_insert_ne, lookup_insert_eq in Hsub2 by done.
  specialize (Hsub2 Hf1 eq_refl eq_refl (eq_sym HdF) eq_refl HsM).
  unfold putResult in Hsub2. cbn [ok fst snd List.last] in Hsub2.
  rewrite !decide_True in Hsub2 by done. rewrite HsM in Hsub2.
  rewrite delete_insert_eq in Hsub2.
  set (b2 := set_map _ _) in Hsub2.
  set (st2 := mkState _ _) in Hsub2.
  assert (Hlen2 : (i < length (bioQueueData (ioSubmitter st2)))%nat)
    by (unfold st2; cbn [ioSubmitter]; by rewrite set_bioQueueData_length).
  (* the last request goes to the tail of that list *)
  pose proof (submitBio_back_candidate ok st2 last act i b2 pM first [middle])
    as Hsub3.
  cbv zeta in Hsub3. fold pL in Hsub3. rewrite HsL in Hsub3.
  assert (HL2 : kvios (mem st2) !!! pL = kvios (mem st) !!! pL).
  { unfold st2. cbn [mem kvios].
    rewrite !lookup_total_insert_ne by done. unfold st1. cbn [mem kvios].
    by rewrite lookup_total_insert_ne. }
  assert (HM2 : kvios (mem st2) !!! pM = set_biosMerged [first; middle] kM)
    by (unfold st2; cbn [mem kvios]; by rewrite lookup_total_insert_eq).
  rewrite HL2, HM2 in Hsub3.
  unfold st2 at 1 2 in Hsub3. cbn [ioSubmitter] in Hsub3.
  rewrite !bioQueueNumberForPBN_set_bioQueueData in Hsub3.
  rewrite set_bioQueueData_lookup_eq in Hsub3 by done.
  specialize (Hsub3 HrouteL eq_refl HdataL ltac:(done)).
  cbn [b2 b1 set_map map queueNumber] in Hsub3. rewrite Hw4, Hw5 in Hsub3.
  rewrite lookup_insert_eq in Hsub3.
  rewrite !lookup_insert_ne in Hsub3 by done.
  rewrite lookup_delete_ne in Hsub3 by done.
  specialize (Hsub3 eq_refl Hf4 eq_refl (eq_sym HdL) eq_refl HsM).
  unfold putResult in Hsub3. cbn [ok fst snd List.last] in Hsub3.
  rewrite !decide_True in Hsub3 by done. rewrite HsM, HsF in Hsub3.
  set (b3 := set_map _ _) in Hsub3.
  set (st3 := mkState _ _) in Hsub3.
  assert (Hlen3 : (i < length (bioQueueData (ioSubmitter st3)))%nat)
    by (unfold st3; cbn [ioSubmitter]; by rewrite set_bioQueueData_length).
  (* the work item of the middle request runs *)
  assert (HM3 : kvios (mem st3) !!! pM
                = set_biosMerged [first; middle; last]
                                 (set_biosMerged [first; middle] kM))
    by (unfold st3; cbn [mem kvios]; by rewrite lookup_total_insert_eq).
  assert (Hb3 : bioQueueData (ioSubmitter st3) !! i = Some b3).
  { unfold st3. cbn [ioSubmitter]. by apply set_bioQueueData_lookup_eq. }
  pose proof (runWorkItem_data i pM st3 b3 (queue bqd) first [middle; last]
                Hb3) as Hrun.
  cbv zeta in Hrun. rewrite HM3 in Hrun.
  cbn [b3 b2 b1 set_map queue map queueNumber] in Hrun.
  specialize (Hrun (dequeueItem_app_last _ _ HnotQ) HdataM eq_refl).
  cbn [List.last] in Hrun. rewrite HsF, HsL in Hrun.
  set (st4 := mkState _ _) in Hrun.
  exists st1, st2, st3, st4, b3, (mkBioQueueData (queue bqd)
    (delete (S + 2 * B) (delete S (map b3))) q).
  split_and!; try done.
  - by rewrite HM3.
  - unfold st3, st2, st1. cbn [mem trace].
    rewrite !requestsOf_app. cbn [requestsOf]. by rewrite !app_nil_r.
  - unfold st4, st3, st2, st1. cbn [mem trace].
    rewrite !requestsOf_app. cbn [requestsOf fmap list_fmap].
    by rewrite !app_nil_r.
  - unfold st4. cbn [ioSubmitter]. by apply set_bioQueueData_lookup_eq.
  - cbn [map]. apply lookup_delete_None. right. apply lookup_delete_eq.
  - cbn [map b3 set_map].
    rewrite !lookup_delete_ne by lia. rewrite !lookup_insert_ne by lia.
    apply lookup_delete_eq.
  - cbn [map]. apply lookup_delete_eq.
Qed.


(** *** The invariant of the bio maps *)

Lemma queued_lookup s p :
  queued s p ↔ ∃ i bqd, bioQueueData s !! i = Some bqd ∧ p ∈ queue bqd.
Proof.
  unfold queued. rewrite list_elem_of_join. split.
  - intros (l & Hp & Hl). apply list_elem_of_fmap in Hl as (bqd & -> & Hbqd).
    apply list_elem_of_lookup in Hbqd as [i Hi]. eauto.
  - intros (i & bqd & Hi & Hp). exists (queue bqd). split; [done |].
    apply list_elem_of_fmap. exists bqd. split; [done |].
    by eapply list_elem_of_lookup_2.
Qed.

Lemma map_sound_agree h h' bqd :
  (∀ p, p ∈ queue bqd → h' !!! p = h !!! p) →
  map_sound h bqd → map_sound h' bqd.
Proof.
  intros Hagree Hs key p Hkey.
  destruct (Hs key p Hkey) as (Hq & Hd & Hl).
  rewrite (Hagree p Hq). auto.
Qed.

Lemma map_complete_agree h h' bqd :
  (∀ p, p ∈ queue bqd → h' !!! p = h !!! p) →
  map_complete h bqd → map_complete h' bqd.
Proof.
  intros Hagree Hc p Hq. rewrite (Hagree p Hq). by apply Hc.
Qed.

Lemma sectors_distinct_agree h h' bqd :
  (∀ p, p ∈ queue bqd → h' !!! p = h !!! p) →
  sectors_distinct h bqd → sectors_distinct h' bqd.
Proof.
  intros Hagree [Hin Hcross]. split.
  - intros p Hq. rewrite (Hagree p Hq). by apply Hin.
  - intros p q b c Hp Hq. rewrite (Hagree p Hp), (Hagree q Hq).
    by apply Hcross.
Qed.

Lemma dequeueItem_Some item q rest :
  dequeueItem item q = Some rest →
  item ∈ q ∧ (∀ p, p ∈ rest → p ∈ q) ∧ (∀ p, p ∈ q → p ≠ item → p ∈ rest) ∧
  (NoDup q → NoDup rest ∧ item ∉ rest).
Proof.
  revert rest. induction q as [| x q IH]; intros rest H; [done |].
  simpl in H. case_decide as Hx.
  - simplify_eq. split_and!; [set_solver | set_solver | set_solver |].
    intros Hnd. apply NoDup_cons in Hnd as [? ?]. done.
  - destruct (dequeueItem item q) as [rest' |] eqn:E; [| done].
    simpl in H. simplify_eq.
    destruct (IH rest' eq_refl) as (H1 & H2 & H3 & H4).
    split_and!; [set_solver | set_solver | set_solver |].
    intros Hnd. apply NoDup_cons in Hnd as [Hx' Hnd].
    destruct (H4 Hnd) as [H5 H6]. split; [| set_solver].
    apply NoDup_cons. split; [| done]. intros Hin. apply Hx'. by apply H2.
Qed.

(** Replacing the bio queue [i] and the memory keeps the invariants of
    the other queues when the KVIOs queued there are left alone. *)
Lemma queues_separate_update (l : list BioQueueData) (i : nat) bqd bqd' :
  queues_separate l → l !! i = Some bqd →
  NoDup (queue bqd') →
  (∀ p, p ∈ queue bqd' →
        p ∈ queue bqd ∨ ¬ ∃ j bqj, l !! j = Some bqj ∧ p ∈ queue bqj) →
  queues_separate (<[i := bqd']> l).
Proof.
  intros [Hnd Hsep] Hi Hnd' Hq'.
  assert (Hlen : (i < length l)%nat) by (by eapply lookup_lt_Some).
  split.
  - intros j bqj Hj. destruct (decide (i = j)) as [<- | Hne].
    + rewrite list_lookup_insert_eq in Hj by done. by simplify_eq.
    + rewrite list_lookup_insert_ne in Hj by done. by eapply Hnd.
  - intros j1 j2 b1 b2 p H1 H2 Hp1 Hp2.
    destruct (decide (i = j1)) as [<- | Hne1];
      destruct (decide (i = j2)) as [<- | Hne2]; [done | | |].
    + rewrite list_lookup_insert_eq in H1 by done.
      rewrite list_lookup_insert_ne in H2 by done. simplify_eq.
      destruct (Hq' p Hp1) as [Hold | Hnew].
      * by eapply Hsep.
      * exfalso. apply Hnew. eauto.
    + rewrite list_lookup_insert_ne in H1 by done.
      rewrite list_lookup_insert_eq in H2 by done. simplify_eq.
      destruct (Hq' p Hp2) as [Hold | Hnew].
      * by eapply Hsep.
      * exfalso. apply Hnew. eauto.
    + rewrite list_lookup_insert_ne in H1 by done.
      rewrite list_lookup_insert_ne in H2 by done. by eapply Hsep.
Qed.

Lemma sound_update st (i : nat) bqd bqd' m' :
  sound st → bioQueueData (ioSubmitter st) !! i = Some bqd →
  NoDup (queue bqd') →
  (∀ p, p ∈ queue bqd' → p ∈ queue bqd ∨ ¬ queued (ioSubmitter st) p) →
  (∀ p, queued (ioSubmitter st) p → p ∉ queue bqd →
        kvios m' !!! p = kvios (mem st) !!! p) →
  map_sound (kvios m') bqd' →
  sound (mkState (set_bioQueueData i bqd' (ioSubmitter st)) m').
Proof.
  intros [Hsep Hmaps] Hi Hnd Hq Hagree Hs.
  assert (Hlen : (i < length (bioQueueData (ioSubmitter st)))%nat)
    by (by eapply lookup_lt_Some).
  split; cbn [ioSubmitter mem set_bioQueueData bioQueueData].
  - eapply queues_separate_update; [done | done | done |].
    intros p Hp. destruct (Hq p Hp) as [? | Hn]; [by left | right].
    intros Hex. apply Hn. by apply queued_lookup.
  - intros j bqj Hj. destruct (decide (i = j)) as [<- | Hne].
    + rewrite list_lookup_insert_eq in Hj by done. by simplify_eq.
    + rewrite list_lookup_insert_ne in Hj by done.
      eapply map_sound_agree; [| by eapply Hmaps].
      intros p Hp. apply Hagree.
      * apply queued_lookup. eauto.
      * intros Hp'. destruct Hsep as [_ Hsep].
        apply Hne. by eapply (Hsep i j bqd bqj p).
Qed.

Lemma tidy_update st (i : nat) bqd bqd' m' :
  tidy st → bioQueueData (ioSubmitter st) !! i = Some bqd →
  sound (mkState (set_bioQueueData i bqd' (ioSubmitter st)) m') →
  (∀ p, queued (ioSubmitter st) p → p ∉ queue bqd →
        kvios m' !!! p = kvios (mem st) !!! p) →
  map_complete (kvios m') bqd' →
  sectors_distinct (kvios m') bqd' →
  tidy (mkState (set_bioQueueData i bqd' (ioSubmitter st)) m').
Proof.
  intros [Hsound Hcompl Hdist] Hi Hsound' Hagree Hc Hd.
  assert (Hlen : (i < length (bioQueueData (ioSubmitter st)))%nat)
    by (by eapply lookup_lt_Some).
  assert (Hother : ∀ j bqj, i ≠ j →
            bioQueueData (ioSubmitter st) !! j = Some bqj →
            ∀ p, p ∈ queue bqj → kvios m' !!! p = kvios (mem st) !!! p).
  { intros j bqj Hne Hj p Hp. apply Hagree.
    - apply queued_lookup. eauto.
    - intros Hp'. destruct Hsound as [[_ Hsep] _].
      apply Hne. by eapply (Hsep i j bqd bqj p). }
  split; [done | |];
    cbn [ioSubmitter mem set_bioQueueData bioQueueData];
    intros j bqj Hj; (destruct (decide (i = j)) as [<- | Hne];
      [rewrite list_lookup_insert_eq in Hj by done; by simplify_eq
      | rewrite list_lookup_insert_ne in Hj by done]).
  - eapply map_complete_agree; [by eapply Hother | by eapply Hcompl].
  - eapply sectors_distinct_agree; [by eapply Hother | by eapply Hdist].
Qed.


Lemma List_last_cons {A} (hd : A) (tl : list A) (d : A) :
  List.last (hd :: tl) d = List.last tl hd.
Proof.
  destruct tl as [| x tl]; [done |].
  change (List.last (x :: tl) d = List.last (x :: tl) hd).
  apply List_last_default.
Qed.

Lemma List_last_app_cons {A} (l : list A) (hd : A) (tl : list A) (d : A) :
  List.last (l ++ hd :: tl) d = List.last tl hd.
Proof.
  induction l as [| x l IH]; [apply List_last_cons |].
  rewrite <- IH. simpl. by destruct (l ++ hd :: tl) eqn:E; [destruct l |].
Qed.

Lemma putResult_lookup result key v (m : gmap Z kvio_ptr) key' p :
  putResult result key v m !! key' = Some p →
  (key' = key ∧ p = v) ∨ m !! key' = Some p.
Proof.
  unfold putResult. case_decide; [| auto].
  destruct (decide (key = key')) as [-> | Hne].
  - rewrite lookup_insert_eq. intros; simplify_eq. auto.
  - rewrite lookup_insert_ne by done. auto.
Qed.

Lemma map_sound_notMerged puts bqd m0 kvio bio :
  map_sound (kvios m0) bqd →
  isData (kvios m0 !!! kvio) = true →
  biosMerged (kvios m0 !!! kvio) = [bio] →
  map_sound (kvios (notMerged puts bqd m0 kvio bio).2)
            (enqueueWorkQueue (notMerged puts bqd m0 kvio bio).1 kvio).
Proof.
  intros Hs Hdata Hbl key p. unfold notMerged.
  cbn [fst snd kvios enqueueWorkQueue set_map map queue].
  intros Hkey. apply putResult_lookup in Hkey as [[-> ->] | Hold].
  - rewrite Hdata, Hbl. split_and!; [set_solver | done |].
    eexists _, _. split; [done |]. by left.
  - destruct (Hs key p Hold) as (Hq & Hd & Hl). split_and!; [set_solver | done..].
Qed.

Lemma map_sound_mergedToTail puts bqd m0 kvio prevKvio hd tl :
  map_sound (kvios m0) bqd →
  prevKvio ∈ queue bqd → isData (kvios m0 !!! prevKvio) = true →
  biosMerged (kvios m0 !!! prevKvio) = hd :: tl →
  map_sound (kvios (mergedToTail puts bqd m0 kvio prevKvio hd tl).2)
            (mergedToTail puts bqd m0 kvio prevKvio hd tl).1.
Proof.
  intros Hs Hq Hdata Hbl key p. unfold mergedToTail.
  cbn [fst snd kvios set_map map queue].
  set (bl := biosMerged (kvios m0 !!! kvio)).
  assert (Hprev : ∀ k, k = getBioSector hd
                       ∨ k = getBioSector (List.last (tl ++ bl) hd) →
            prevKvio ∈ queue bqd ∧
            isData (<[prevKvio := set_biosMerged ((hd :: tl) ++ bl)
                                    (kvios m0 !!! prevKvio)]> (kvios m0)
                    !!! prevKvio) = true ∧
            ∃ hd' tl',
              biosMerged (<[prevKvio := set_biosMerged ((hd :: tl) ++ bl)
                                          (kvios m0 !!! prevKvio)]> (kvios m0)
                          !!! prevKvio) = hd' :: tl' ∧
              (k = getBioSector hd' ∨ k = getBioSector (List.last tl' hd'))).
  { intros k Hk. rewrite lookup_total_insert_eq.
    cbn [set_biosMerged isData biosMerged]. split_and!; [done | done |].
    exists hd, (tl ++ bl). done. }
  intros Hkey. apply putResult_lookup in Hkey as [[-> ->] | Hkey];
    [apply Hprev; by right |].
  apply putResult_lookup in Hkey as [[-> ->] | Hkey];
    [apply Hprev; by left |].
  destruct (decide (key = getBioSector (List.last tl hd))) as [-> | Hne];
    [by rewrite lookup_delete_eq in Hkey |].
  rewrite lookup_delete_ne in Hkey by done.
  destruct (Hs key p Hkey) as (Hpq & Hpd & hd' & tl' & Hpl & Hpk).
  destruct (decide (p = prevKvio)) as [-> | Hp].
  - apply Hprev. left. rewrite Hbl in Hpl. simplify_eq.
    destruct Hpk; [done | congruence].
  - rewrite lookup_total_insert_ne by done. eauto 10.
Qed.

Lemma map_sound_mergedToHead puts bqd m0 kvio nextKvio hd tl :
  map_sound (kvios m0) bqd →
  nextKvio ∈ queue bqd → isData (kvios m0 !!! nextKvio) = true →
  biosMerged (kvios m0 !!! nextKvio) = hd :: tl →
  map_sound (kvios (mergedToHead puts bqd m0 kvio nextKvio hd tl).2)
            (mergedToHead puts bqd m0 kvio nextKvio hd tl).1.
Proof.
  intros Hs Hq Hdata Hbl key p. unfold mergedToHead.
  cbn [fst snd kvios set_map map queue].
  set (bl := biosMerged (kvios m0 !!! kvio)).
  assert (Hnext : ∀ k, k = getBioSector (List.hd hd bl)
                       ∨ k = getBioSector (List.last tl hd) →
            nextKvio ∈ queue bqd ∧
            isData (<[nextKvio := set_biosMerged (bl ++ hd :: tl)
                                    (kvios m0 !!! nextKvio)]> (kvios m0)
                    !!! nextKvio) = true ∧
            ∃ hd' tl',
              biosMerged (<[nextKvio := set_biosMerged (bl ++ hd :: tl)
                                          (kvios m0 !!! nextKvio)]> (kvios m0)
                          !!! nextKvio) = hd' :: tl' ∧
              (k = getBioSector hd' ∨ k = getBioSector (List.last tl' hd'))).
  { intros k Hk. rewrite lookup_total_insert_eq.
    cbn [set_biosMerged isData biosMerged]. split_and!; [done | done |].
    destruct bl as [| b bl']; [exists hd, tl; done |].
    exists b, (bl' ++ hd :: tl). split; [done |].
    rewrite List_last_app_cons. done. }
  intros Hkey. apply putResult_lookup in Hkey as [[-> ->] | Hkey];
    [apply Hnext; by right |].
  apply putResult_lookup in Hkey as [[-> ->] | Hkey];
    [apply Hnext; by left |].
  destruct (decide (key = getBioSector hd)) as [-> | Hne];
    [by rewrite lookup_delete_eq in Hkey |].
  rewrite lookup_delete_ne in Hkey by done.
  destruct (Hs key p Hkey) as (Hpq & Hpd & hd' & tl' & Hpl & Hpk).
  destruct (decide (p = nextKvio)) as [-> | Hp].
  - apply Hnext. right. rewrite Hbl in Hpl. simplify_eq.
    destruct Hpk; [congruence | done].
  - rewrite lookup_total_insert_ne by done. eauto 10.
Qed.

Lemma map_sound_processBioMap h bqd m item rest bqd' m' :
  kvios m = h →
  map_sound h bqd →
  dequeueItem item (queue bqd) = Some rest →
  processBioMap (mkBioQueueData rest (map bqd) (queueNumber bqd)) m item
  = (bqd', m') →
  queue bqd' = rest ∧
  (∀ p, p ≠ item → kvios m' !!! p = h !!! p) ∧
  map_sound (kvios m') bqd'.
Proof.
  intros <- Hs Hdeq Hproc.
  destruct (dequeueItem_Some _ _ _ Hdeq) as (Hin & Hsub & Hrest & _).
  unfold processBioMap, detachBioList in Hproc. cbn [USE_BIOMAP andb] in Hproc.
  destruct (isData (kvios m !!! item)) eqn:Hdata.
  - destruct (biosMerged (kvios m !!! item)) as [| hd tl] eqn:Hbl;
      rewrite sendBioList_eq in Hproc;
      cbn [queueNumber map queue set_map add_events set_kvio kvios trace]
        in Hproc;
      simplify_eq; cbn [queue map kvios set_map].
    + split_and!; [done | by intros; rewrite lookup_total_insert_ne |].
      intros key p Hkey. cbn [map] in Hkey.
      destruct (Hs key p Hkey) as (Hq & Hd & Hl).
      destruct (decide (p = item)) as [-> | Hne].
      * destruct Hl as (? & ? & ? & _). congruence.
      * rewrite lookup_total_insert_ne by done. split_and!; auto.
    + split_and!; [done | by intros; rewrite lookup_total_insert_ne |].
      intros key p Hkey. cbn [set_map map] in Hkey.
      unfold intMapRemove in Hkey.
      apply lookup_delete_Some in Hkey as [Hk2 Hkey].
      apply lookup_delete_Some in Hkey as [Hk1 Hkey].
      destruct (Hs key p Hkey) as (Hq & Hd & Hl).
      destruct (decide (p = item)) as [-> | Hne].
      * destruct Hl as (hd' & tl' & Hbl' & Hk). rewrite Hbl in Hbl'.
        simplify_eq. by destruct Hk.
      * rewrite lookup_total_insert_ne by done. split_and!; auto.
  - unfold sendBioToDevice, add_events in Hproc. simplify_eq.
    cbn [queue map kvios]. split_and!; [done | done |].
    intros key p Hkey. destruct (Hs key p Hkey) as (Hq & Hd & Hl).
    split_and!; [| done..]. apply Hrest; [done |]. congruence.
Qed.


Lemma submitBio_routed puts st bio act st' :
  submitBio B puts st bio act = Some st' →
  ∃ i bqd,
    bioQueueDataForPBN (ioSubmitter st)
                       (physical (kvios (mem st) !!! bi_private bio))
    = Some (i, bqd).
Proof.
  unfold submitBio. cbn [add_events kvios]. rewrite kvios_set_kvio_eq.
  cbn [setupKVIO physical].
  destruct (bioQueueDataForPBN _ _) as [[i bqd] |]; [eauto | done].
Qed.

Lemma not_queued_queue s p (i : nat) bqd :
  ¬ queued s p → bioQueueData s !! i = Some bqd → p ∉ queue bqd.
Proof. intros Hn Hi Hp. apply Hn, queued_lookup. eauto. Qed.

Lemma sound_initial st : initial st → sound st.
Proof.
  unfold initial. rewrite Forall_lookup. intros Hinit. split; [split |].
  - intros i bqd Hi. destruct (Hinit i bqd Hi) as [-> _]. constructor.
  - intros i j bi bj p Hi _ Hp. destruct (Hinit i bi Hi) as [Hq _].
    rewrite Hq in Hp. set_solver.
  - intros i bqd Hi key p Hkey. destruct (Hinit i bqd Hi) as [_ Hm].
    rewrite Hm in Hkey. by rewrite lookup_empty in Hkey.
Qed.

Lemma sound_prepare st p k :
  sound st → ¬ queued (ioSubmitter st) p →
  sound (mkState (ioSubmitter st) (set_kvio p k (mem st))).
Proof.
  intros [Hsep Hmaps] Hn. split; [done |]. cbn [ioSubmitter mem].
  intros i bqd Hi. eapply map_sound_agree; [| by eapply Hmaps].
  intros p' Hp'. apply kvios_set_kvio_ne. intros ->.
  by eapply not_queued_queue.
Qed.

(** What a step of [submitBio] needs from the state before it, for the
    bio queue [bqd] the bio is routed to. *)
Lemma submitBio_frame st bio act (i : nat) bqd :
  let kvio := bi_private bio in
  let m0 := add_events [Ev_bio_list_init kvio]
              (set_kvio kvio (setupKVIO bio act (kvios (mem st) !!! kvio))
                        (mem st)) in
  ¬ queued (ioSubmitter st) kvio →
  bioQueueData (ioSubmitter st) !! i = Some bqd →
  (kvio ∉ queue bqd) ∧
  (∀ p, p ≠ kvio → kvios m0 !!! p = kvios (mem st) !!! p) ∧
  (∀ p, p ∈ queue bqd → kvios m0 !!! p = kvios (mem st) !!! p) ∧
  isData (kvios m0 !!! kvio) = isData (kvios (mem st) !!! kvio) ∧
  biosMerged (kvios m0 !!! kvio) = [bio].
Proof.
  intros kvio m0 Hn Hi.
  assert (Hk : kvio ∉ queue bqd) by (by eapply not_queued_queue).
  split_and!; [done | | | |].
  - intros p Hp. by apply kvios_set_kvio_ne.
  - intros p Hp. apply kvios_set_kvio_ne. set_solver.
  - unfold m0. cbn [add_events kvios]. by rewrite kvios_set_kvio_eq.
  - unfold m0. cbn [add_events kvios]. by rewrite kvios_set_kvio_eq.
Qed.

Lemma sound_step st l st' :
  sound st → allowed st l → exec B st l = Some st' → sound st'.
Proof.
  intros Hsound Hallowed Hexec. destruct l as [p k | puts bio act | i item].
  - (* the owner writes a KVIO that is not queued *)
    simpl in Hexec. simplify_eq. by apply sound_prepare.
  - (* submitBio *)
    simpl in Hexec, Hallowed.
    destruct (submitBio_routed _ _ _ _ _ Hexec) as (i & bqd & Hroute).
    pose proof (bioQueueDataForPBN_lookup _ _ _ _ Hroute) as Hi.
    destruct (submitBio_eq puts st bio act i bqd Hroute)
      as (bqd' & m' & merged & Hsub & Hcase).
    destruct (submitBio_frame st bio act i bqd Hallowed Hi)
      as (Hk & Hm0 & Hm0q & Hdata0 & Hown).
    set (kvio := bi_private bio) in *.
    set (m0 := add_events _ (set_kvio kvio _ (mem st))) in *.
    clearbody m0.
    rewrite Hexec in Hsub. injection Hsub as ->.
    pose proof (sound_queues _ Hsound) as [Hnd Hsep].
    pose proof (sound_maps _ Hsound i bqd Hi) as Hs.
    assert (Hs0 : map_sound (kvios m0) bqd)
      by (by eapply map_sound_agree).
    assert (Hnd' : NoDup (queue bqd ++ [kvio])).
    { apply NoDup_app. split_and!; [by eapply Hnd | set_solver |].
      apply NoDup_singleton. }
    assert (Hq' : ∀ p, p ∈ queue bqd ++ [kvio] →
                       p ∈ queue bqd ∨ ¬ queued (ioSubmitter st) p).
    { intros p Hp. apply elem_of_app in Hp as [? | Hp]; [by left | right].
      apply list_elem_of_singleton in Hp as ->. done. }
    destruct (isData (kvios (mem st) !!! kvio)) eqn:Hdata.
    + destruct Hcase as [_ Hcase].
      inversion Hcase as [Hprev Hnext | P hd tl Hprev Hbl | N hd tl Hnext Hbl];
        subst bqd' m' merged.
      * apply (sound_update st i bqd); [done | done | done | done | |].
        -- intros p Hp Hpq. cbn [add_events kvios notMerged snd].
           apply Hm0. intros ->. by apply Hallowed.
        -- by apply map_sound_notMerged.
      * pose proof (getMergeableLocked_lookup _ _ _ _ _ Hprev) as HP.
        destruct (Hs0 _ _ HP) as (HPq & HPd & _).
        apply (sound_update st i bqd); [done | done | | | |];
          cbn [set_map queue].
        -- by eapply Hnd.
        -- intros p Hp. by left.
        -- intros p Hp Hpq. cbn [mergedToTail snd kvios].
           rewrite lookup_total_insert_ne by set_solver.
           apply Hm0. intros ->. by apply Hallowed.
        -- by apply map_sound_mergedToTail.
      * pose proof (getMergeableLocked_lookup _ _ _ _ _ Hnext) as HN.
        destruct (Hs0 _ _ HN) as (HNq & HNd & _).
        apply (sound_update st i bqd); [done | done | | | |];
          cbn [set_map queue].
        -- by eapply Hnd.
        -- intros p Hp. by left.
        -- intros p Hp Hpq. cbn [mergedToHead snd kvios].
           rewrite lookup_total_insert_ne by set_solver.
           apply Hm0. intros ->. by apply Hallowed.
        -- by apply map_sound_mergedToHead.
    + simplify_eq.
      apply (sound_update st i bqd); [done | done | done | done | |].
      * intros p Hp Hpq. cbn [add_events kvios].
        apply Hm0. intros ->. by apply Hallowed.
      * intros key p Hkey. cbn [add_events kvios enqueueWorkQueue map queue]
          in *.
        destruct (Hs0 key p Hkey) as (? & ? & ?).
        split_and!; [set_solver | done..].
  - (* processBioMap *)
    simpl in Hexec. unfold runWorkItem in Hexec.
    destruct (bioQueueData (ioSubmitter st) !! i) as [bqd |] eqn:Hi;
      [| done].
    cbn [mbind option_bind] in Hexec.
    destruct (dequeueItem item (queue bqd)) as [rest |] eqn:Hdeq; [| done].
    cbn [mbind option_bind] in Hexec.
    destruct (processBioMap _ (mem st) item) as [bqd' m'] eqn:Hproc.
    simplify_eq.
    pose proof (sound_queues _ Hsound) as [Hnd Hsep].
    destruct (map_sound_processBioMap _ bqd _ item rest bqd' m' eq_refl
                (sound_maps _ Hsound i bqd Hi) Hdeq Hproc)
      as (Hq & Hagree & Hs).
    destruct (dequeueItem_Some _ _ _ Hdeq) as (Hin & Hsub & _ & Hndr).
    apply (sound_update st i bqd); [done | done | | | | done].
    + rewrite Hq. by apply Hndr, (Hnd i).
    + intros p Hp. left. apply Hsub. by rewrite <- Hq.
    + intros p Hp Hpq. apply Hagree. intros ->. done.
Qed.

Lemma reachable_sound st : reachable B allowed st → sound st.
Proof.
  induction 1 as [st Hinit | st l st' _ IH Hallowed Hexec].
  - by apply sound_initial.
  - by eapply sound_step.
Qed.


(** *** The stricter invariant *)

Lemma List_last_elem_of {A} (hd : A) (tl : list A) :
  List.last tl hd ∈ hd :: tl.
Proof.
  revert hd. induction tl as [| x tl IH]; intros hd; [set_solver |].
  rewrite List_last_cons. specialize (IH x). set_solver.
Qed.

Lemma pendingSectors_fresh h bqd s :
  s ∉ pendingSectors h bqd → fresh_sector h bqd s.
Proof.
  intros Hs p b Hp Hd Hb Heq. apply Hs. unfold pendingSectors.
  apply list_elem_of_bind. exists p. split; [| done].
  rewrite Hd. apply list_elem_of_fmap. eauto.
Qed.

Lemma fresh_sector_agree h h' bqd s :
  (∀ p, p ∈ queue bqd → h' !!! p = h !!! p) →
  fresh_sector h bqd s → fresh_sector h' bqd s.
Proof.
  intros Hagree Hf p b Hp. rewrite (Hagree p Hp). by apply Hf.
Qed.

Lemma tidy_notMerged puts bqd m0 kvio bio :
  puts.1 = VDO_SUCCESS →
  map_complete (kvios m0) bqd → sectors_distinct (kvios m0) bqd →
  kvio ∉ queue bqd →
  isData (kvios m0 !!! kvio) = true →
  biosMerged (kvios m0 !!! kvio) = [bio] →
  fresh_sector (kvios m0) bqd (getBioSector bio) →
  map_complete (kvios (notMerged puts bqd m0 kvio bio).2)
               (enqueueWorkQueue (notMerged puts bqd m0 kvio bio).1 kvio) ∧
  sectors_distinct (kvios (notMerged puts bqd m0 kvio bio).2)
                   (enqueueWorkQueue (notMerged puts bqd m0 kvio bio).1 kvio).
Proof.
  intros Hput Hc [Hin Hcross] Hk Hdata Hbl Hfresh. unfold notMerged, putResult.
  rewrite decide_True by done. unfold map_complete, sectors_distinct.
  cbn [fst snd kvios enqueueWorkQueue set_map map queue]. split.
  - intros p Hp Hpd. apply elem_of_app in Hp as [Hp | Hp].
    + destruct (Hc p Hp Hpd) as (hd & tl & Hl & H1 & H2).
      exists hd, tl. split; [done |].
      rewrite !lookup_insert_ne; [done | |].
      * intros Heq. eapply (Hfresh p (List.last tl hd)); [done | done | | done].
        rewrite Hl. apply List_last_elem_of.
      * intros Heq. eapply (Hfresh p hd); [done | done | | done].
        rewrite Hl. set_solver.
    + apply list_elem_of_singleton in Hp as ->. exists bio, [].
      split; [done |]. simpl. by rewrite lookup_insert_eq.
  - split.
    + intros p Hp Hpd. apply elem_of_app in Hp as [Hp | Hp]; [by apply Hin |].
      apply list_elem_of_singleton in Hp as ->. rewrite Hbl. simpl.
      apply NoDup_singleton.
    + intros p q b c Hp Hq Hne Hpd Hqd Hb Hc'.
      apply elem_of_app in Hp as [Hp | Hp];
        apply elem_of_app in Hq as [Hq | Hq].
      * by eapply (Hcross p q).
      * apply list_elem_of_singleton in Hq as ->. rewrite Hbl in Hc'.
        apply list_elem_of_singleton in Hc' as ->. by eapply Hfresh.
      * apply list_elem_of_singleton in Hp as ->. rewrite Hbl in Hb.
        apply list_elem_of_singleton in Hb as ->.
        intros Heq. by eapply (Hfresh q c).
      * apply list_elem_of_singleton in Hp as ->.
        apply list_elem_of_singleton in Hq as ->. done.
Qed.


Lemma tidy_mergedToTail puts bqd m0 kvio prevKvio hd tl bio :
  puts = (VDO_SUCCESS, VDO_SUCCESS) →
  map_complete (kvios m0) bqd → sectors_distinct (kvios m0) bqd →
  prevKvio ∈ queue bqd → isData (kvios m0 !!! prevKvio) = true →
  biosMerged (kvios m0 !!! prevKvio) = hd :: tl →
  biosMerged (kvios m0 !!! kvio) = [bio] →
  fresh_sector (kvios m0) bqd (getBioSector bio) →
  map_complete (kvios (mergedToTail puts bqd m0 kvio prevKvio hd tl).2)
               (mergedToTail puts bqd m0 kvio prevKvio hd tl).1 ∧
  sectors_distinct (kvios (mergedToTail puts bqd m0 kvio prevKvio hd tl).2)
                   (mergedToTail puts bqd m0 kvio prevKvio hd tl).1.
Proof.
  intros -> Hc [Hin Hcross] HPq HPd Hbl Hown Hfresh.
  unfold mergedToTail, putResult, map_complete, sectors_distinct.
  rewrite Hown, last_app_singleton. cbn [fst snd].
  rewrite !decide_True by done.
  cbn [kvios set_map map queue].
  set (h' := <[prevKvio := _]> (kvios m0)).
  assert (HP' : biosMerged (h' !!! prevKvio) = (hd :: tl) ++ [bio])
    by (unfold h'; by rewrite lookup_total_insert_eq).
  assert (HPd' : isData (h' !!! prevKvio) = true)
    by (unfold h'; by rewrite lookup_total_insert_eq).
  assert (Hother : ∀ p, p ≠ prevKvio → h' !!! p = kvios m0 !!! p)
    by (intros p Hp; unfold h'; by rewrite lookup_total_insert_ne).
  assert (Hhd : hd ∈ biosMerged (kvios m0 !!! prevKvio))
    by (rewrite Hbl; set_solver).
  assert (Hlast : List.last tl hd ∈ biosMerged (kvios m0 !!! prevKvio))
    by (rewrite Hbl; apply List_last_elem_of).
  assert (Hfh : getBioSector hd ≠ getBioSector bio)
    by (by eapply (Hfresh prevKvio hd)).
  split; [| split].
  - intros p Hp Hpd. destruct (decide (p = prevKvio)) as [-> | Hne].
    + rewrite HP'. exists hd, (tl ++ [bio]). split; [done |].
      rewrite last_app_singleton.
      rewrite lookup_insert_ne, !lookup_insert_eq by done. done.
    + rewrite Hother in Hpd |- * by done.
      destruct (Hc p Hp Hpd) as (hd' & tl' & Hl & H1 & H2).
      assert (Hhd' : hd' ∈ biosMerged (kvios m0 !!! p))
        by (rewrite Hl; set_solver).
      assert (Hlast' : List.last tl' hd' ∈ biosMerged (kvios m0 !!! p))
        by (rewrite Hl; apply List_last_elem_of).
      exists hd', tl'. split; [done |].
      assert (getBioSector hd' ≠ getBioSector bio)
        by (by eapply (Hfresh p hd')).
      assert (getBioSector (List.last tl' hd') ≠ getBioSector bio)
        by (by eapply (Hfresh p (List.last tl' hd'))).
      assert (getBioSector hd ≠ getBioSector hd')
        by (eapply (Hcross prevKvio p); done).
      assert (getBioSector hd ≠ getBioSector (List.last tl' hd'))
        by (eapply (Hcross prevKvio p); done).
      assert (getBioSector (List.last tl hd) ≠ getBioSector hd')
        by (eapply (Hcross prevKvio p); done).
      assert (getBioSector (List.last tl hd)
              ≠ getBioSector (List.last tl' hd'))
        by (eapply (Hcross prevKvio p); done).
      rewrite !lookup_insert_ne, !lookup_delete_ne by done. done.
  - intros p Hp Hpd. destruct (decide (p = prevKvio)) as [-> | Hne].
    + rewrite HP', fmap_app. apply NoDup_app. split_and!.
      * rewrite <- Hbl. by apply Hin.
      * intros s Hs Hs'. apply list_elem_of_fmap in Hs as (b & -> & Hb).
        simpl in Hs'. apply list_elem_of_singleton in Hs'.
        eapply (Hfresh prevKvio b); [done | done | by rewrite Hbl | done].
      * apply NoDup_singleton.
    + rewrite Hother in Hpd |- * by done. by apply Hin.
  - intros p q b c Hp Hq Hne Hpd Hqd Hb Hc'.
    destruct (decide (p = prevKvio)) as [-> | Hnp];
      destruct (decide (q = prevKvio)) as [-> | Hnq]; [done | | |].
    + rewrite Hother in Hqd, Hc' by done. rewrite HP' in Hb.
      apply elem_of_app in Hb as [Hb | Hb].
      * eapply (Hcross prevKvio q); [done.. | by rewrite Hbl | done].
      * apply list_elem_of_singleton in Hb as ->.
        intros Heq. by eapply (Hfresh q c).
    + rewrite Hother in Hpd, Hb by done. rewrite HP' in Hc'.
      apply elem_of_app in Hc' as [Hc' | Hc'].
      * eapply (Hcross p prevKvio); [done.. | by rewrite Hbl].
      * apply list_elem_of_singleton in Hc' as ->. by eapply (Hfresh p b).
    + rewrite Hother in Hpd, Hqd, Hb, Hc' by done. by eapply (Hcross p q).
Qed.

Lemma tidy_mergedToHead puts bqd m0 kvio nextKvio hd tl bio :
  puts = (VDO_SUCCESS, VDO_SUCCESS) →
  map_complete (kvios m0) bqd → sectors_distinct (kvios m0) bqd →
  nextKvio ∈ queue bqd → isData (kvios m0 !!! nextKvio) = true →
  biosMerged (kvios m0 !!! nextKvio) = hd :: tl →
  biosMerged (kvios m0 !!! kvio) = [bio] →
  fresh_sector (kvios m0) bqd (getBioSector bio) →
  map_complete (kvios (mergedToHead puts bqd m0 kvio nextKvio hd tl).2)
               (mergedToHead puts bqd m0 kvio nextKvio hd tl).1 ∧
  sectors_distinct (kvios (mergedToHead puts bqd m0 kvio nextKvio hd tl).2)
                   (mergedToHead puts bqd m0 kvio nextKvio hd tl).1.
Proof.
  intros -> Hc [Hin Hcross] HNq HNd Hbl Hown Hfresh.
  unfold mergedToHead, putResult, map_complete, sectors_distinct.
  rewrite Hown. cbn [fst snd List.hd app].
  rewrite !decide_True by done.
  cbn [kvios set_map map queue].
  set (h' := <[nextKvio := _]> (kvios m0)).
  assert (HN' : biosMerged (h' !!! nextKvio) = bio :: hd :: tl)
    by (unfold h'; by rewrite lookup_total_insert_eq).
  assert (HNd' : isData (h' !!! nextKvio) = true)
    by (unfold h'; by rewrite lookup_total_insert_eq).
  assert (Hother : ∀ p, p ≠ nextKvio → h' !!! p = kvios m0 !!! p)
    by (intros p Hp; unfold h'; by rewrite lookup_total_insert_ne).
  assert (Hhd : hd ∈ biosMerged (kvios m0 !!! nextKvio))
    by (rewrite Hbl; set_solver).
  assert (Hlast : List.last tl hd ∈ biosMerged (kvios m0 !!! nextKvio))
    by (rewrite Hbl; apply List_last_elem_of).
  assert (Hfl : getBioSector (List.last tl hd) ≠ getBioSector bio)
    by (by eapply (Hfresh nextKvio (List.last tl hd))).
  split; [| split].
  - intros p Hp Hpd. destruct (decide (p = nextKvio)) as [-> | Hne].
    + rewrite HN'. exists bio, (hd :: tl). split; [done |].
      rewrite List_last_cons.
      rewrite lookup_insert_ne, !lookup_insert_eq by done. done.
    + rewrite Hother in Hpd |- * by done.
      destruct (Hc p Hp Hpd) as (hd' & tl' & Hl & H1 & H2).
      assert (Hhd' : hd' ∈ biosMerged (kvios m0 !!! p))
        by (rewrite Hl; set_solver).
      assert (Hlast' : List.last tl' hd' ∈ biosMerged (kvios m0 !!! p))
        by (rewrite Hl; apply List_last_elem_of).
      exists hd', tl'. split; [done |].
      assert (getBioSector hd' ≠ getBioSector bio)
        by (by eapply (Hfresh p hd')).
      assert (getBioSector (List.last tl' hd') ≠ getBioSector bio)
        by (by eapply (Hfresh p (List.last tl' hd'))).
      assert (getBioSector hd ≠ getBioSector hd')
        by (eapply (Hcross nextKvio p); done).
      assert (getBioSector hd ≠ getBioSector (List.last tl' hd'))
        by (eapply (Hcross nextKvio p); done).
      assert (getBioSector (List.last tl hd) ≠ getBioSector hd')
        by (eapply (Hcross nextKvio p); done).
      assert (getBioSector (List.last tl hd)
              ≠ getBioSector (List.last tl' hd'))
        by (eapply (Hcross nextKvio p); done).
      rewrite !lookup_insert_ne, !lookup_delete_ne by done. done.
  - intros p Hp Hpd. destruct (decide (p = nextKvio)) as [-> | Hne].
    + rewrite HN'. rewrite fmap_cons. apply NoDup_cons. split.
      * intros Hs. apply list_elem_of_fmap in Hs as (b & Heq & Hb).
        eapply (Hfresh nextKvio b); [done | done | by rewrite Hbl | done].
      * rewrite <- Hbl. by apply Hin.
    + rewrite Hother in Hpd |- * by done. by apply Hin.
  - intros p q b c Hp Hq Hne Hpd Hqd Hb Hc'.
    destruct (decide (p = nextKvio)) as [-> | Hnp];
      destruct (decide (q = nextKvio)) as [-> | Hnq]; [done | | |].
    + rewrite Hother in Hqd, Hc' by done. rewrite HN' in Hb.
      apply elem_of_cons in Hb as [-> | Hb].
      * intros Heq. by eapply (Hfresh q c).
      * eapply (Hcross nextKvio q); [done.. | by rewrite Hbl | done].
    + rewrite Hother in Hpd, Hb by done. rewrite HN' in Hc'.
      apply elem_of_cons in Hc' as [-> | Hc'].
      * by eapply (Hfresh p b).
      * eapply (Hcross p nextKvio); [done.. | by rewrite Hbl].
    + rewrite Hother in Hpd, Hqd, Hb, Hc' by done. by eapply (Hcross p q).
Qed.


Lemma tidy_processBioMap h bqd m item rest bqd' m' :
  kvios m = h →
  NoDup (queue bqd) →
  map_complete h bqd → sectors_distinct h bqd →
  dequeueItem item (queue bqd) = Some rest →
  processBioMap (mkBioQueueData rest (map bqd) (queueNumber bqd)) m item
  = (bqd', m') →
  map_complete (kvios m') bqd' ∧ sectors_distinct (kvios m') bqd'.
Proof.
  intros <- Hnd Hc [Hin Hcross] Hdeq Hproc.
  destruct (dequeueItem_Some _ _ _ Hdeq) as (Hitem & Hsub & _ & Hndr).
  destruct (Hndr Hnd) as [_ Hnot]. clear Hndr.
  assert (Hagree : ∀ p, p ∈ rest → p ∈ queue bqd ∧ p ≠ item).
  { intros p Hp. split; [by apply Hsub | by intros ->]. }
  unfold processBioMap, detachBioList in Hproc. cbn [USE_BIOMAP andb] in Hproc.
  destruct (isData (kvios m !!! item)) eqn:Hdata.
  - destruct (biosMerged (kvios m !!! item)) as [| hd tl] eqn:Hbl;
      rewrite sendBioList_eq in Hproc;
      cbn [queueNumber map queue set_map add_events set_kvio kvios trace]
        in Hproc;
      simplify_eq; unfold map_complete, sectors_distinct, intMapRemove;
      cbn [queue map kvios set_map].
    + split; [| split].
      * intros p Hp. destruct (Hagree p Hp) as [Hq Hne].
        rewrite lookup_total_insert_ne by done. by apply Hc.
      * intros p Hp. destruct (Hagree p Hp) as [Hq Hne].
        rewrite lookup_total_insert_ne by done. by apply Hin.
      * intros p q b c Hp Hq. destruct (Hagree p Hp) as [Hp' Hnp].
        destruct (Hagree q Hq) as [Hq' Hnq].
        rewrite !lookup_total_insert_ne by done. by apply Hcross.
    + assert (Hhd : hd ∈ biosMerged (kvios m !!! item))
        by (rewrite Hbl; set_solver).
      assert (Hlast : List.last tl hd ∈ biosMerged (kvios m !!! item))
        by (rewrite Hbl; apply List_last_elem_of).
      split; [| split].
      * intros p Hp. destruct (Hagree p Hp) as [Hq Hne].
        rewrite lookup_total_insert_ne by done. intros Hpd.
        destruct (Hc p Hq Hpd) as (hd' & tl' & Hl & H1 & H2).
        assert (Hhd' : hd' ∈ biosMerged (kvios m !!! p))
          by (rewrite Hl; set_solver).
        assert (Hlast' : List.last tl' hd' ∈ biosMerged (kvios m !!! p))
          by (rewrite Hl; apply List_last_elem_of).
        assert (getBioSector hd ≠ getBioSector hd')
          by (eapply (Hcross item p); done).
        assert (getBioSector hd ≠ getBioSector (List.last tl' hd'))
          by (eapply (Hcross item p); done).
        assert (getBioSector (List.last tl hd) ≠ getBioSector hd')
          by (eapply (Hcross item p); done).
        assert (getBioSector (List.last tl hd)
                ≠ getBioSector (List.last tl' hd'))
          by (eapply (Hcross item p); done).
        exists hd', tl'. split; [done |].
        rewrite !lookup_delete_ne by done. done.
      * intros p Hp. destruct (Hagree p Hp) as [Hq Hne].
        rewrite lookup_total_insert_ne by done. by apply Hin.
      * intros p q b c Hp Hq. destruct (Hagree p Hp) as [Hp' Hnp].
        destruct (Hagree q Hq) as [Hq' Hnq].
        rewrite !lookup_total_insert_ne by done. by apply Hcross.
  - unfold sendBioToDevice, add_events in Hproc. simplify_eq.
    unfold map_complete, sectors_distinct. cbn [queue map kvios].
    split; [| split].
    + intros p Hp. destruct (Hagree p Hp) as [Hq Hne]. by apply Hc.
    + intros p Hp. destruct (Hagree p Hp) as [Hq Hne]. by apply Hin.
    + intros p q b c Hp Hq. destruct (Hagree p Hp) as [Hp' Hnp].
      destruct (Hagree q Hq) as [Hq' Hnq]. by apply Hcross.
Qed.

Lemma tidy_initial st : initial st → tidy st.
Proof.
  intros Hinit. split; [by apply sound_initial | |];
    unfold initial in Hinit; rewrite Forall_lookup in Hinit;
    intros i bqd Hi; destruct (Hinit i bqd Hi) as [Hq Hm].
  - intros p Hp. rewrite Hq in Hp. set_solver.
  - split.
    + intros p Hp. rewrite Hq in Hp. set_solver.
    + intros p q b c Hp. rewrite Hq in Hp. set_solver.
Qed.

Lemma tidy_step st l st' :
  tidy st → allowed st l → undisturbed st l → exec B st l = Some st' →
  tidy st'.
Proof.
  intros Htidy Hallowed Hund Hexec.
  pose proof (tidy_sound _ Htidy) as Hsound.
  pose proof (sound_step st l st' Hsound Hallowed Hexec) as Hsound'.
  destruct l as [p k | puts bio act | i item].
  - (* the owner writes a KVIO that is not queued *)
    simpl in Hexec, Hallowed. simplify_eq.
    assert (Hagree : ∀ i bqd, bioQueueData (ioSubmitter st) !! i = Some bqd →
              ∀ p', p' ∈ queue bqd →
                    kvios (set_kvio p k (mem st)) !!! p'
                    = kvios (mem st) !!! p').
    { intros i bqd Hi p' Hp'. apply kvios_set_kvio_ne. intros ->.
      by eapply not_queued_queue. }
    split; [done | |]; cbn [ioSubmitter mem]; intros i bqd Hi.
    + eapply map_complete_agree; [by eapply Hagree |].
      by eapply tidy_complete.
    + eapply sectors_distinct_agree; [by eapply Hagree |].
      by eapply tidy_distinct.
  - (* submitBio *)
    simpl in Hexec, Hallowed, Hund. destruct Hund as [-> Hfresh].
    destruct (submitBio_routed _ _ _ _ _ Hexec) as (i & bqd & Hroute).
    rewrite Hroute in Hfresh.
    pose proof (bioQueueDataForPBN_lookup _ _ _ _ Hroute) as Hi.
    destruct (submitBio_eq (VDO_SUCCESS, VDO_SUCCESS) st bio act i bqd Hroute)
      as (bqd' & m' & merged & Hsub & Hcase).
    destruct (submitBio_frame st bio act i bqd Hallowed Hi)
      as (Hk & Hm0 & Hm0q & Hdata0 & Hown).
    set (kvio := bi_private bio) in *.
    set (m0 := add_events _ (set_kvio kvio _ (mem st))) in *.
    clearbody m0.
    rewrite Hexec in Hsub. injection Hsub as ->.
    pose proof (sound_queues _ Hsound) as [Hnd Hsep].
    pose proof (sound_maps _ Hsound i bqd Hi) as Hs.
    assert (Hs0 : map_sound (kvios m0) bqd)
      by (by eapply map_sound_agree).
    assert (Hc0 : map_complete (kvios m0) bqd)
      by (eapply map_complete_agree; [done | by eapply tidy_complete]).
    assert (Hd0 : sectors_distinct (kvios m0) bqd)
      by (eapply sectors_distinct_agree; [done | by eapply tidy_distinct]).
    assert (Hnd' : NoDup (queue bqd ++ [kvio])).
    { apply NoDup_app. split_and!; [by eapply Hnd | set_solver |].
      apply NoDup_singleton. }
    assert (Hq' : ∀ p, p ∈ queue bqd ++ [kvio] →
                       p ∈ queue bqd ∨ ¬ queued (ioSubmitter st) p).
    { intros p Hp. apply elem_of_app in Hp as [? | Hp]; [by left | right].
      apply list_elem_of_singleton in Hp as ->. done. }
    destruct (isData (kvios (mem st) !!! kvio)) eqn:Hdata.
    + assert (Hfresh0 : fresh_sector (kvios m0) bqd (getBioSector bio)).
      { eapply fresh_sector_agree; [done |].
        apply pendingSectors_fresh. by apply Hfresh. }
      destruct Hcase as [_ Hcase].
      inversion Hcase as [Hprev Hnext | P hd tl Hprev Hbl | N hd tl Hnext Hbl];
        subst bqd' m' merged.
      * destruct (tidy_notMerged (VDO_SUCCESS, VDO_SUCCESS) bqd m0 kvio bio)
          as [Hc' Hd']; try done.
        apply (tidy_update st i bqd); [done | done | done | | done | done].
        intros p Hp Hpq. cbn [add_events kvios notMerged snd].
        apply Hm0. intros ->. by apply Hallowed.
      * pose proof (getMergeableLocked_lookup _ _ _ _ _ Hprev) as HP.
        destruct (Hs0 _ _ HP) as (HPq & HPd & _).
        destruct (tidy_mergedToTail (VDO_SUCCESS, VDO_SUCCESS) bqd m0 kvio
                                    P hd tl bio) as [Hc' Hd']; try done.
        apply (tidy_update st i bqd); [done | done | done | | done | done].
        intros p Hp Hpq. cbn [mergedToTail snd kvios].
        rewrite lookup_total_insert_ne by set_solver.
        apply Hm0. intros ->. by apply Hallowed.
      * pose proof (getMergeableLocked_lookup _ _ _ _ _ Hnext) as HN.
        destruct (Hs0 _ _ HN) as (HNq & HNd & _).
        destruct (tidy_mergedToHead (VDO_SUCCESS, VDO_SUCCESS) bqd m0 kvio
                                    N hd tl bio) as [Hc' Hd']; try done.
        apply (tidy_update st i bqd); [done | done | done | | done | done].
        intros p Hp Hpq. cbn [mergedToHead snd kvios].
        rewrite lookup_total_insert_ne by set_solver.
        apply Hm0. intros ->. by apply Hallowed.
    + simplify_eq.
      assert (Hold : ∀ p, p ∈ queue bqd ++ [kvio] →
                          isData (kvios m0 !!! p) = true → p ∈ queue bqd).
      { intros p Hp Hpd. apply elem_of_app in Hp as [? | Hp]; [done |].
        apply list_elem_of_singleton in Hp as ->. congruence. }
      apply (tidy_update st i bqd); [done | done | done | | |].
      * intros p Hp Hpq. cbn [add_events kvios].
        apply Hm0. intros ->. by apply Hallowed.
      * intros p Hp Hpd. cbn [add_events kvios enqueueWorkQueue map queue]
          in *.
        apply Hc0; [by apply Hold | done].
      * destruct Hd0 as [Hin Hcross].
        split; cbn [add_events kvios enqueueWorkQueue map queue].
        -- intros p Hp Hpd. apply Hin; [by apply Hold | done].
        -- intros p q b c Hp Hq Hne Hpd Hqd.
           apply Hcross; [by apply Hold | by apply Hold | done..].
  - (* processBioMap *)
    simpl in Hexec. unfold runWorkItem in Hexec.
    destruct (bioQueueData (ioSubmitter st) !! i) as [bqd |] eqn:Hi;
      [| done].
    cbn [mbind option_bind] in Hexec.
    destruct (dequeueItem item (queue bqd)) as [rest |] eqn:Hdeq; [| done].
    cbn [mbind option_bind] in Hexec.
    destruct (processBioMap _ (mem st) item) as [bqd' m'] eqn:Hproc.
    simplify_eq.
    pose proof (sound_queues _ Hsound) as [Hnd Hsep].
    destruct (map_sound_processBioMap _ bqd _ item rest bqd' m' eq_refl
                (sound_maps _ Hsound i bqd Hi) Hdeq Hproc)
      as (Hq & Hagree & Hs).
    destruct (tidy_processBioMap _ bqd _ item rest bqd' m' eq_refl
                (Hnd i bqd Hi) (tidy_complete _ Htidy i bqd Hi)
                (tidy_distinct _ Htidy i bqd Hi) Hdeq Hproc)
      as [Hc' Hd'].
    destruct (dequeueItem_Some _ _ _ Hdeq) as (Hin & Hsub & _ & Hndr).
    apply (tidy_update st i bqd); [done | done | done | | done | done].
    intros p Hp Hpq. apply Hagree. intros ->. done.
Qed.

Lemma reachable_tidy st :
  reachable B (λ st l, allowed st l ∧ undisturbed st l) st → tidy st.
Proof.
  induction 1 as [st Hinit | st l st' _ IH [Hallowed Hund] Hexec].
  - by apply tidy_initial.
  - by eapply tidy_step.
Qed.


Lemma interior_distinct (hd : BIO) (tl : list BIO) (b : BIO) :
  NoDup (getBioSector <$> hd :: tl) → b ∈ interior (hd :: tl) →
  b ∈ hd :: tl ∧
  getBioSector b ≠ getBioSector hd ∧
  getBioSector b ≠ getBioSector (List.last tl hd).
Proof.
  intros Hnd Hb. unfold interior in Hb.
  destruct tl as [| x tl']; [set_solver |].
  pose proof (app_removelast_last hd (l := x :: tl') ltac:(done)) as Htl.
  set (mid := removelast (x :: tl')) in *.
  set (lst := List.last (x :: tl') hd) in *.
  rewrite Htl in Hnd |- *.
  rewrite fmap_cons, fmap_app in Hnd.
  apply NoDup_cons in Hnd as [Hhd Hnd].
  apply NoDup_app in Hnd as (_ & Hdisj & _).
  split_and!.
  - set_solver.
  - intros Heq. apply Hhd. rewrite <- Heq.
    apply elem_of_app. left. by apply list_elem_of_fmap_2.
  - intros Heq. apply (Hdisj (getBioSector b)).
    + by apply list_elem_of_fmap_2.
    + rewrite Heq. simpl. set_solver.
Qed.

(** Without the provisos on the insertions and on the sectors, every key
    of a bio map belongs to a queued data KVIO and is the sector of the
    head or of the tail of its list. *)
Lemma reachable_keys_are_boundaries st (i : nat) bqd key p :
  reachable B (λ st l, allowed st l ∧ fresh st l) st →
  bioQueueData (ioSubmitter st) !! i = Some bqd →
  map bqd !! key = Some p →
  p ∈ queue bqd ∧ isData (kvios (mem st) !!! p) = true ∧
  ∃ hd tl, biosMerged (kvios (mem st) !!! p) = hd :: tl ∧
           (key = getBioSector hd ∨ key = getBioSector (List.last tl hd)).
Proof.
  intros Hreach Hi Hkey.
  apply (reachable_mono B _ allowed) in Hreach; [| tauto].
  by eapply (sound_maps _ (reachable_sound st Hreach)).
Qed.

(** C2, as amended: in every state reached from empty work queues and
    bio maps by merge attempts and detachments in which a KVIO is written
    and submitted only while it is not queued, a bio is submitted only
    while it waits in no list, every map insertion succeeds and no data
    bio is submitted to a queue while a data bio pending there, at the
    head, at the tail or in the interior of a list, has its sector: every
    KVIO found in a bio map is a queued data KVIO, every queued data KVIO
    is found under exactly the sector of the head and the sector of the
    tail of its list, and no sector of a bio in the interior of its list
    is a key of the map. *)
Theorem bio_map_indexes_boundaries st (i : nat) bqd :
  reachable B (λ st l, allowed st l ∧ fresh st l ∧ undisturbed st l) st →
  bioQueueData (ioSubmitter st) !! i = Some bqd →
  (∀ key p, map bqd !! key = Some p →
            p ∈ queue bqd ∧ isData (kvios (mem st) !!! p) = true) ∧
  (∀ p, p ∈ queue bqd → isData (kvios (mem st) !!! p) = true →
     ∃ hd tl,
       biosMerged (kvios (mem st) !!! p) = hd :: tl ∧
       (∀ key, map bqd !! key = Some p ↔
               key = getBioSector hd ∨ key = getBioSector (List.last tl hd)) ∧
       (∀ b, b ∈ interior (hd :: tl) → map bqd !! getBioSector b = None)).
Proof.
  intros Hreach Hi.
  apply (reachable_mono B _ (λ st l, allowed st l ∧ undisturbed st l))
    in Hreach; [| tauto].
  pose proof (reachable_tidy st Hreach) as [Hsound Hcompl Hdist].
  pose proof (sound_maps _ Hsound i bqd Hi) as Hs.
  specialize (Hcompl i bqd Hi). destruct (Hdist i bqd Hi) as [Hin Hcross].
  split.
  - intros key p Hkey. destruct (Hs key p Hkey) as (? & ? & _). done.
  - intros p Hp Hpd. destruct (Hcompl p Hp Hpd) as (hd & tl & Hl & H1 & H2).
    exists hd, tl. split_and!; [done | |].
    + intros key. split.
      * intros Hkey. destruct (Hs key p Hkey) as (_ & _ & hd' & tl' & Hl' & Hk).
        rewrite Hl in Hl'. by simplify_eq.
      * intros [-> | ->]; done.
    + intros b Hb.
      pose proof (Hin p Hp Hpd) as Hnd. rewrite Hl in Hnd.
      destruct (interior_distinct hd tl b Hnd Hb) as (Hbl & Hne1 & Hne2).
      destruct (map bqd !! getBioSector b) as [p' |] eqn:Hkey; [| done].
      exfalso.
      destruct (Hs _ _ Hkey) as (Hp' & Hpd' & hd' & tl' & Hl' & Hk).
      destruct (decide (p' = p)) as [-> | Hne].
      * rewrite Hl in Hl'. simplify_eq. by destruct Hk.
      * assert (Hhd' : hd' ∈ biosMerged (kvios (mem st) !!! p'))
          by (rewrite Hl'; set_solver).
        assert (Hlast' : List.last tl' hd' ∈ biosMerged (kvios (mem st) !!! p'))
          by (rewrite Hl'; apply List_last_elem_of).
        destruct Hk as [Hk | Hk];
          eapply (Hcross p p'); try exact Hk; try done; by rewrite Hl.
Qed.

End BioMapProperties.

(** ** Runs from concrete states *)

Lemma runLabels_reachable B strict ls st st' :
  reachable B (λ st l, allowed st l ∧ (strict = true → undisturbed st l)) st →
  runLabels B strict ls st = Some st' →
  reachable B (λ st l, allowed st l ∧ (strict = true → undisturbed st l)) st'.
Proof.
  revert st. induction ls as [| l ls IH]; intros st Hreach Hrun; simpl in Hrun.
  - by simplify_eq.
  - case_bool_decide as Hok; [| done].
    destruct (exec B st l) as [st1 |] eqn:Hexec; [| done]. simpl in Hrun.
    apply (IH st1); [| done]. by eapply reachable_step.
Qed.

Lemma runLabels_general B ls st st' :
  initial st → runLabels B false ls st = Some st' → reachable B allowed st'.
Proof.
  intros Hinit Hrun.
  eapply (reachable_mono B _ allowed); [| eapply runLabels_reachable;
    [by apply reachable_initial | exact Hrun]].
  by intros ? ? [? _].
Qed.

Lemma runLabels_strict B ls st st' :
  initial st → runLabels B true ls st = Some st' →
  reachable B (λ st l, allowed st l ∧ undisturbed st l) st'.
Proof.
  intros Hinit Hrun.
  eapply (reachable_mono B _ (λ st l, allowed st l ∧ undisturbed st l));
    [| eapply runLabels_reachable; [by apply reachable_initial | exact Hrun]].
  intros ? ? [? Hs]. split; [done | by apply Hs].
Qed.

(** A run whose steps keep to a rule [P] stays within the states
    reachable under that rule. *)
Lemma observes_reachable B (P : State → label → Prop) strict ls st st' :
  reachable B (λ st l, allowed st l ∧ P st l) st →
  observes B P ls st → runLabels B strict ls st = Some st' →
  reachable B (λ st l, allowed st l ∧ P st l) st'.
Proof.
  revert st. induction ls as [| l ls IH]; intros st Hreach Hobs Hrun;
    simpl in Hrun, Hobs.
  - by simplify_eq.
  - case_bool_decide as Hok; [| done]. destruct Hok as [Hallowed _].
    destruct Hobs as [HP Hobs].
    destruct (exec B st l) as [st1 |] eqn:Hexec; [| done]. simpl in Hrun.
    apply (IH st1); [| done | done]. by eapply reachable_step.
Qed.

Lemma example_state_initial : initial example_state.
Proof. unfold initial. repeat constructor. Qed.

(** Without the proviso on sectors, the indexing of lists by their
    boundary sectors fails when two requests pending on a queue have the
    same sector: after two requests at sector 8 and one at sector 16,
    three bios of three KVIOs, the list of the second request holds
    sectors 8 and 16 and is found under both; processing the first request
    removes key 8, and the list, still queued, is found under its tail
    sector 16 only.  Every insertion succeeds, and no KVIO and no bio is
    submitted while it is queued or waits in a list. *)
Lemma duplicate_sector_loses_head_key :
  ∃ st bqd,
    runLabels 8 false
      [L_submitBio (0, 0) (mkBIO 11 8 WRITE 1) BIO_Q_ACTION_DATA;
       L_submitBio (0, 0) (mkBIO 12 8 WRITE 2) BIO_Q_ACTION_DATA;
       L_submitBio (0, 0) (mkBIO 13 16 WRITE 3) BIO_Q_ACTION_DATA;
       L_processBioMap 0 1]
      example_state = Some st ∧
    reachable 8 (λ st l, allowed st l ∧ fresh st l) st ∧
    bioQueueData (ioSubmitter st) !! 0%nat = Some bqd ∧
    2%positive ∈ queue bqd ∧
    isData (kvios (mem st) !!! 2%positive) = true ∧
    biosMerged (kvios (mem st) !!! 2%positive)
    = [mkBIO 12 8 WRITE 2; mkBIO 13 16 WRITE 3] ∧
    map bqd !! 16 = Some 2%positive ∧
    map bqd !! 8 = None.
Proof.
  eexists _, _. split; [vm_compute; reflexivity |].
  split.
  { eapply (observes_reachable 8 fresh false
      [L_submitBio (0, 0) (mkBIO 11 8 WRITE 1) BIO_Q_ACTION_DATA;
       L_submitBio (0, 0) (mkBIO 12 8 WRITE 2) BIO_Q_ACTION_DATA;
       L_submitBio (0, 0) (mkBIO 13 16 WRITE 3) BIO_Q_ACTION_DATA;
       L_processBioMap 0 1]);
      [apply reachable_initial, example_state_initial | |].
    - refine (bool_decide_unpack _ _). vm_compute. exact I.
    - vm_compute. reflexivity. }
  split; [reflexivity |].
  split; [cbn; set_solver |].
  repeat split.
Qed.

(** The same happens when an insertion fails: a request at sector 16
    joins the list of a request at sector 8, the insertion under the new
    tail sector fails, and the list is found under its head sector only. *)
Lemma failed_insertion_loses_tail_key :
  ∃ st bqd,
    runLabels 8 false
      [L_submitBio (0, 0) (mkBIO 11 8 WRITE 1) BIO_Q_ACTION_DATA;
       L_submitBio (0, 12) (mkBIO 12 16 WRITE 2) BIO_Q_ACTION_DATA]
      example_state = Some st ∧
    bioQueueData (ioSubmitter st) !! 0%nat = Some bqd ∧
    1%positive ∈ queue bqd ∧
    biosMerged (kvios (mem st) !!! 1%positive)
    = [mkBIO 11 8 WRITE 1; mkBIO 12 16 WRITE 2] ∧
    map bqd !! 8 = Some 1%positive ∧
    map bqd !! 16 = None.
Proof.
  eexists _, _. split; [vm_compute; reflexivity |].
  split; [reflexivity |].
  split; [cbn; set_solver |].
  repeat split.
Qed.

(** A proviso on the sectors of the heads and tails alone does not do: a
    request at sector 8 is joined by requests at sectors 0 and 16, so that
    8 is the sector of neither end of its list; a fourth request at sector
    8 finds no candidate and is put into the map under 8, a sector in the
    interior of the list of the first. *)
Lemma interior_sector_becomes_a_key :
  ∃ st bqd,
    runLabels 8 false
      [L_prepare 4 example_kvio;
       L_submitBio (0, 0) (mkBIO 11 8 WRITE 1) BIO_Q_ACTION_DATA;
       L_submitBio (0, 0) (mkBIO 12 0 WRITE 2) BIO_Q_ACTION_DATA;
       L_submitBio (0, 0) (mkBIO 13 16 WRITE 3) BIO_Q_ACTION_DATA;
       L_submitBio (0, 0) (mkBIO 14 8 WRITE 4) BIO_Q_ACTION_DATA]
      example_state = Some st ∧
    bioQueueData (ioSubmitter st) !! 0%nat = Some bqd ∧
    queue bqd = [1%positive; 4%positive] ∧
    biosMerged (kvios (mem st) !!! 1%positive)
    = [mkBIO 12 0 WRITE 2; mkBIO 11 8 WRITE 1; mkBIO 13 16 WRITE 3] ∧
    mkBIO 11 8 WRITE 1
    ∈ interior (biosMerged (kvios (mem st) !!! 1%positive)) ∧
    map bqd !! 8 = Some 4%positive.
Proof.
  eexists _, _. split; [vm_compute; reflexivity |].
  split; [reflexivity |]. split; [reflexivity |]. split; [reflexivity |].
  split; [vm_compute; repeat constructor | reflexivity].
Qed.

(** The rule [fresh] is not implied by [allowed]: a bio of KVIO 2 that
    has joined the list of KVIO 1 waits there while KVIO 2 is not queued;
    giving it to [submitBio] again, at another sector, is a step that
    [allowed] lets pass and [fresh] does not. *)
Lemma reused_bio_is_not_fresh :
  let ls := [L_submitBio (0, 0) (mkBIO 11 8 WRITE 1) BIO_Q_ACTION_DATA;
             L_submitBio (0, 0) (mkBIO 12 16 WRITE 2) BIO_Q_ACTION_DATA;
             L_submitBio (0, 0) (mkBIO 12 24 WRITE 2) BIO_Q_ACTION_DATA] in
  is_Some (runLabels 8 false ls example_state) ∧
  ¬ observes 8 fresh ls example_state.
Proof.
  split; [vm_compute; eauto |].
  refine (bool_decide_unpack _ _). vm_compute. exact I.
Qed.

Lemma bio_map_indexes_boundaries_witness :
  ∃ st bqd,
    runLabels 8 true
      [L_submitBio (0, 0) (mkBIO 11 8 WRITE 1) BIO_Q_ACTION_DATA;
       L_submitBio (0, 0) (mkBIO 12 0 WRITE 2) BIO_Q_ACTION_DATA;
       L_submitBio (0, 0) (mkBIO 13 16 WRITE 3) BIO_Q_ACTION_DATA]
      example_state = Some st ∧
    bioQueueData (ioSubmitter st) !! 0%nat = Some bqd ∧
    biosMerged (kvios (mem st) !!! 1%positive)
    = [mkBIO 12 0 WRITE 2; mkBIO 11 8 WRITE 1; mkBIO 13 16 WRITE 3] ∧
    (∀ key p, map bqd !! key = Some p →
              p ∈ queue bqd ∧ isData (kvios (mem st) !!! p) = true) ∧
    (∀ p, p ∈ queue bqd → isData (kvios (mem st) !!! p) = true →
       ∃ hd tl,
         biosMerged (kvios (mem st) !!! p) = hd :: tl ∧
         (∀ key, map bqd !! key = Some p ↔
                 key = getBioSector hd ∨ key = getBioSector (List.last tl hd)) ∧
         (∀ b, b ∈ interior (hd :: tl) → map bqd !! getBioSector b = None)).
Proof.
  eexists _, _. split; [vm_compute; reflexivity |].
  split; [reflexivity |]. split; [reflexivity |].
  apply (bio_map_indexes_boundaries 8 _ 0).
  - eapply (observes_reachable 8 (λ st l, fresh st l ∧ undisturbed st l) true
      [L_submitBio (0, 0) (mkBIO 11 8 WRITE 1) BIO_Q_ACTION_DATA;
       L_submitBio (0, 0) (mkBIO 12 0 WRITE 2) BIO_Q_ACTION_DATA;
       L_submitBio (0, 0) (mkBIO 13 16 WRITE 3) BIO_Q_ACTION_DATA]);
      [apply reachable_initial, example_state_initial | |].
    + refine (bool_decide_unpack _ _). vm_compute. exact I.
    + vm_compute. reflexivity.
  - reflexivity.
Defined.

Lemma adjacent_requests_leave_in_sector_order_witness :
  ∃ st1 st2 st3 st4,
    submitBio 8 (0, 0) example_state (mkBIO 11 8 WRITE 1) BIO_Q_ACTION_DATA
    = Some st1 ∧
    submitBio 8 (0, 0) st1 (mkBIO 12 0 WRITE 2) BIO_Q_ACTION_DATA = Some st2 ∧
    submitBio 8 (0, 0) st2 (mkBIO 13 16 WRITE 3) BIO_Q_ACTION_DATA = Some st3 ∧
    runWorkItem 0 1 st3 = Some st4 ∧
    requestsOf (trace (mem st4))
    = [mkBIO 12 0 WRITE 2; mkBIO 11 8 WRITE 1; mkBIO 13 16 WRITE 3].
Proof.
  pose proof (adjacent_requests_leave_in_sector_order 8 example_state
                (mkBIO 12 0 WRITE 2) (mkBIO 11 8 WRITE 1) (mkBIO 13 16 WRITE 3)
                BIO_Q_ACTION_DATA 0 0 (mkBioQueueData [] ∅ 0)) as Hrun.
  cbv zeta in Hrun.
  destruct Hrun
    as (st1 & st2 & st3 & st4 & bqd3 & bqd4 & H1 & H2 & H3 & H4 & _ & _ & _
        & _ & H5 & _).
  - lia.
  - lia.
  - lia.
  - lia.
  - reflexivity.
  - reflexivity.
  - reflexivity.
  - reflexivity.
  - reflexivity.
  - discriminate.
  - discriminate.
  - discriminate.
  - intros bio Hbio. repeat (apply elem_of_cons in Hbio as [-> | Hbio]);
      [split; reflexivity .. | by apply elem_of_nil in Hbio].
  - apply (eq_refl : bioQueueData (ioSubmitter example_state) !! 0%nat
                     = Some (mkBioQueueData [] ∅ 0)).
  - apply not_elem_of_nil.
  - intros key _. apply lookup_empty.
  - exists st1, st2, st3, st4. repeat split; assumption.
Defined.

Lemma getMergeableLocked_usable_witness :
  let h : gmap kvio_ptr KVIO :=
    <[1%positive := mkKVIO 0 true (mkBIO 11 0 WRITE 1) [mkBIO 11 0 WRITE 1]
                           (mkWorkItem BIO_Q_ACTION_DATA)]>
      (<[2%positive := mkKVIO 0 true (mkBIO 12 8 WRITE 2) [mkBIO 12 8 WRITE 2]
                              (mkWorkItem BIO_Q_ACTION_DATA)]> ∅) in
  getMergeableLocked 8 h (<[0 := 1%positive]> ∅) 2 ELEVATOR_BACK_MERGE
  = Some 1%positive.
Proof.
  intros h.
  apply (proj1 (getMergeableLocked_usable 8 h (<[0 := 1%positive]> ∅) 2)).
  vm_compute. repeat split; discriminate.
Defined.

Lemma tryBioMapMerge_both_candidates_witness :
  let bio := mkBIO 12 8 WRITE 2 in
  let bqd := mkBioQueueData [1; 3]%positive
               (<[0 := 1%positive]> (<[16 := 3%positive]> ∅)) 0 in
  let m := mkMem
    (<[1%positive := mkKVIO 0 true (mkBIO 11 0 WRITE 1) [mkBIO 11 0 WRITE 1]
                           (mkWorkItem BIO_Q_ACTION_DATA)]>
       (<[2%positive := mkKVIO 0 true bio [bio]
                               (mkWorkItem BIO_Q_ACTION_DATA)]>
          (<[3%positive := mkKVIO 0 true (mkBIO 13 16 WRITE 3) [mkBIO 13 16 WRITE 3]
                                  (mkWorkItem BIO_Q_ACTION_DATA)]> ∅))) [] in
  ∃ bqd' m',
    tryBioMapMerge 8 (0, 0) bqd m 2 bio = Some (bqd', m', true) ∧
    biosMerged (kvios m' !!! 3%positive) = [bio; mkBIO 13 16 WRITE 3] ∧
    kvios m' !!! 1%positive = kvios m !!! 1%positive.
Proof.
  intros bio bqd m.
  destruct (tryBioMapMerge_both_candidates 8 (0, 0) bqd m 2 bio 1 3)
    as (bqd' & m' & evs & Hres & _ & _ & _ & Hfront);
    [reflexivity | reflexivity |].
  destruct Hfront as (Hl & _ & Hp & _); [discriminate |].
  exists bqd', m'. split; [exact Hres |]. split; [exact Hl | exact Hp].
Defined.

(** The two lookups can yield the same KVIO: here its list runs from
    sector 16 to sector 0, and the request at sector 8 goes to its tail. *)
Lemma tryBioMapMerge_same_candidate :
  let bio := mkBIO 12 8 WRITE 2 in
  let bqd := mkBioQueueData [1]%positive
               (<[0 := 1%positive]> (<[16 := 1%positive]> ∅)) 0 in
  let m := mkMem
    (<[1%positive := mkKVIO 0 true (mkBIO 11 16 WRITE 1)
                           [mkBIO 11 16 WRITE 1; mkBIO 13 0 WRITE 3]
                           (mkWorkItem BIO_Q_ACTION_DATA)]>
       (<[2%positive := mkKVIO 0 true bio [bio]
                               (mkWorkItem BIO_Q_ACTION_DATA)]> ∅)) [] in
  getMergeableLocked 8 (kvios m) (map bqd) 2 ELEVATOR_BACK_MERGE
  = Some 1%positive ∧
  getMergeableLocked 8 (kvios m) (map bqd) 2 ELEVATOR_FRONT_MERGE
  = Some 1%positive ∧
  ∃ bqd' m',
    tryBioMapMerge 8 (0, 0) bqd m 2 bio = Some (bqd', m', true) ∧
    biosMerged (kvios m' !!! 1%positive)
    = [mkBIO 11 16 WRITE 1; mkBIO 13 0 WRITE 3; bio].
Proof.
  intros bio bqd m. split; [reflexivity |]. split; [reflexivity |].
  eexists _, _. split; vm_compute; reflexivity.
Qed.

Lemma processBioMap_detaches_witness :
  let bios := [mkBIO 12 0 WRITE 2; mkBIO 11 8 WRITE 1; mkBIO 13 16 WRITE 3] in
  let bqd := mkBioQueueData []
               (<[0 := 1%positive]> (<[16 := 1%positive]> ∅)) 0 in
  let m := mkMem
    (<[1%positive := mkKVIO 0 true (mkBIO 11 8 WRITE 1) bios
                           (mkWorkItem BIO_Q_ACTION_DATA)]> ∅) [] in
  ∃ bqd' m',
    processBioMap bqd m 1 = (bqd', m') ∧
    map bqd' !! 0 = None ∧ map bqd' !! 16 = None ∧
    biosMerged (kvios m' !!! 1%positive) = [] ∧
    requestsOf (trace m') = bios.
Proof.
  intros bios bqd m.
  destruct (processBioMap_detaches bqd m 1 (mkBIO 12 0 WRITE 2)
              [mkBIO 11 8 WRITE 1; mkBIO 13 16 WRITE 3])
    as (bqd' & m1 & m' & _ & Hp & _ & _ & Hh & Ht & _ & _ & _ & Hl & _ & H1
        & H2); [reflexivity | reflexivity |].
  exists bqd', m'. split; [exact Hp |]. split; [exact Hh |].
  split; [exact Ht |]. split; [exact Hl |].
  rewrite H2, H1. reflexivity.
Defined.

Lemma submitBio_merges_or_queues_witness :
  ∃ st' i,
    submitBio 8 (12, 0) example_state (mkBIO 11 8 WRITE 1) BIO_Q_ACTION_DATA
    = Some st' ∧
    enqueued example_state st' i (mkBIO 11 8 WRITE 1) ∧
    ¬ absorbed example_state st' i (mkBIO 11 8 WRITE 1).
Proof.
  destruct (submitBio_merges_or_queues 8 (12, 0) example_state
              (mkBIO 11 8 WRITE 1) BIO_Q_ACTION_DATA)
    as (st' & i & bqd & Hsub & Hroute & _ & _ & Hexcl & Hnone).
  - vm_compute. repeat split; congruence.
  - vm_compute. discriminate.
  - injection Hroute as <- <-.
    destruct Hnone as (_ & Henq & _); [reflexivity .. |].
    exists st', 0%nat. split; [exact Hsub |]. split; [exact Henq |].
    intros Habs. apply Hexcl. split; [exact Habs | exact Henq].
Defined.

(** ** Construction of the submitter *)

Lemma release_absent r (l : list resource) :
  r ∉ l → filter (λ r', r' ≠ r) l = l.
Proof.
  induction l as [| x l IH]; intros Hr; [done |].
  rewrite filter_cons_True by set_solver.
  rewrite IH by set_solver. done.
Qed.

Lemma acquired_map (i j : nat) : Res_map j ∈ acquired i → (j < i)%nat.
Proof.
  induction i as [| i IH]; simpl; [set_solver |].
  rewrite !elem_of_cons. intros [? | [? | ?]]; simplify_eq; [lia |].
  specialize (IH ltac:(done)). lia.
Qed.

Lemma acquired_queue (i j : nat) : Res_queue j ∈ acquired i → (j < i)%nat.
Proof.
  induction i as [| i IH]; simpl; [set_solver |].
  rewrite !elem_of_cons. intros [? | [? | ?]]; simplify_eq; [lia |].
  specialize (IH ltac:(done)). lia.
Qed.

Lemma finishBioQueues_held n k : held (finishBioQueues n k) = held k.
Proof. revert k. induction n as [| n IH]; intros k; [done |]. simpl. by rewrite IH. Qed.

Lemma freeBioQueues_acquired n k :
  held k = acquired n → held (freeBioQueues n k) = [Res_ioSubmitter].
Proof.
  revert k. induction n as [| n IH]; intros k Hk; [done |].
  simpl. apply IH. unfold freeIntMap, freeWorkQueue, release. simpl.
  rewrite Hk. simpl.
  rewrite (filter_cons_False _ (Res_queue n)) by (intros H; by apply H).
  rewrite (filter_cons_True _ (Res_map n)) by done.
  rewrite (filter_cons_False _ (Res_map n)) by (intros H; by apply H).
  rewrite (release_absent (Res_queue n)) by (intros H%acquired_queue; lia).
  rewrite (release_absent (Res_map n)) by (intros H%acquired_map; lia).
  done.
Qed.

Lemma countdownFrom_int (i : nat) :
  Z.of_nat i ≤ 2 ^ 31 → countdownFrom (Z.of_nat i) = i.
Proof.
  intros Hi. unfold countdownFrom, int32, wrap32.
  destruct (decide (i = 0%nat)) as [-> | Hpos]; [done |].
  rewrite Z.mod_small by lia. rewrite decide_True by lia. lia.
Qed.

(** Beyond the range of [int] the loops of [cleanupIOSubmitter] and
    [freeIOSubmitter] do not run. *)
Lemma countdownFrom_beyond_int n :
  2 ^ 31 < n ≤ 2 ^ 32 → countdownFrom n = 0%nat.
Proof.
  intros Hn. unfold countdownFrom, int32, wrap32.
  rewrite Z.mod_small by lia. rewrite decide_False by lia. lia.
Qed.

Lemma freeIOSubmitter_beyond_int s k :
  2 ^ 31 < numBioQueuesUsed s ≤ 2 ^ 32 →
  held (freeIOSubmitter s (cleanupIOSubmitter s k))
  = filter (λ r, r ≠ Res_ioSubmitter) (held k).
Proof.
  intros Hn. unfold freeIOSubmitter, cleanupIOSubmitter, release.
  by rewrite countdownFrom_beyond_int.
Qed.

(** Releasing everything a submitter with [i] queues in use holds. *)
Lemma release_all (i : nat) s k result :
  Z.of_nat i ≤ 2 ^ 31 →
  numBioQueuesUsed s = Z.of_nat i → held k = acquired i →
  held (freeIOSubmitter s (cleanupIOSubmitter s (logError result k))) = [].
Proof.
  intros Hi Hn Hk. unfold freeIOSubmitter, cleanupIOSubmitter, release.
  rewrite Hn, countdownFrom_int by done. cbn [held].
  rewrite freeBioQueues_acquired.
  - by rewrite filter_cons_False by (intros H; by apply H).
  - by rewrite finishBioQueues_held.
Qed.

Lemma makeBioQueues_failure env remaining (i : nat) s k :
  numBioQueuesUsed s = Z.of_nat i → held k = acquired i →
  Z.of_nat (i + remaining) ≤ 2 ^ 31 →
  (∃ j, (i ≤ j < i + remaining)%nat ∧
        (makeIntMap_result env j ≠ 0 ∨
         makeWorkQueue_result env j ≠ VDO_SUCCESS)) →
  ∃ result k', makeBioQueues env remaining i s k = (result, None, k') ∧
               result ≠ VDO_SUCCESS ∧ held k' = [].
Proof.
  revert i s k. induction remaining as [| remaining IH];
    intros i s k Hn Hk Hbound (j & Hj & Hfail); [lia |].
  cbn [makeBioQueues].
  destruct (decide (makeIntMap_result env i ≠ 0)) as [Hmap | Hmap].
  { eexists _, _. split; [done |]. split; [done |].
    apply (release_all i); [lia | done | done]. }
  destruct (decide (makeWorkQueue_result env i ≠ VDO_SUCCESS)) as [Hq | Hq].
  { eexists _, _. split; [done |]. split; [done |].
    cbn [USE_BIOMAP]. apply (release_all i); [lia | done |].
    unfold freeIntMap, release, acquire. cbn [held].
    rewrite filter_cons_False by (intros H; by apply H).
    rewrite Hk. apply release_absent. intros H%acquired_map. lia. }
  apply IH.
  - cbn [set_numBioQueuesUsed numBioQueuesUsed set_bioQueueData].
    rewrite Hn, wrap32_small by lia. lia.
  - unfold acquire. cbn [held]. by rewrite Hk.
  - replace (S i + remaining)%nat with (i + S remaining)%nat by lia. done.
  - exists j. split; [| done].
    destruct (decide (j = i)) as [-> | ?]; [| lia].
    destruct Hfail as [? | ?]; [by destruct Hmap | by destruct Hq].
Qed.

Lemma makeBioQueues_success env remaining (i : nat) s k :
  numBioQueuesUsed s = Z.of_nat i → held k = acquired i →
  Z.of_nat (i + remaining) < 2 ^ 32 →
  (∀ j, (i ≤ j < i + remaining)%nat →
        makeIntMap_result env j = 0 ∧
        makeWorkQueue_result env j = VDO_SUCCESS) →
  ∃ s' k', makeBioQueues env remaining i s k = (VDO_SUCCESS, Some s', k') ∧
           numBioQueuesUsed s' = Z.of_nat (i + remaining) ∧
           bioQueueRotationInterval s' = bioQueueRotationInterval s ∧
           bioQueueRotor s' = bioQueueRotor s ∧
           length (bioQueueData s') = length (bioQueueData s) ∧
           held k' = acquired (i + remaining).
Proof.
  revert i s k. induction remaining as [| remaining IH];
    intros i s k Hn Hk Hbound Hok.
  - eexists _, _. split; [done |]. rewrite Nat.add_0_r. done.
  - cbn [makeBioQueues]. destruct (Hok i ltac:(lia)) as [Hmap Hq].
    rewrite decide_False by (by rewrite Hmap; intros H; apply H).
    rewrite decide_False by (by rewrite Hq; intros H; apply H).
    edestruct (IH (S i)) as (s' & k' & Hrun & H1 & H2 & H3 & H4 & H5);
      last first.
    + eexists _, _. split; [exact Hrun |].
      replace (i + S remaining)%nat with (S i + remaining)%nat by lia.
      cbn [set_numBioQueuesUsed set_bioQueueData bioQueueRotationInterval
           bioQueueRotor bioQueueData] in *.
      rewrite length_insert in H4. done.
    + intros j Hj. apply Hok. lia.
    + replace (S i + remaining)%nat with (i + S remaining)%nat by lia. done.
    + unfold acquire. cbn [held]. by rewrite Hk.
    + cbn [set_numBioQueuesUsed numBioQueuesUsed set_bioQueueData].
      rewrite Hn, wrap32_small by lia. lia.
Qed.

(** C9: when the creation of a bio map or of a work queue fails for one
    of the queues, [makeIOSubmitter] returns an error, holds none of the
    maps, work queues or memory it acquired, and leaves the caller's
    submitter pointer as it was.  The number of threads is within the
    range of the [int] counters of the release loops. *)
Theorem makeIOSubmitter_failure_unwinds env (threadCount : nat)
    rotationInterval maxRequestsActive ioSubmitterPtr :
  Z.of_nat threadCount ≤ 2 ^ 31 →
  (∃ j, (j < threadCount)%nat ∧
        (makeIntMap_result env j ≠ 0 ∨
         makeWorkQueue_result env j ≠ VDO_SUCCESS)) →
  ∃ result k',
    makeIOSubmitter env threadCount rotationInterval maxRequestsActive
                    (mkKernel [] [] []) ioSubmitterPtr
    = (result, ioSubmitterPtr, k') ∧
    result ≠ VDO_SUCCESS ∧ held k' = [].
Proof.
  intros Hbound (j & Hj & Hfail). unfold makeIOSubmitter.
  destruct (decide (allocate_result env ≠ VDO_SUCCESS)) as [Halloc | Halloc].
  { eexists _, _. done. }
  edestruct (makeBioQueues_failure env threadCount 0) as (result & k' & -> & ? & ?);
    [| | | exists j; split; [lia | exact Hfail] |]; [done | done | done |].
  eexists _, _. done.
Qed.

(** When nothing fails, the submitter is handed to the caller with every
    queue in use. *)
Lemma makeIOSubmitter_success env (threadCount : nat)
    rotationInterval maxRequestsActive ioSubmitterPtr :
  Z.of_nat threadCount < 2 ^ 32 →
  allocate_result env = VDO_SUCCESS →
  (∀ j, (j < threadCount)%nat →
        makeIntMap_result env j = 0 ∧
        makeWorkQueue_result env j = VDO_SUCCESS) →
  ∃ s k',
    makeIOSubmitter env threadCount rotationInterval maxRequestsActive
                    (mkKernel [] [] []) ioSubmitterPtr
    = (VDO_SUCCESS, Some s, k') ∧
    numBioQueuesUsed s = Z.of_nat threadCount ∧
    bioQueueRotationInterval s = rotationInterval ∧
    bioQueueRotor s = 0 ∧
    length (bioQueueData s) = threadCount ∧
    held k' = acquired threadCount.
Proof.
  intros Hbound Halloc Hok. unfold makeIOSubmitter.
  rewrite decide_False by (by rewrite Halloc; intros H; apply H).
  edestruct (makeBioQueues_success env threadCount 0)
    as (s & k' & -> & H1 & H2 & H3 & H4 & H5);
    [| | | intros j Hj; apply Hok; lia |]; [done | done | done |].
  eexists _, _. split; [done |].
  cbn [bioQueueRotationInterval bioQueueRotor bioQueueData] in *.
  rewrite length_replicate in H4. done.
Qed.

Lemma makeIOSubmitter_failure_unwinds_witness :
  let env := mkOutcomes 0 (λ _, 0) (λ j, if decide (j = 2%nat) then 5 else 0) in
  ∃ result k',
    makeIOSubmitter env 4 8 2000 (mkKernel [] [] []) None
    = (result, None, k') ∧
    result ≠ VDO_SUCCESS ∧ held k' = [].
Proof.
  intros env.
  apply (makeIOSubmitter_failure_unwinds env 4 8 2000 None).
  - simpl. lia.
  - exists 2%nat. split; [lia |]. right. vm_compute. discriminate.
Defined.

(** ** Routing by blocks of block numbers *)

Lemma residue_quotient pbn w r :
  1 ≤ w → 1 ≤ r → (pbn mod (w * r)) / r = (pbn / r) mod w.
Proof.
  intros Hw Hr. rewrite (Z.mul_comm w r), Z.rem_mul_r by lia.
  rewrite (Z.mul_comm r), Z.div_add by lia.
  rewrite (Z.div_small (pbn mod r)) by (apply Z.mod_pos_bound; lia). lia.
Qed.

Lemma bioQueueNumberForPBN_block s pbn :
  1 ≤ numBioQueuesUsed s → 1 ≤ bioQueueRotationInterval s →
  numBioQueuesUsed s * bioQueueRotationInterval s < 2 ^ 32 →
  bioQueueNumberForPBN s pbn
  = Some ((pbn / bioQueueRotationInterval s) mod numBioQueuesUsed s).
Proof.
  intros Hw Hr Hprod.
  set (w := numBioQueuesUsed s) in *. set (r := bioQueueRotationInterval s) in *.
  assert (Hwrap : wrap32 (w * r) = w * r) by (apply wrap32_small; nia).
  rewrite bioQueueNumberForPBN_defined; fold w r; rewrite Hwrap; [| nia].
  rewrite residue_quotient by done. f_equal. apply wrap32_small.
  pose proof (Z.mod_pos_bound (pbn / r) w). nia.
Qed.

(** X1: when the product of the number of queues and the rotation
    interval fits 32 bits, the queue of a block number is the number of
    its block of [bioQueueRotationInterval] consecutive block numbers,
    reduced modulo the number of queues: block numbers of one block share
    a queue, the next block goes to the next queue (the first one after
    the last), adding [numBioQueuesUsed * bioQueueRotationInterval] to a
    block number does not change its queue, and every queue is the queue
    of some block number. *)
Theorem bioQueueNumberForPBN_deals_blocks s pbn :
  let w := numBioQueuesUsed s in
  let r := bioQueueRotationInterval s in
  1 ≤ w → 1 ≤ r → w * r < 2 ^ 32 →
  bioQueueNumberForPBN s pbn = Some ((pbn / r) mod w) ∧
  (∀ pbn', pbn' / r = pbn / r →
           bioQueueNumberForPBN s pbn' = bioQueueNumberForPBN s pbn) ∧
  bioQueueNumberForPBN s (pbn + r) = Some (((pbn / r) mod w + 1) mod w) ∧
  bioQueueNumberForPBN s (pbn + w * r) = bioQueueNumberForPBN s pbn ∧
  (∀ j, 0 ≤ j < w → bioQueueNumberForPBN s (j * r) = Some j).
Proof.
  intros w r Hw Hr Hprod. rewrite !bioQueueNumberForPBN_block by done.
  fold w r. split_and!.
  - done.
  - intros pbn' Hsame. rewrite bioQueueNumberForPBN_block by done.
    fold w r. by rewrite Hsame.
  - f_equal. replace (pbn + r) with (pbn + 1 * r) by lia.
    rewrite Z.div_add by lia. by rewrite Zplus_mod_idemp_l.
  - f_equal. rewrite Z.div_add by lia. rewrite <- Zplus_mod_idemp_r.
    rewrite Z.mod_same by lia. by rewrite Z.add_0_r.
  - intros j Hj. rewrite bioQueueNumberForPBN_block by done. fold w r.
    rewrite Z.div_mul by lia. by rewrite Z.mod_small.
Qed.

Lemma bioQueueNumberForPBN_deals_blocks_witness :
  let s := mkIOSubmitter 4 8 0 [] in
  bioQueueNumberForPBN s 45 = Some ((45 / 8) mod 4) ∧
  bioQueueNumberForPBN s (45 + 4 * 8) = bioQueueNumberForPBN s 45 ∧
  bioQueueNumberForPBN s (3 * 8) = Some 3.
Proof.
  intros s.
  destruct (bioQueueNumberForPBN_deals_blocks s 45)
    as (H1 & _ & _ & H2 & H3); [simpl; lia .. |].
  split; [exact H1 |]. split; [exact H2 |]. apply H3. simpl. lia.
Defined.

(** ** Work items routed by the rotor *)

Lemma routable_advanceBioRotor s :
  routable s →
  ∃ (j : nat) bqd,
    advanceBioRotor s
    = Some (Z.of_nat j,
            mkIOSubmitter (numBioQueuesUsed s) (bioQueueRotationInterval s)
                          (wrap32 (bioQueueRotor s + 1)) (bioQueueData s)) ∧
    Z.of_nat j
    = (bioQueueRotor s mod wrap32 (numBioQueuesUsed s
                                   * bioQueueRotationInterval s))
      / bioQueueRotationInterval s ∧
    bioQueueData s !! j = Some bqd.
Proof.
  intros (Hw & Hr & Hprod & Hlen).
  rewrite advanceBioRotor_defined by done.
  set (i := (_ mod _) / _).
  assert (Hi : 0 ≤ i < numBioQueuesUsed s).
  { apply residue_quotient_bound; [lia |].
    pose proof (wrap32_range (numBioQueuesUsed s * bioQueueRotationInterval s)).
    pose proof (wrap32_le (numBioQueuesUsed s * bioQueueRotationInterval s)).
    nia. }
  destruct (lookup_lt_is_Some_2 (bioQueueData s) (Z.to_nat i)) as [bqd Hbqd];
    [lia |].
  exists (Z.to_nat i), bqd. rewrite Z2Nat.id by lia. done.
Qed.

(** X2: on a submitter whose routing is defined, [enqueueBioWorkItem]
    puts the work item at the end of the work queue of the queue the
    rotor designates, the rotor value reduced modulo the 32-bit product
    of the number of queues and the rotation interval and divided by the
    interval; it advances the rotor by one (modulo 2^32) and changes
    nothing else: no other work queue, no bio map, neither of the two
    routing parameters. *)
Theorem enqueueBioWorkItem_appends s item :
  routable s →
  ∃ (j : nat) bqd s',
    enqueueBioWorkItem s item = Some s' ∧
    Z.of_nat j
    = (bioQueueRotor s mod wrap32 (numBioQueuesUsed s
                                   * bioQueueRotationInterval s))
      / bioQueueRotationInterval s ∧
    bioQueueData s !! j = Some bqd ∧
    bioQueueData s' !! j
    = Some (mkBioQueueData (queue bqd ++ [item]) (map bqd) (queueNumber bqd)) ∧
    (∀ j', j' ≠ j → bioQueueData s' !! j' = bioQueueData s !! j') ∧
    bioQueueRotor s' = wrap32 (bioQueueRotor s + 1) ∧
    numBioQueuesUsed s' = numBioQueuesUsed s ∧
    bioQueueRotationInterval s' = bioQueueRotationInterval s ∧
    routable s'.
Proof.
  intros Hroutable.
  destruct (routable_advanceBioRotor s Hroutable) as (j & bqd & Hadv & Hj & Hbqd).
  exists j, bqd. eexists. unfold enqueueBioWorkItem. rewrite Hadv. simpl.
  rewrite Nat2Z.id, Hbqd. simpl. split; [done |]. split; [done |].
  split; [done |]. split_and!; try done.
  - apply list_lookup_insert_eq. by eapply lookup_lt_Some.
  - intros j' Hne. by apply list_lookup_insert_ne.
  - destruct Hroutable as (? & ? & ? & ?). unfold routable. simpl.
    by rewrite length_insert.
Qed.

Lemma enqueueBioWorkItem_appends_witness :
  let s := mkIOSubmitter 2 3 4 (replicate 2 (mkBioQueueData [] ∅ 0)) in
  ∃ s', enqueueBioWorkItem s 7%positive = Some s' ∧
        bioQueueData s' !! 1%nat
        = Some (mkBioQueueData [7%positive] ∅ 0) ∧
        bioQueueData s' !! 0%nat = Some (mkBioQueueData [] ∅ 0) ∧
        bioQueueRotor s' = 5.
Proof.
  intros s.
  destruct (enqueueBioWorkItem_appends s 7%positive)
    as (j & bqd & s' & Hrun & Hj & Hbqd & Hat & Hother & Hrotor & _).
  { unfold routable. simpl. repeat split; try lia. vm_compute. discriminate. }
  assert (Z.of_nat j = 1) as Hone by (rewrite Hj; reflexivity).
  assert (j = 1%nat) as -> by lia.
  injection Hbqd as <-.
  exists s'. split; [exact Hrun |]. split; [exact Hat |].
  split; [rewrite Hother by lia; reflexivity | exact Hrotor].
Defined.

Lemma rotorRun_frame n s (i : nat) bqd l s' :
  rotorRun n s = Some (l, s') →
  rotorRun n (set_bioQueueData i bqd s) = Some (l, set_bioQueueData i bqd s').
Proof.
  revert s l s'. induction n as [| n IH]; intros s l s' Hrun; simpl in *.
  - by simplify_eq.
  - destruct (advanceBioRotor s) as [[j s1] |] eqn:Hadv; [| done].
    simpl in Hrun.
    destruct (rotorRun n s1) as [[l1 s2] |] eqn:Hrest; [| done].
    simpl in Hrun. simplify_eq.
    apply advanceBioRotor_Some in Hadv as (Hd & Hr & -> & ->).
    rewrite advanceBioRotor_defined by done. simpl.
    specialize (IH _ _ _ Hrest). unfold set_bioQueueData in IH. simpl in IH.
    rewrite IH. done.
Qed.

Lemma rotorRun_length n s l s' :
  rotorRun n s = Some (l, s') → length l = n.
Proof.
  revert s l s'. induction n as [| n IH]; intros s l s' Hrun; simpl in *.
  - by simplify_eq.
  - destruct (advanceBioRotor s) as [[j s1] |]; [| done]. simpl in Hrun.
    destruct (rotorRun n s1) as [[l1 s2] |] eqn:Hrest; [| done].
    simpl in Hrun. simplify_eq. simpl. f_equal. by eapply IH.
Qed.

Lemma itemsFor_length j l items :
  length l = length items → length (itemsFor j l items) = occurrences j l.
Proof.
  revert items. induction l as [| i l IH]; intros [| item items] Hlen;
    simpl in *; try done.
  destruct (decide (i = j)); simpl; rewrite IH by lia; done.
Qed.

Lemma itemsFor_sublist j l items : sublist (itemsFor j l items) items.
Proof.
  revert items. induction l as [| i l IH]; intros [| item items]; simpl;
    try apply sublist_nil_l.
  destruct (decide (i = j)); [by apply sublist_skip | by apply sublist_cons].
Qed.

(** What a sequence of calls of [enqueueBioWorkItem] does to the queues. *)
Lemma enqueueBioWorkItems_queues items s :
  routable s →
  ∃ l sr s',
    rotorRun (length items) s = Some (l, sr) ∧
    enqueueBioWorkItems items s = Some s' ∧
    routable s' ∧
    bioQueueRotor s' = bioQueueRotor sr ∧
    ∀ (j : nat) bqd, bioQueueData s !! j = Some bqd →
      bioQueueData s' !! j
      = Some (mkBioQueueData (queue bqd ++ itemsFor (Z.of_nat j) l items)
                             (map bqd) (queueNumber bqd)).
Proof.
  revert s. induction items as [| item items IH]; intros s Hroutable.
  - exists [], s, s. simpl. split_and!; try done.
    intros j bqd Hj. rewrite app_nil_r. by destruct bqd.
  - destruct (routable_advanceBioRotor s Hroutable)
      as (j0 & bqd0 & Hadv & Hj0 & Hbqd0).
    set (s1 := mkIOSubmitter _ _ _ _) in Hadv.
    set (s2 := set_bioQueueData j0 (enqueueWorkQueue bqd0 item) s1).
    assert (Hroutable2 : routable s2).
    { destruct Hroutable as (? & ? & ? & ?). unfold routable, s2, s1. simpl.
      by rewrite length_insert. }
    destruct (IH s2 Hroutable2) as (l & sr & s' & Hrun & Henq & Hr' & Hrot & Hq).
    assert (Hrun1 : ∃ sr1, rotorRun (length items) s1 = Some (l, sr1) ∧
                           bioQueueRotor sr1 = bioQueueRotor sr).
    { destruct (rotorRun (length items) s1) as [[l1 sr1] |] eqn:Hrun1.
      - apply (rotorRun_frame _ _ j0 (enqueueWorkQueue bqd0 item)) in Hrun1.
        fold s2 in Hrun1. rewrite Hrun in Hrun1. simplify_eq. by eexists.
      - exfalso. clear -Hrun Hrun1 Hroutable2. revert Hrun Hrun1.
        generalize (length items) l sr. intros n.
        assert (Hsame : numBioQueuesUsed s2 = numBioQueuesUsed s1 ∧
                        bioQueueRotationInterval s2
                        = bioQueueRotationInterval s1 ∧
                        bioQueueRotor s2 = bioQueueRotor s1) by done.
        revert Hsame. generalize s1 s2. clear.
        induction n as [| n IHn]; intros s1 s2 (Hw & Hr & Hrot) l sr; simpl;
          [done |].
        unfold advanceBioRotor at 1 2. rewrite Hw, Hr, Hrot.
        destruct (umod _ _) as [x |]; simpl; [| done].
        destruct (udiv _ _) as [y |]; simpl; [| done].
        destruct (rotorRun n (mkIOSubmitter _ _ _ (bioQueueData s2)))
          as [[l2 sr2] |] eqn:H2; simpl; [| done].
        destruct (rotorRun n (mkIOSubmitter _ _ _ (bioQueueData s1)))
          as [[l1 sr1] |] eqn:H1; simpl; [done |].
        intros _ _. eapply (IHn _ _ _ _ _ H2 H1). Unshelve. done. }
    destruct Hrun1 as (sr1 & Hrun1 & Hrot1).
    exists (Z.of_nat j0 :: l), sr1, s'.
    cbn [length rotorRun enqueueBioWorkItems]. rewrite Hadv. simpl.
    rewrite Hrun1. simpl.
    unfold enqueueBioWorkItem. rewrite Hadv. simpl. rewrite Nat2Z.id.
    change (bioQueueData s1) with (bioQueueData s). rewrite Hbqd0. simpl.
    fold s2. split_and!; try done; [congruence |].
    intros j bqd Hj. destruct (decide (j = j0)) as [-> | Hne].
    + rewrite decide_True by done. simplify_eq.
      rewrite (Hq j0 (enqueueWorkQueue bqd0 item)).
      * simpl. by rewrite <- app_assoc.
      * unfold s2, s1, set_bioQueueData. simpl.
        apply list_lookup_insert_eq. by eapply lookup_lt_Some.
    + rewrite decide_False by lia. apply Hq.
      unfold s2, s1, set_bioQueueData. simpl.
      by rewrite list_lookup_insert_ne.
Qed.

Lemma rotorIndices_balanced w r rotor (k : nat) j :
  1 ≤ w → 1 ≤ r → w * r < 2 ^ 32 → 0 ≤ rotor < 2 ^ 32 →
  (rotor + w * r * Z.of_nat k ≤ 2 ^ 32 ∨ (w * r | 2 ^ 32)) →
  0 ≤ j < w →
  occurrences j (rotorIndices w r rotor (Z.to_nat (w * r) * k))
  = (Z.to_nat r * k)%nat.
Proof.
  intros Hw Hr Hprod Hrot Hwin Hj. rewrite rotorIndices_occurrences.
  rewrite (countFrom_ext _ (λ t, bool_decide ((t mod (w * r)) / r = j))).
  - rewrite countFrom_periods.
    + by rewrite countFrom_one_period.
    + intros t. rewrite Z2Nat.id by nia.
      replace (t + w * r) with (t + 1 * (w * r)) by lia.
      by rewrite Z.mod_add by nia.
    + lia.
  - intros t Ht. destruct Hwin as [Hno | Hdiv].
    + rewrite wrap32_small; [done |]. nia.
    + unfold wrap32. by rewrite Z.mod_mod_divide.
Qed.

(** X3: a sequence of work items handed to [enqueueBioWorkItem] one
    after the other is dealt to the queues by the rotor: every work queue
    keeps what it had and gets some of the items behind it, in the order
    in which they were handed over, and no bio map changes.  When the
    number of items is [k] times the product of the number of queues and
    the rotation interval, and the rotor does not wrap around 2^32 on the
    way (or the product divides 2^32), every queue gets exactly
    [k * bioQueueRotationInterval] of them. *)
Theorem enqueueBioWorkItems_balanced s items (k : nat) :
  let w := numBioQueuesUsed s in
  let r := bioQueueRotationInterval s in
  routable s → w * r < 2 ^ 32 → 0 ≤ bioQueueRotor s < 2 ^ 32 →
  (bioQueueRotor s + w * r * Z.of_nat k ≤ 2 ^ 32 ∨ (w * r | 2 ^ 32)) →
  length items = (Z.to_nat (w * r) * k)%nat →
  ∃ s',
    enqueueBioWorkItems items s = Some s' ∧
    bioQueueRotor s' = wrap32 (bioQueueRotor s + Z.of_nat (length items)) ∧
    ∀ (j : nat) bqd, bioQueueData s !! j = Some bqd →
      ∃ added,
        bioQueueData s' !! j
        = Some (mkBioQueueData (queue bqd ++ added) (map bqd)
                               (queueNumber bqd)) ∧
        sublist added items ∧
        length added = (Z.to_nat r * k)%nat.
Proof.
  intros w r Hroutable Hprod Hrot Hwin Hlen.
  destruct (enqueueBioWorkItems_queues items s Hroutable)
    as (l & sr & s' & Hrun & Henq & _ & Hrotor & Hq).
  pose proof Hroutable as (Hw & Hr & Hnz & Hsize). fold w r in Hw, Hr, Hnz, Hsize.
  assert (Hwrap : wrap32 (w * r) = w * r) by (apply wrap32_small; nia).
  rewrite rotorRun_indices in Hrun; fold w r; [| done | nia | done].
  injection Hrun as <- <-.
  exists s'. split; [done |]. split; [done |].
  intros j bqd Hj. eexists. split; [by apply Hq |].
  split; [apply itemsFor_sublist |].
  assert (Hjw : 0 ≤ Z.of_nat j < w).
  { apply lookup_lt_Some in Hj. lia. }
  rewrite itemsFor_length.
  - rewrite Hlen. apply rotorIndices_balanced; [lia | lia | done ..].
  - clear. generalize (bioQueueRotor s). induction (length items); intros a;
      simpl; [done | by rewrite IHn].
Qed.

Lemma enqueueBioWorkItems_balanced_witness :
  let s := mkIOSubmitter 2 2 3 (replicate 2 (mkBioQueueData [] ∅ 0)) in
  ∃ s', enqueueBioWorkItems [1; 2; 3; 4]%positive s = Some s' ∧
        bioQueueData s' !! 0%nat = Some (mkBioQueueData [2; 3]%positive ∅ 0) ∧
        bioQueueData s' !! 1%nat = Some (mkBioQueueData [1; 4]%positive ∅ 0) ∧
        ∀ (j : nat) bqd, bioQueueData s !! j = Some bqd →
          ∃ added,
            bioQueueData s' !! j
            = Some (mkBioQueueData (queue bqd ++ added) (map bqd)
                                   (queueNumber bqd)) ∧
            sublist added [1; 2; 3; 4]%positive ∧
            length added = 2%nat.
Proof.
  intros s.
  destruct (enqueueBioWorkItems_balanced s [1; 2; 3; 4]%positive 1)
    as (s' & Hrun & _ & Hq).
  - unfold routable. simpl. repeat split; try lia. vm_compute. discriminate.
  - simpl. lia.
  - simpl. lia.
  - left. simpl. lia.
  - reflexivity.
  - exists s'. split; [exact Hrun |].
    assert (s' = mkIOSubmitter 2 2 7
                   [mkBioQueueData [2; 3]%positive ∅ 0;
                    mkBioQueueData [1; 4]%positive ∅ 0]) as Hs'.
    { vm_compute in Hrun. by injection Hrun as <-. }
    split; [rewrite Hs'; reflexivity |].
    split; [rewrite Hs'; reflexivity |]. exact Hq.
Defined.

(** ** Construction and teardown *)

Lemma finishBioQueues_effect n k :
  finishBioQueues n k
  = mkKernel (held k) (finished k ++ reverse (seq 0 n)) (logged k).
Proof.
  revert k. induction n as [| n IH]; intros k.
  - simpl. rewrite app_nil_r. by destruct k.
  - rewrite seq_S, reverse_snoc. cbn [finishBioQueues]. rewrite IH.
    unfold finishWorkQueue. cbn [held finished logged].
    by rewrite <- app_assoc.
Qed.

Lemma freeBioQueues_effect n k :
  freeBioQueues n k
  = mkKernel (filter (λ r, r = Res_ioSubmitter ∨ ¬ ownedBy n r) (held k))
             (finished k) (logged k).
Proof.
  revert k. induction n as [| n IH]; intros k.
  - simpl. destruct k as [h f l]. simpl. f_equal.
    induction h as [| r h IHh]; [done |].
    rewrite filter_cons_True; [by rewrite <- IHh |].
    destruct r; simpl; [by left | right; lia | right; lia].
  - cbn [freeBioQueues]. rewrite IH.
    unfold freeIntMap, freeWorkQueue, release. simpl. f_equal.
    rewrite !list_filter_filter. apply list_filter_iff.
    intros r. destruct r as [| i | i]; simpl; [naive_solver | |];
      (destruct (decide (i = n)) as [-> | Hne];
       [naive_solver lia |
        assert (Res_map i ≠ Res_map n) by congruence;
        assert (Res_queue i ≠ Res_queue n) by congruence;
        naive_solver lia]).
Qed.

Lemma teardown_effect s k (n : nat) :
  numBioQueuesUsed s = Z.of_nat n → Z.of_nat n ≤ 2 ^ 31 →
  freeIOSubmitter s (cleanupIOSubmitter s k)
  = mkKernel (filter (λ r, ¬ ownedBy n r) (held k))
             (finished k ++ reverse (seq 0 n)) (logged k).
Proof.
  intros Hn Hint. unfold freeIOSubmitter, cleanupIOSubmitter.
  rewrite Hn, countdownFrom_int by done.
  rewrite finishBioQueues_effect, freeBioQueues_effect.
  unfold release. simpl. f_equal.
  rewrite list_filter_filter. apply list_filter_iff.
  intros r. destruct r; simpl; naive_solver.
Qed.

Lemma acquired_owned n : filter (λ r, ¬ ownedBy n r) (acquired n) = [].
Proof.
  assert (H : ∀ m, (m ≤ n)%nat →
                   filter (λ r, ¬ ownedBy n r) (acquired m) = []);
    [| by apply H].
  induction m as [| m IH]; intros Hm; simpl.
  - by rewrite filter_cons_False by (simpl; tauto).
  - rewrite !filter_cons_False by (simpl; lia). apply IH. lia.
Qed.

(** X4: [cleanupIOSubmitter] followed by [freeIOSubmitter] tells every
    work queue in use to finish, the one created last first, and then
    releases the work queue and the bio map of every queue in use and the
    memory of the submitter; [cleanupIOSubmitter] by itself releases
    nothing, and nothing that does not belong to the submitter is
    released or logged.  The number of queues in use is within the range
    of the [int] loop counters. *)
Theorem teardown_releases_what_is_owned s k (n : nat) :
  numBioQueuesUsed s = Z.of_nat n → Z.of_nat n ≤ 2 ^ 31 →
  let k1 := cleanupIOSubmitter s k in
  let k2 := freeIOSubmitter s k1 in
  held k1 = held k ∧
  finished k1 = finished k ++ reverse (seq 0 n) ∧
  logged k1 = logged k ∧
  held k2 = filter (λ r, ¬ ownedBy n r) (held k) ∧
  finished k2 = finished k1 ∧
  logged k2 = logged k ∧
  (∀ r, r ∈ held k2 ↔ r ∈ held k ∧ ¬ ownedBy n r).
Proof.
  intros Hn Hint k1 k2.
  assert (Hk1 : k1 = mkKernel (held k) (finished k ++ reverse (seq 0 n))
                              (logged k)).
  { unfold k1, cleanupIOSubmitter. rewrite Hn, countdownFrom_int by done.
    apply finishBioQueues_effect. }
  assert (Hk2 : k2 = mkKernel (filter (λ r, ¬ ownedBy n r) (held k))
                              (finished k ++ reverse (seq 0 n)) (logged k)).
  { unfold k2, k1. by apply teardown_effect. }
  rewrite Hk1, Hk2. simpl. split_and!; try done.
  intros r. rewrite list_elem_of_filter. tauto.
Qed.

Lemma teardown_releases_what_is_owned_witness :
  let s := mkIOSubmitter 2 8 0 (replicate 2 (mkBioQueueData [] ∅ 0)) in
  let k := mkKernel (Res_map 5 :: acquired 2) [] [] in
  finished (cleanupIOSubmitter s k) = [1; 0]%nat ∧
  held (freeIOSubmitter s (cleanupIOSubmitter s k)) = [Res_map 5].
Proof.
  intros s k.
  destruct (teardown_releases_what_is_owned s k 2)
    as (_ & Hfin & _ & Hheld & _); [reflexivity | simpl; lia |].
  split; [exact Hfin | exact Hheld].
Defined.

Lemma makeBioQueues_outcome env remaining (i : nat) s k res o k' :
  makeBioQueues env remaining i s k = (res, o, k') →
  match o with
  | Some _ => res = VDO_SUCCESS ∧ finished k' = finished k ∧
              logged k' = logged k
  | None => res ≠ VDO_SUCCESS
  end.
Proof.
  revert i s k. induction remaining as [| remaining IH]; intros i s k Hq;
    simpl in Hq; [by simplify_eq |].
  destruct (decide (makeIntMap_result env i ≠ 0)); [by simplify_eq |].
  destruct (decide (makeWorkQueue_result env i ≠ VDO_SUCCESS));
    [by simplify_eq |].
  by apply IH in Hq.
Qed.

Lemma makeIOSubmitter_Some env threadCount rotationInterval
    maxRequestsActive k ioSubmitterPtr s k' :
  allocate_result env = VDO_SUCCESS →
  makeIOSubmitter env threadCount rotationInterval maxRequestsActive k
                  ioSubmitterPtr
  = (VDO_SUCCESS, Some s, k') →
  makeBioQueues env threadCount 0
    (mkIOSubmitter 0 rotationInterval 0
                   (replicate threadCount (mkBioQueueData [] ∅ 0)))
    (acquire Res_ioSubmitter k)
  = (VDO_SUCCESS, Some s, k') ∧
  finished k' = finished k ∧ logged k' = logged k.
Proof.
  intros Halloc. unfold makeIOSubmitter.
  rewrite decide_False by (by rewrite Halloc; intros H; apply H).
  destruct (makeBioQueues _ _ _ _ _) as [[res [s1 |]] k1] eqn:Hq; intros Hrun.
  - apply makeBioQueues_outcome in Hq as (-> & Hf & Hl). by simplify_eq.
  - apply makeBioQueues_outcome in Hq. by simplify_eq.
Qed.

Lemma makeBioQueues_elements env remaining (i : nat) s k s' k' :
  numBioQueuesUsed s = Z.of_nat i →
  Z.of_nat (i + remaining) < 2 ^ 32 →
  (i + remaining ≤ length (bioQueueData s))%nat →
  makeBioQueues env remaining i s k = (VDO_SUCCESS, Some s', k') →
  ∀ j : nat, (j < length (bioQueueData s))%nat →
    bioQueueData s' !! j
    = if decide (i ≤ j < i + remaining)%nat
      then Some (mkBioQueueData [] ∅ (Z.of_nat j))
      else bioQueueData s !! j.
Proof.
  revert i s k. induction remaining as [| remaining IH];
    intros i s k Hn Hbound Hlen Hrun j Hj.
  - simpl in Hrun. simplify_eq. by rewrite decide_False by lia.
  - cbn [makeBioQueues] in Hrun.
    destruct (decide (makeIntMap_result env i ≠ 0)); [done |].
    destruct (decide (makeWorkQueue_result env i ≠ VDO_SUCCESS)); [done |].
    eapply (IH (S i)) with (j := j) in Hrun.
    + rewrite Hrun.
      cbn [set_numBioQueuesUsed set_bioQueueData bioQueueData].
      destruct (decide (j = i)) as [-> | Hne].
      * rewrite decide_False, decide_True by lia.
        apply list_lookup_insert_eq. lia.
      * rewrite list_lookup_insert_ne by done.
        destruct (decide (S i ≤ j < S i + remaining)%nat);
          [by rewrite decide_True by lia | by rewrite decide_False by lia].
    + cbn [set_numBioQueuesUsed numBioQueuesUsed set_bioQueueData].
      rewrite Hn, wrap32_small by lia. lia.
    + replace (S i + remaining)%nat with (i + S remaining)%nat by lia. done.
    + cbn [set_numBioQueuesUsed set_bioQueueData bioQueueData].
      rewrite length_insert. lia.
    + cbn [set_numBioQueuesUsed set_bioQueueData bioQueueData].
      by rewrite length_insert.
Qed.

(** X5: when the allocation of the submitter and the creation of every
    bio map and work queue succeed, [makeIOSubmitter] returns
    [VDO_SUCCESS] and hands the caller a submitter with [threadCount]
    queues in use, the given rotation interval and the rotor at zero; the
    queue at position [j] has the queue number [j], an empty work queue
    and an empty bio map; the submitter holds its memory and one map and
    one work queue per thread, nothing is logged and no work queue is
    told to finish.  Such a submitter is a start of the runs considered
    below.  With at least one thread and a rotation interval of
    at least 1 whose 32-bit product with the thread count is not zero,
    the routing of the submitter is defined. *)
Theorem makeIOSubmitter_builds_numbered_queues env (threadCount : nat)
    rotationInterval maxRequestsActive ioSubmitterPtr :
  Z.of_nat threadCount < 2 ^ 32 →
  allocate_result env = VDO_SUCCESS →
  (∀ j, (j < threadCount)%nat →
        makeIntMap_result env j = 0 ∧
        makeWorkQueue_result env j = VDO_SUCCESS) →
  ∃ s,
    makeIOSubmitter env threadCount rotationInterval maxRequestsActive
                    (mkKernel [] [] []) ioSubmitterPtr
    = (VDO_SUCCESS, Some s, mkKernel (acquired threadCount) [] []) ∧
    numBioQueuesUsed s = Z.of_nat threadCount ∧
    bioQueueRotationInterval s = rotationInterval ∧
    bioQueueRotor s = 0 ∧
    length (bioQueueData s) = threadCount ∧
    (∀ j : nat, (j < threadCount)%nat →
       bioQueueData s !! j = Some (mkBioQueueData [] ∅ (Z.of_nat j))) ∧
    numbered s ∧
    (∀ m, initial (mkState s m)) ∧
    (1 ≤ Z.of_nat threadCount → 1 ≤ rotationInterval < 2 ^ 32 →
     wrap32 (Z.of_nat threadCount * rotationInterval) ≠ 0 → routable s).
Proof.
  intros Hbound Halloc Hok.
  destruct (makeIOSubmitter_success env threadCount rotationInterval
              maxRequestsActive ioSubmitterPtr Hbound Halloc Hok)
    as (s & k' & Hrun & Hn & Hr & Hrot & Hlen & Hheld).
  destruct (makeIOSubmitter_Some _ _ _ _ _ _ _ _ Halloc Hrun)
    as (Hq & Hf & Hl).
  assert (Hk' : k' = mkKernel (acquired threadCount) [] []).
  { destruct k' as [h f l]. simpl in *. by subst. }
  subst k'. exists s.
  assert (Hel : ∀ j : nat, (j < threadCount)%nat →
            bioQueueData s !! j = Some (mkBioQueueData [] ∅ (Z.of_nat j))).
  { intros j Hj.
    pose proof (λ H1 H2 H3, makeBioQueues_elements _ _ _ _ _ _ _ H1 H2 H3 Hq j)
      as Hel.
    rewrite Hel; [by rewrite decide_True by lia | done | done | |];
      simpl; rewrite length_replicate; lia. }
  split; [done |]. split_and!; try done.
  - intros j bqd Hj. pose proof (lookup_lt_Some _ _ _ Hj) as Hlt.
    rewrite Hel in Hj by lia. by simplify_eq.
  - intros m. unfold initial. apply Forall_lookup. intros j bqd Hj.
    cbn [ioSubmitter] in Hj. pose proof (lookup_lt_Some _ _ _ Hj) as Hlt.
    rewrite Hel in Hj by lia. by simplify_eq.
  - intros Hw Hri Hnz. unfold routable. rewrite Hn, Hr, Hlen. done.
Qed.

Lemma makeIOSubmitter_builds_numbered_queues_witness :
  let env := mkOutcomes 0 (λ _, 0) (λ _, 0) in
  ∃ s, makeIOSubmitter env 3 8 2000 (mkKernel [] [] []) None
       = (VDO_SUCCESS, Some s, mkKernel (acquired 3) [] []) ∧
       bioQueueData s !! 2%nat = Some (mkBioQueueData [] ∅ 2) ∧
       routable s.
Proof.
  intros env.
  destruct (makeIOSubmitter_builds_numbered_queues env 3 8 2000 None)
    as (s & Hrun & _ & _ & _ & _ & Hq & _ & _ & Hroutable).
  - simpl. lia.
  - reflexivity.
  - intros j _. split; reflexivity.
  - exists s. split; [exact Hrun |]. split; [apply Hq; lia |].
    apply Hroutable; [simpl; lia | lia | vm_compute; discriminate].
Defined.

Lemma makeBioQueues_first_failure env remaining (i j : nat) s k :
  numBioQueuesUsed s = Z.of_nat i → held k = acquired i →
  Z.of_nat (i + remaining) ≤ 2 ^ 31 →
  (i ≤ j < i + remaining)%nat →
  (∀ t, (i ≤ t < j)%nat →
        makeIntMap_result env t = 0 ∧
        makeWorkQueue_result env t = VDO_SUCCESS) →
  (makeIntMap_result env j ≠ 0 ∨ makeWorkQueue_result env j ≠ VDO_SUCCESS) →
  makeBioQueues env remaining i s k
  = (firstError env j, None,
     mkKernel [] (finished k ++ reverse (seq 0 j))
              (logged k ++ [firstError env j])).
Proof.
  revert i s k. induction remaining as [| remaining IH];
    intros i s k Hn Hk Hbound Hj Hok Hfail; [lia |].
  cbn [makeBioQueues]. destruct (decide (i = j)) as [-> | Hne].
  - unfold firstError.
    destruct (decide (makeIntMap_result env j ≠ 0)) as [Hmap | Hmap].
    { rewrite (teardown_effect _ _ j) by (done || lia). simpl.
      by rewrite Hk, acquired_owned. }
    rewrite decide_True by (destruct Hfail; done).
    cbn [USE_BIOMAP].
    rewrite (teardown_effect _ _ j) by (done || lia). simpl.
    rewrite filter_cons_False by (intros H; by apply H).
    rewrite Hk, release_absent by (intros H%acquired_map; lia).
    by rewrite acquired_owned.
  - destruct (Hok i ltac:(lia)) as [Hmap Hq].
    rewrite decide_False by (by rewrite Hmap; intros H; apply H).
    rewrite decide_False by (by rewrite Hq; intros H; apply H).
    rewrite (IH (S i)); [done | | | | lia | | done].
    + cbn [set_numBioQueuesUsed numBioQueuesUsed set_bioQueueData].
      rewrite Hn, wrap32_small by lia. lia.
    + unfold acquire. cbn [held]. by rewrite Hk.
    + replace (S i + remaining)%nat with (i + S remaining)%nat by lia. done.
    + intros t Ht. apply Hok. lia.
Qed.

(** X6: when the allocation succeeds and queue [j] is the first for
    which the creation of the bio map or of the work queue fails,
    [makeIOSubmitter] returns the result code of that call (the map is
    created before the work queue), logs this one error, tells the work
    queues created before to finish, the one created last first, holds
    nothing any more and leaves the caller's pointer as it was. *)
Theorem makeIOSubmitter_returns_first_error env (threadCount j : nat)
    rotationInterval maxRequestsActive ioSubmitterPtr :
  Z.of_nat threadCount ≤ 2 ^ 31 →
  allocate_result env = VDO_SUCCESS →
  (j < threadCount)%nat →
  (∀ t, (t < j)%nat →
        makeIntMap_result env t = 0 ∧
        makeWorkQueue_result env t = VDO_SUCCESS) →
  (makeIntMap_result env j ≠ 0 ∨ makeWorkQueue_result env j ≠ VDO_SUCCESS) →
  makeIOSubmitter env threadCount rotationInterval maxRequestsActive
                  (mkKernel [] [] []) ioSubmitterPtr
  = (firstError env j, ioSubmitterPtr,
     mkKernel [] (reverse (seq 0 j)) [firstError env j]) ∧
  firstError env j ≠ VDO_SUCCESS.
Proof.
  intros Hbound Halloc Hj Hok Hfail. split.
  - unfold makeIOSubmitter.
    rewrite decide_False by (by rewrite Halloc; intros H; apply H).
    rewrite (makeBioQueues_first_failure env threadCount 0 j);
      [done | done | done | done | lia | | done].
    intros t Ht. apply Hok. lia.
  - unfold firstError. destruct (decide (makeIntMap_result env j ≠ 0)); [done |].
    destruct Hfail; done.
Qed.

Lemma makeIOSubmitter_returns_first_error_witness :
  let env := mkOutcomes 0 (λ _, 0)
                        (λ j, if decide (2 ≤ j)%nat then 5 else 0) in
  makeIOSubmitter env 4 8 2000 (mkKernel [] [] []) None
  = (5, None, mkKernel [] [1; 0]%nat [5]).
Proof.
  intros env.
  apply (makeIOSubmitter_returns_first_error env 4 2 8 2000 None).
  - simpl. lia.
  - reflexivity.
  - lia.
  - intros t Ht. split; [reflexivity |]. simpl.
    destruct (decide (2 ≤ t)%nat); [lia | reflexivity].
  - right. vm_compute. discriminate.
Defined.

(** X7: a submitter made by [makeIOSubmitter] and then given to
    [cleanupIOSubmitter] and [freeIOSubmitter] leaves nothing held: every
    work queue has been told to finish exactly once, the one created last
    first, before the work queues, the bio maps and the memory of the
    submitter are released. *)
Theorem makeIOSubmitter_then_teardown env (threadCount : nat)
    rotationInterval maxRequestsActive ioSubmitterPtr :
  Z.of_nat threadCount ≤ 2 ^ 31 →
  allocate_result env = VDO_SUCCESS →
  (∀ j, (j < threadCount)%nat →
        makeIntMap_result env j = 0 ∧
        makeWorkQueue_result env j = VDO_SUCCESS) →
  ∃ s k,
    makeIOSubmitter env threadCount rotationInterval maxRequestsActive
                    (mkKernel [] [] []) ioSubmitterPtr
    = (VDO_SUCCESS, Some s, k) ∧
    held k = acquired threadCount ∧
    cleanupIOSubmitter s k
    = mkKernel (acquired threadCount) (reverse (seq 0 threadCount)) [] ∧
    freeIOSubmitter s (cleanupIOSubmitter s k)
    = mkKernel [] (reverse (seq 0 threadCount)) [].
Proof.
  intros Hbound Halloc Hok.
  destruct (makeIOSubmitter_success env threadCount rotationInterval
              maxRequestsActive ioSubmitterPtr ltac:(lia) Halloc Hok)
    as (s & k & Hrun & Hn & _ & _ & _ & Hheld).
  assert (Hk : finished k = [] ∧ logged k = []).
  { by destruct (makeIOSubmitter_Some _ _ _ _ _ _ _ _ Halloc Hrun)
      as (_ & ? & ?). }
  destruct Hk as [Hf Hl]. exists s, k. split; [done |]. split; [done |].
  split.
  - unfold cleanupIOSubmitter. rewrite Hn, countdownFrom_int by done.
    rewrite finishBioQueues_effect, Hheld, Hf, Hl. done.
  - rewrite (teardown_effect s k threadCount) by done.
    by rewrite Hheld, acquired_owned, Hf, Hl.
Qed.

Lemma makeIOSubmitter_then_teardown_witness :
  let env := mkOutcomes 0 (λ _, 0) (λ _, 0) in
  ∃ s k, makeIOSubmitter env 3 8 2000 (mkKernel [] [] []) None
         = (VDO_SUCCESS, Some s, k) ∧
         freeIOSubmitter s (cleanupIOSubmitter s k)
         = mkKernel [] [2; 1; 0]%nat [].
Proof.
  intros env.
  destruct (makeIOSubmitter_then_teardown env 3 8 2000 None)
    as (s & k & Hrun & _ & _ & Hfree).
  - simpl. lia.
  - reflexivity.
  - intros j _. split; reflexivity.
  - exists s, k. split; [exact Hrun | exact Hfree].
Defined.

Section RunProperties.

Variable VDO_SECTORS_PER_BLOCK : Z.
Local Abbreviation B := VDO_SECTORS_PER_BLOCK.

(** Every step of a run has one of the effects of [effect]. *)
Lemma exec_effect st l st' :
  sound st → allowed st l → exec B st l = Some st' → effect B st l st'.
Proof.
  intros Hsound Hallowed Hexec. destruct l as [p k | puts bio act | i item].
  - simpl in Hexec. simplify_eq. constructor.
  - simpl in Hexec, Hallowed.
    destruct (submitBio_routed _ _ _ _ _ _ Hexec) as (i & bqd & Hroute).
    pose proof (bioQueueDataForPBN_lookup _ _ _ _ Hroute) as Hi.
    assert (Hnum : bioQueueNumberForPBN (ioSubmitter st)
                     (physical (kvios (mem st) !!! bi_private bio))
                   = Some (Z.of_nat i)).
    { revert Hroute. unfold bioQueueDataForPBN.
      destruct (bioQueueNumberForPBN _ _) as [n |] eqn:Hn; [| done]. simpl.
      destruct (bioQueueData _ !! Z.to_nat n) eqn:Hl; [| done]. simpl.
      intros [= <- <-]. f_equal.
      apply bioQueueNumberForPBN_Some in Hn as (_ & _ & ->).
      pose proof (wrap32_range
        ((physical (kvios (mem st) !!! bi_private bio)
          mod wrap32 (numBioQueuesUsed (ioSubmitter st)
                      * bioQueueRotationInterval (ioSubmitter st)))
         / bioQueueRotationInterval (ioSubmitter st))). lia. }
    destruct (submitBio_eq B puts st bio act i bqd Hroute)
      as (bqd' & m' & merged & Hsub & Hcase).
    destruct (submitBio_frame st bio act i bqd Hallowed Hi)
      as (Hk & Hm0 & Hm0q & Hdata0 & Hown).
    set (kvio := bi_private bio) in *.
    set (m0 := add_events _ (set_kvio kvio _ (mem st))) in *.
    assert (Hkv0 : kvios m0
                   = <[kvio := setupKVIO bio act (kvios (mem st) !!! kvio)]>
                       (kvios (mem st))) by done.
    assert (Htr0 : trace m0 = trace (mem st) ++ [Ev_bio_list_init kvio])
      by done.
    assert (Hsetup : kvios m0 !!! kvio
                     = setupKVIO bio act (kvios (mem st) !!! kvio))
      by apply kvios_set_kvio_eq.
    clearbody m0.
    rewrite Hexec in Hsub. injection Hsub as ->.
    pose proof (sound_maps _ Hsound i bqd Hi) as Hs.
    assert (Hs0 : map_sound (kvios m0) bqd) by (by eapply map_sound_agree).
    destruct (isData (kvios (mem st) !!! kvio)) eqn:Hdata.
    + destruct Hcase as [_ Hcase].
      inversion Hcase as [Hprev Hnext | P hd tl Hprev Hbl | N hd tl Hnext Hbl];
        subst bqd' m' merged.
      * unfold notMerged, enqueueWorkQueue, add_events.
        cbn [fst snd set_map queue map queueNumber kvios trace].
        rewrite Hkv0, Htr0, <- !app_assoc.
        apply (effect_enqueue B st puts bio act i bqd); [done | done |].
        right. split; [exact Hdata | done].
      * pose proof (getMergeableLocked_lookup _ _ _ _ _ _ Hprev) as HP.
        destruct (Hs0 _ _ HP) as (HPq & HPd & _).
        assert (HPk : P ≠ kvio) by set_solver.
        destruct (getMergeableLocked_spec B (kvios m0) (map bqd) kvio)
          as [Hback _].
        apply Hback in Hprev as (_ & (Hact & Hdir & _) & Htail).
        rewrite Hsetup in Hact, Hdir, Htail. rewrite Hbl in Htail.
        rewrite bio_list_tail_cons in Htail. simpl in Htail, Hact, Hdir.
        rewrite Hm0 in Hact, Hdir, Hbl, HPd by done.
        unfold mergedToTail, set_map.
        cbn [fst snd queue map queueNumber kvios trace].
        rewrite Hown, (Hm0 P) by done. rewrite Hkv0, Htr0, <- !app_assoc.
        rewrite last_app_singleton.
        apply (effect_absorb B st puts bio act i bqd _ P hd tl true);
          try done. by simplify_eq.
      * pose proof (getMergeableLocked_lookup _ _ _ _ _ _ Hnext) as HN.
        destruct (Hs0 _ _ HN) as (HNq & HNd & _).
        assert (HNk : N ≠ kvio) by set_solver.
        destruct (getMergeableLocked_spec B (kvios m0) (map bqd) kvio)
          as [_ Hfront].
        apply Hfront in Hnext as (_ & (Hact & Hdir & _) & Hhead).
        rewrite Hsetup in Hact, Hdir, Hhead. rewrite Hbl in Hhead.
        simpl in Hhead, Hact, Hdir.
        rewrite Hm0 in Hact, Hdir, Hbl, HNd by done.
        unfold mergedToHead, set_map.
        cbn [fst snd queue map queueNumber kvios trace].
        rewrite Hown, (Hm0 N) by done. rewrite Hkv0, Htr0, <- !app_assoc.
        cbn [List.hd app].
        apply (effect_absorb B st puts bio act i bqd _ N hd tl false);
          try done. by simplify_eq.
    + simplify_eq. unfold enqueueWorkQueue, add_events.
      cbn [queue map queueNumber kvios trace].
      rewrite Hkv0, Htr0, <- !app_assoc.
      apply (effect_enqueue B st puts bio act i bqd (map bqd) []);
        [done | done |].
      left. split; [exact Hdata | done].
  - simpl in Hexec. unfold runWorkItem in Hexec.
    destruct (bioQueueData (ioSubmitter st) !! i) as [bqd |] eqn:Hi;
      [| done].
    cbn [mbind option_bind] in Hexec.
    destruct (dequeueItem item (queue bqd)) as [rest |] eqn:Hdeq; [| done].
    cbn [mbind option_bind] in Hexec.
    destruct (processBioMap _ (mem st) item) as [bqd' m'] eqn:Hproc.
    simplify_eq.
    unfold processBioMap, detachBioList in Hproc.
    pose proof (effect_process B st i item bqd rest) as Heff.
    unfold pendingBios in Heff.
    destruct (USE_BIOMAP && isData (kvios (mem st) !!! item)) eqn:Hdata.
    + destruct (biosMerged (kvios (mem st) !!! item)) as [| hd tl] eqn:Hbl;
        rewrite sendBioList_eq in Hproc;
        cbn [queueNumber map queue set_map add_events set_kvio kvios trace
             bio_list_init app removals] in Hproc;
        simplify_eq; rewrite <- !app_assoc; by apply Heff.
    + unfold sendBioToDevice, add_events in Hproc. simplify_eq.
      by apply Heff.
Qed.

(** *** Every bio submitted is handed to the device once *)

Lemma queues_insert_perm (l : list BioQueueData) (i : nat) bqd bqd' :
  l !! i = Some bqd →
  mjoin (queue <$> <[i := bqd']> l) ++ queue bqd
  ≡ₚ mjoin (queue <$> l) ++ queue bqd'.
Proof.
  revert i. induction l as [| b l IH]; intros [| i] Hi; simpl in *; simplify_eq.
  - solve_Permutation.
  - rewrite <- !app_assoc. by rewrite IH.
Qed.

Lemma queues_separate_NoDup (l : list BioQueueData) :
  queues_separate l → NoDup (mjoin (queue <$> l)).
Proof.
  induction l as [| b l IH]; intros [Hnd Hsep]; simpl; [constructor |].
  apply NoDup_app. split_and!.
  - by apply (Hnd 0%nat).
  - intros p Hp Hq. apply list_elem_of_join in Hq as (q & Hpq & Hq).
    apply list_elem_of_fmap in Hq as (bj & -> & Hq).
    apply list_elem_of_lookup in Hq as [j Hj].
    by specialize (Hsep 0%nat (S j) b bj p eq_refl Hj Hp Hpq).
  - apply IH. split.
    + intros i bqd Hi. by apply (Hnd (S i)).
    + intros i j bi bj p Hi Hj Hp Hq.
      by specialize (Hsep (S i) (S j) bi bj p Hi Hj Hp Hq) as [= ->].
Qed.

Lemma dequeueItem_perm item q rest :
  dequeueItem item q = Some rest → q ≡ₚ item :: rest.
Proof.
  revert rest. induction q as [| x q IH]; intros rest Hdeq; simpl in Hdeq;
    [done |].
  destruct (decide (x = item)) as [-> | Hne]; [by simplify_eq |].
  destruct (dequeueItem item q) as [rest' |]; simpl in Hdeq; simplify_eq.
  rewrite (IH rest' eq_refl). apply Permutation_swap.
Qed.

Lemma bind_agree {A C} (f g : A → list C) (l : list A) :
  (∀ x, x ∈ l → f x = g x) → l ≫= f = l ≫= g.
Proof.
  induction l as [| x l IH]; intros H; [done |].
  rewrite !bind_cons, H, IH; [done | | ]; set_solver.
Qed.

Lemma pendingBios_agree h h' p :
  h' !!! p = h !!! p → pendingBios h' p = pendingBios h p.
Proof. intros H. unfold pendingBios. by rewrite H. Qed.

Lemma requestsOf_requests l :
  requestsOf (Ev_generic_make_request <$> l) = l.
Proof. induction l as [| b l IH]; [done |]. simpl. f_equal. exact IH. Qed.

Lemma requestsOf_removals q bl : requestsOf (removals q bl) = [].
Proof. by destruct bl. Qed.

Lemma queued_items_NoDup st :
  sound st → NoDup (mjoin (queue <$> bioQueueData (ioSubmitter st))).
Proof. intros Hsound. apply queues_separate_NoDup, Hsound. Qed.

Lemma conservation_step st l st' :
  sound st → allowed st l → exec B st l = Some st' →
  requestsOf (trace (mem st')) ++ pending st'
  ≡ₚ (requestsOf (trace (mem st)) ++ pending st) ++ submittedBios [l].
Proof.
  intros Hsound Hallowed Hexec.
  pose proof (queued_items_NoDup st Hsound) as Hnd.
  pose proof (exec_effect st l st' Hsound Hallowed Hexec) as Heff.
  unfold pending.
  set (Q := mjoin (queue <$> bioQueueData (ioSubmitter st))) in *.
  destruct Heff as [p k
                   | puts bio act i bqd mp evs kvio k q Hnum Hi Hevs
                   | puts bio act i bqd mp target hd tl atTail kvio k kt q
                       Hnum Hi Hdata Htq Htk Htd Hbl Hact Hdir Hadj
                   | i item bqd rest mp k q Hi Hdeq];
    cbn [ioSubmitter mem kvios trace set_bioQueueData bioQueueData
         submittedBios set_kvio]; unfold submittedBios;
    rewrite ?bind_singleton.
  - (* the owner writes a KVIO that is not queued *)
    rewrite app_nil_r. fold Q. f_equiv.
    rewrite (bind_agree (pendingBios (<[p := k]> (kvios (mem st)))) (pendingBios (kvios (mem st)))); [done |].
    intros x Hx. apply pendingBios_agree, lookup_total_insert_ne.
    intros ->. by apply Hallowed.
  - (* the KVIO of the bio is queued *)
    assert (HQ : mjoin (queue <$> <[i := mkBioQueueData (queue bqd ++ [kvio])
                                          mp q]>
                                  (bioQueueData (ioSubmitter st)))
                 ≡ₚ Q ++ [kvio]).
    { apply (Permutation_app_inv_r (queue bqd)).
      rewrite (queues_insert_perm _ i bqd) by done. simpl. fold Q.
      solve_Permutation. }
    rewrite HQ, bind_app, bind_singleton.
    assert (Hreq : requestsOf (trace (mem st) ++ [Ev_bio_list_init kvio]
                               ++ evs ++ [Ev_enqueue q kvio])
                   = requestsOf (trace (mem st))).
    { rewrite !requestsOf_app.
      destruct Hevs as [[_ ->] | [_ ->]]; simpl; by rewrite app_nil_r. }
    rewrite Hreq.
    rewrite (bind_agree (pendingBios (<[kvio := setupKVIO bio act k]> (kvios (mem st))))
                        (pendingBios (kvios (mem st)))).
    + assert (pendingBios (<[kvio := setupKVIO bio act k]> (kvios (mem st))) kvio = [bio])
        as ->; [| by rewrite app_assoc].
      unfold pendingBios. rewrite lookup_total_insert_eq. simpl.
      by destruct (isData k).
    + intros x Hx. apply pendingBios_agree, lookup_total_insert_ne.
      intros Heq. apply Hallowed. unfold queued. fold Q.
      rewrite <- Heq in Hx. exact Hx.
  - (* the bio joins the list of [target] *)
    assert (HQ : mjoin (queue <$> <[i := mkBioQueueData (queue bqd) mp q]>
                                  (bioQueueData (ioSubmitter st)))
                 ≡ₚ Q).
    { apply (Permutation_app_inv_r (queue bqd)).
      by rewrite (queues_insert_perm _ i bqd) by done. }
    rewrite HQ.
    assert (HtQ : target ∈ Q).
    { apply list_elem_of_join. exists (queue bqd). split; [done |].
      apply list_elem_of_fmap. exists bqd. split; [done |].
      by eapply list_elem_of_lookup_2. }
    apply elem_of_Permutation in HtQ as [Q0 HQ0].
    assert (Ht0 : target ∉ Q0).
    { rewrite HQ0 in Hnd. by apply NoDup_cons in Hnd as [? _]. }
    assert (Hk0 : kvio ∉ Q0).
    { intros Hk0. apply Hallowed. unfold queued. fold Q. rewrite HQ0.
      set_solver. }
    assert (Hreq : requestsOf
                     (trace (mem st)
                      ++ Ev_bio_list_init kvio
                         :: (if atTail
                          then [Ev_mutex_lock q;
                                Ev_intMapRemove q (getBioSector (List.last tl hd));
                                Ev_intMapPut q (getBioSector hd) target puts.1;
                                Ev_intMapPut q (getBioSector bio) target puts.2;
                                Ev_mutex_unlock q]
                          else [Ev_mutex_lock q;
                                Ev_intMapRemove q (getBioSector hd);
                                Ev_intMapPut q (getBioSector bio) target puts.1;
                                Ev_intMapPut q (getBioSector (List.last tl hd))
                                             target puts.2;
                                Ev_mutex_unlock q]))
                   = requestsOf (trace (mem st))).
    { rewrite requestsOf_app. destruct atTail; simpl; by rewrite app_nil_r. }
    rewrite Hreq, HQ0, !bind_cons.
    rewrite (bind_agree (pendingBios (<[target := _]> _)) (pendingBios (kvios (mem st))) Q0).
    + unfold pendingBios at 1 3. rewrite lookup_total_insert_eq.
      fold kt. cbn [set_biosMerged isData biosMerged]. rewrite Htd, Hbl.
      cbn [USE_BIOMAP andb]. destruct atTail; solve_Permutation.
    + intros x Hx. apply pendingBios_agree.
      rewrite !lookup_total_insert_ne; [done | |]; intros ->; done.
  - (* the work function runs for a queued item *)
    assert (HQ : Q ≡ₚ item :: mjoin (queue <$> <[i := mkBioQueueData rest mp q]>
                                              (bioQueueData (ioSubmitter st)))).
    { apply (Permutation_app_inv_r rest). cbn [app].
      rewrite Permutation_middle.
      rewrite <- (dequeueItem_perm _ _ _ Hdeq).
      by rewrite (queues_insert_perm _ i bqd) by done. }
    set (Q' := mjoin (queue <$> <[i := mkBioQueueData rest mp q]>
                                  (bioQueueData (ioSubmitter st)))) in *.
    assert (Hi' : item ∉ Q').
    { rewrite HQ in Hnd. by apply NoDup_cons in Hnd as [? _]. }
    rewrite app_nil_r, !requestsOf_app, requestsOf_requests.
    assert (requestsOf (if USE_BIOMAP && isData k
                        then Ev_mutex_lock q :: removals q (biosMerged k)
                             ++ [Ev_bio_list_init item; Ev_mutex_unlock q]
                        else []) = []) as ->.
    { destruct (USE_BIOMAP && isData k); [| done]. simpl.
      by rewrite requestsOf_app, requestsOf_removals. }
    rewrite HQ, bind_cons. cbn [app].
    rewrite (bind_agree (pendingBios _) (pendingBios (kvios (mem st))) Q').
    + by rewrite <- app_assoc.
    + intros x Hx. apply pendingBios_agree.
      destruct (USE_BIOMAP && isData k); [| done].
      apply lookup_total_insert_ne. by intros ->.
Qed.

Lemma conservation_run ls st0 st :
  sound st0 → runLabels B false ls st0 = Some st →
  sound st ∧
  requestsOf (trace (mem st)) ++ pending st
  ≡ₚ (requestsOf (trace (mem st0)) ++ pending st0) ++ submittedBios ls.
Proof.
  revert st0. induction ls as [| l ls IH]; intros st0 Hsound Hrun;
    simpl in Hrun.
  - simplify_eq. split; [done |]. unfold submittedBios. simpl.
    by rewrite app_nil_r.
  - case_bool_decide as Hok; [| done]. destruct Hok as [Hallowed _].
    destruct (exec B st0 l) as [st1 |] eqn:Hexec; [| done]. simpl in Hrun.
    destruct (IH st1 (sound_step B _ _ _ Hsound Hallowed Hexec) Hrun)
      as [Hs Hperm].
    split; [done |]. rewrite Hperm.
    rewrite (conservation_step st0 l st1 Hsound Hallowed Hexec).
    assert (submittedBios (l :: ls) = submittedBios [l] ++ submittedBios ls)
      as -> by (unfold submittedBios; by rewrite (bind_cons _ l ls),
                                                 bind_singleton).
    by rewrite <- !app_assoc.
Qed.

Lemma pending_empty st :
  Forall (λ bqd, queue bqd = []) (bioQueueData (ioSubmitter st)) →
  pending st = [].
Proof.
  intros Hempty. unfold pending.
  assert (mjoin (queue <$> bioQueueData (ioSubmitter st)) = []) as ->; [| done].
  apply join_nil_2. by apply Forall_fmap.
Qed.

(** What a step hands to the device and what it leaves waiting. *)
Lemma sent_step st l st' :
  sound st → allowed st l → exec B st l = Some st' →
  ∃ sent,
    requestsOf (trace (mem st')) = requestsOf (trace (mem st)) ++ sent ∧
    sent ++ pending st' ≡ₚ pending st ++ submittedBios [l].
Proof.
  intros Hsound Hallowed Hexec.
  assert (∃ evs, trace (mem st') = trace (mem st) ++ evs) as [evs Htr].
  { destruct (exec_effect st l st' Hsound Hallowed Hexec);
      cbn [mem trace set_kvio]; [exists []; by rewrite app_nil_r | eauto ..]. }
  exists (requestsOf evs). split; [by rewrite Htr, requestsOf_app |].
  pose proof (conservation_step st l st' Hsound Hallowed Hexec) as Hperm.
  rewrite Htr, requestsOf_app, <- !app_assoc in Hperm.
  by apply Permutation_app_inv_l in Hperm.
Qed.

(** A bio that waits in no list is given to [submitBio]: afterwards, as
    before, no bio waits twice. *)
Lemma distinct_step st l st' :
  sound st → allowed st l → fresh st l → exec B st l = Some st' →
  NoDup (bio_address <$> pending st) → NoDup (bio_address <$> pending st').
Proof.
  intros Hsound Hallowed Hfresh Hexec Hnd.
  destruct (sent_step st l st' Hsound Hallowed Hexec) as (sent & _ & Hperm).
  assert (Hall : NoDup (bio_address <$> pending st ++ submittedBios [l])).
  { rewrite fmap_app. apply NoDup_app. split; [done |].
    unfold submittedBios. rewrite bind_singleton.
    destruct l as [| puts bio act |]; simpl;
      [split; [set_solver | constructor] | | split; [set_solver | constructor]].
    split; [| apply NoDup_singleton].
    intros a Ha Hb. apply list_elem_of_singleton in Hb as ->.
    apply list_elem_of_fmap in Ha as (b & Hab & Hb).
    simpl in Hfresh. rewrite Forall_forall in Hfresh. by apply (Hfresh b). }
  rewrite <- Hperm, fmap_app in Hall. by apply NoDup_app in Hall as (_ & _ & ?).
Qed.

Lemma reachable_distinct st :
  reachable B (λ st l, allowed st l ∧ fresh st l) st →
  sound st ∧ NoDup (bio_address <$> pending st).
Proof.
  induction 1 as [st Hinit | st l st' _ [Hsound Hnd] [Hallowed Hfresh] Hexec].
  - split; [by apply sound_initial |]. rewrite pending_empty; [constructor |].
    eapply Forall_impl; [exact Hinit |]. by intros bqd [? _].
  - split; [by eapply sound_step | by eapply distinct_step].
Qed.

(** X8: in a run that starts with empty work queues and bio maps, and
    in which a KVIO is written and submitted only while it is not queued
    and a bio is submitted only while it waits in no list, the bios handed
    to the device so far together with the bios of the work items still
    queued are exactly the bios given to [submitBio], each as often as it
    was submitted: no bio is lost and none is sent twice, whether it was
    queued itself or joined the list of another KVIO, and whatever the
    results of the insertions into the bio maps.  No bio waits in two
    lists or twice in one.  Once the work queues are empty again, every
    bio submitted has been handed to the device. *)
Theorem no_bio_lost_or_duplicated ls st0 st :
  initial st0 → observes B fresh ls st0 →
  runLabels B false ls st0 = Some st →
  requestsOf (trace (mem st)) ++ pending st
  ≡ₚ requestsOf (trace (mem st0)) ++ submittedBios ls ∧
  NoDup (bio_address <$> pending st) ∧
  (Forall (λ bqd, queue bqd = []) (bioQueueData (ioSubmitter st)) →
   requestsOf (trace (mem st))
   ≡ₚ requestsOf (trace (mem st0)) ++ submittedBios ls).
Proof.
  intros Hinit Hfresh Hrun.
  destruct (conservation_run ls st0 st (sound_initial _ Hinit) Hrun)
    as [_ Hperm].
  rewrite (pending_empty st0) in Hperm.
  - rewrite app_nil_r in Hperm. split; [done |]. split.
    + apply reachable_distinct.
      eapply (observes_reachable B fresh false ls st0);
        [by apply reachable_initial | done | done].
    + intros Hempty. rewrite (pending_empty st Hempty) in Hperm.
      by rewrite app_nil_r in Hperm.
  - eapply Forall_impl; [exact Hinit |]. by intros bqd [? _].
Qed.

(** *** The bio maps are changed under their locks *)

Local Ltac lock_run :=
  repeat (cbn [lockRun lockStep mbind option_bind app removals];
          rewrite ?decide_True by done).

Lemma lockRun_app holder tr1 tr2 :
  lockRun holder (tr1 ++ tr2) = holder' ← lockRun holder tr1; lockRun holder' tr2.
Proof.
  revert holder. induction tr1 as [| e tr1 IH]; intros holder; [done |].
  simpl. destruct (lockStep holder e) as [holder' |]; [| done]. simpl.
  apply IH.
Qed.

Lemma lockRun_requests l :
  lockRun None (Ev_generic_make_request <$> l) = Some None.
Proof. induction l as [| b l IH]; [done |]. simpl. exact IH. Qed.

Lemma lockRun_removals q bl tr :
  lockRun (Some q) (removals q bl ++ tr) = lockRun (Some q) tr.
Proof.
  destruct bl as [| hd tl]; [done |]. by lock_run.
Qed.

Lemma lock_discipline_step st l st' :
  sound st → allowed st l → exec B st l = Some st' →
  ∃ evs, trace (mem st') = trace (mem st) ++ evs ∧
         lockRun None evs = Some None.
Proof.
  intros Hsound Hallowed Hexec.
  destruct (exec_effect st l st' Hsound Hallowed Hexec)
    as [p k
       | puts bio act i bqd mp evs kvio k q Hnum Hi Hevs
       | puts bio act i bqd mp target hd tl atTail kvio k kt q
           Hnum Hi Hdata Htq Htk Htd Hbl Hact Hdir Hadj
       | i item bqd rest mp k q Hi Hdeq];
    cbn [mem trace set_kvio].
  - exists []. by rewrite app_nil_r.
  - eexists. split; [done |].
    destruct Hevs as [[_ ->] | [_ ->]]; by lock_run.
  - eexists. split; [done |].
    destruct atTail; by lock_run.
  - eexists. split; [done |]. rewrite lockRun_app.
    destruct (USE_BIOMAP && isData k).
    + cbn [lockRun lockStep mbind option_bind]. rewrite lockRun_removals.
      lock_run. apply lockRun_requests.
    + simpl. apply lockRun_requests.
Qed.

(** X9: in a run that starts with empty work queues and bio maps, from
    a record of events that keeps the discipline of the mutexes, and in
    which a KVIO is written and submitted only while it is not queued,
    every call keeps that discipline: it takes the mutex of its queue
    only when it holds none and has dropped it when it returns; every
    insertion into and removal from a bio map happens while the mutex of
    that queue is held; no bio is handed to the device and no work item is
    queued while a mutex is held.  ([submitBio] sets up the list of its
    KVIO with no mutex held; the statement does not bind [bio_list_init]
    to the mutex.)  The record of events only grows. *)
Theorem bio_maps_change_under_their_locks ls st0 st :
  initial st0 → lockDiscipline (trace (mem st0)) →
  runLabels B false ls st0 = Some st →
  lockDiscipline (trace (mem st)) ∧
  ∃ evs, trace (mem st) = trace (mem st0) ++ evs.
Proof.
  intros Hinit. pose proof (sound_initial _ Hinit) as Hsound0. clear Hinit.
  revert Hsound0.
  revert st0. induction ls as [| l ls IH]; intros st0 Hsound Hlock Hrun;
    simpl in Hrun.
  - simplify_eq. split; [done |]. exists []. by rewrite app_nil_r.
  - case_bool_decide as Hok; [| done]. destruct Hok as [Hallowed _].
    destruct (exec B st0 l) as [st1 |] eqn:Hexec; [| done]. simpl in Hrun.
    destruct (lock_discipline_step st0 l st1 Hsound Hallowed Hexec)
      as (evs & Htr & Hevs).
    destruct (IH st1) as (Hl & evs' & Htr'); [| | done |].
    + by eapply sound_step.
    + unfold lockDiscipline. rewrite Htr, lockRun_app.
      unfold lockDiscipline in Hlock. rewrite Hlock. exact Hevs.
    + split; [done |]. exists (evs ++ evs'). by rewrite Htr', Htr, app_assoc.
Qed.

(** *** Properties of the work items queued *)

Lemma other_queue st (i j : nat) bqd bj p :
  sound st →
  bioQueueData (ioSubmitter st) !! i = Some bqd →
  bioQueueData (ioSubmitter st) !! j = Some bj →
  j ≠ i → p ∈ queue bj → p ∉ queue bqd.
Proof.
  intros Hsound Hi Hj Hne Hp Hq. apply Hne.
  by eapply (proj2 (sound_queues _ Hsound) j i bj bqd p).
Qed.

Lemma queuedAll_update P st (i : nat) bqd bqd' h' tr :
  sound st → queuedAll P st →
  bioQueueData (ioSubmitter st) !! i = Some bqd →
  (∀ p, p ∈ queue bqd' → P i (h' !!! p)) →
  (∀ p, queued (ioSubmitter st) p → p ∉ queue bqd →
        h' !!! p = kvios (mem st) !!! p) →
  queuedAll P (mkState (set_bioQueueData i bqd' (ioSubmitter st))
                       (mkMem h' tr)).
Proof.
  intros Hsound Hall Hi Hnew Hframe j bj p Hj Hp.
  cbn [ioSubmitter mem kvios set_bioQueueData bioQueueData] in *.
  destruct (decide (j = i)) as [-> | Hne].
  - rewrite list_lookup_insert_eq in Hj by (by eapply lookup_lt_Some).
    simplify_eq. by apply Hnew.
  - rewrite list_lookup_insert_ne in Hj by done.
    rewrite Hframe.
    + by eapply Hall.
    + apply queued_lookup. eauto.
    + by eapply other_queue.
Qed.

(** How a property of the work items queued is carried over a step:
    [Hnew] is about the KVIO that is queued or whose list grows. *)
Lemma queuedAll_step P st l st' :
  sound st → allowed st l → effect B st l st' → queuedAll P st →
  (∀ puts bio act (i : nat),
     l = L_submitBio puts bio act →
     bioQueueNumberForPBN (ioSubmitter st)
       (physical (kvios (mem st) !!! bi_private bio)) = Some (Z.of_nat i) →
     P i (setupKVIO bio act (kvios (mem st) !!! bi_private bio))) →
  (∀ puts bio act (i : nat) target hd tl (atTail : bool),
     l = L_submitBio puts bio act →
     let kt := kvios (mem st) !!! target in
     P i kt → isData kt = true → biosMerged kt = hd :: tl →
     bio_data_dir (bioToSubmit kt) = bio_data_dir bio →
     (if atTail
      then getBioSector (List.last tl hd) = wrap64 (getBioSector bio - B)
      else getBioSector hd = wrap64 (getBioSector bio + B)) →
     P i (set_biosMerged (if atTail then (hd :: tl) ++ [bio]
                          else bio :: hd :: tl) kt)) →
  queuedAll P st'.
Proof.
  intros Hsound Hallowed Heff Hall Hnew Hgrow.
  destruct Heff as [p k
                   | puts bio act i bqd mp evs kvio k q Hnum Hi Hevs
                   | puts bio act i bqd mp target hd tl atTail kvio k kt q
                       Hnum Hi Hdata Htq Htk Htd Hbl Hact Hdir Hadj
                   | i item bqd rest mp k q Hi Hdeq].
  - intros i bqd p' Hi Hp'. cbn [ioSubmitter mem] in *.
    rewrite kvios_set_kvio_ne; [by eapply Hall |].
    intros ->. apply Hallowed, queued_lookup. eauto.
  - simpl in Hallowed.
    apply (queuedAll_update P st i bqd); [done | done | done | |].
    + intros p Hp. cbn [queue] in Hp.
      apply elem_of_app in Hp as [Hp | Hp].
      * rewrite lookup_total_insert_ne; [by eapply Hall |].
        intros <-. apply Hallowed, queued_lookup. eauto.
      * apply list_elem_of_singleton in Hp as ->.
        rewrite lookup_total_insert_eq. by eapply Hnew.
    + intros p Hp _. apply lookup_total_insert_ne. by intros <-.
  - simpl in Hallowed.
    apply (queuedAll_update P st i bqd); [done | done | done | |].
    + intros p Hp. cbn [queue] in Hp.
      destruct (decide (p = target)) as [-> | Hne].
      * rewrite lookup_total_insert_eq.
        eapply (Hgrow puts bio act i target hd tl atTail); try done.
        by eapply Hall.
      * rewrite !lookup_total_insert_ne; [by eapply Hall | | done].
        intros <-. apply Hallowed, queued_lookup. eauto.
    + intros p Hp Hpq. rewrite !lookup_total_insert_ne; [done | |].
      * intros <-. by apply Hallowed.
      * by intros <-.
  - apply (queuedAll_update P st i bqd); [done | done | done | |].
    + intros p Hp. cbn [queue] in Hp.
      destruct (dequeueItem_Some _ _ _ Hdeq) as (_ & Hsub & _ & Hnd).
      destruct (Hnd (proj1 (sound_queues _ Hsound) i bqd Hi)) as [_ Hitem].
      assert (p ≠ item) by (by intros ->).
      destruct (USE_BIOMAP && isData k);
        rewrite ?lookup_total_insert_ne by done;
        eapply Hall; eauto.
    + intros p Hp Hpq. destruct (USE_BIOMAP && isData k); [| done].
      apply lookup_total_insert_ne. intros <-.
      by destruct (dequeueItem_Some _ _ _ Hdeq) as (? & _).
Qed.

Lemma queuedAll_initial P st : initial st → queuedAll P st.
Proof.
  unfold initial. rewrite Forall_lookup. intros Hinit i bqd p Hi Hp.
  destruct (Hinit i bqd Hi) as [Hq _]. rewrite Hq in Hp. set_solver.
Qed.

(** *** The lists of merged bios are runs of blocks *)

Lemma isRun_snoc (hd : BIO) (tl : list BIO) (b : BIO) :
  isRun B (hd :: tl) →
  getBioSector b = wrap64 (getBioSector (List.last tl hd) + B) →
  bio_data_dir b = bio_data_dir (List.last tl hd) →
  isRun B ((hd :: tl) ++ [b]).
Proof.
  revert hd. induction tl as [| c tl IH]; intros hd Hrun Hs Hd.
  - simpl in *. done.
  - destruct Hrun as [Hc Hrun]. rewrite List_last_cons in Hs, Hd.
    specialize (IH c Hrun Hs Hd). split; [exact Hc | exact IH].
Qed.

Lemma wrap64_back_forth s :
  0 ≤ s < 2 ^ 64 → wrap64 (wrap64 (s - B) + B) = s.
Proof.
  intros Hs. unfold wrap64. rewrite Zplus_mod_idemp_l.
  replace (s - B + B) with s by lia. by apply Z.mod_small.
Qed.

Lemma holdsRun_step st l st' :
  sound st → allowed st l → inRange l → exec B st l = Some st' →
  queuedAll (λ _, holdsRun B) st → queuedAll (λ _, holdsRun B) st'.
Proof.
  intros Hsound Hallowed Hrange Hexec Hall.
  apply (queuedAll_step _ st l st'); try done.
  - by apply exec_effect.
  - intros puts bio act i -> _ Hdata. simpl.
    split; [done |]. split; [set_solver |].
    intros b Hb. apply list_elem_of_singleton in Hb. by subst.
  - intros puts bio act i target hd tl atTail -> kt Hkt Hdata Hbl Hdir Hadj _.
    destruct (Hkt Hdata) as (Hrun & Hown & Hdirs). rewrite Hbl in *.
    cbn [set_biosMerged biosMerged bioToSubmit]. simpl in Hrange.
    destruct atTail.
    + split; [| split].
      * apply isRun_snoc; [done | |].
        -- rewrite Hadj. by rewrite wrap64_back_forth.
        -- rewrite (Hdirs (List.last tl hd)) by apply List_last_elem_of.
           done.
      * set_solver.
      * intros b Hb. apply elem_of_app in Hb as [Hb | Hb]; [by apply Hdirs |].
        apply list_elem_of_singleton in Hb. by subst.
    + split; [| split].
      * split; [| done]. split; [done |].
        rewrite (Hdirs hd) by set_solver. done.
      * set_solver.
      * intros b Hb. apply elem_of_cons in Hb as [-> | Hb]; [done |].
        by apply Hdirs.
Qed.

Lemma holdsRun_run ls st0 st :
  sound st0 → Forall inRange ls → runLabels B false ls st0 = Some st →
  queuedAll (λ _, holdsRun B) st0 →
  sound st ∧ queuedAll (λ _, holdsRun B) st.
Proof.
  revert st0. induction ls as [| l ls IH]; intros st0 Hsound Hrange Hrun Hall;
    simpl in Hrun.
  - by simplify_eq.
  - case_bool_decide as Hok; [| done]. destruct Hok as [Hallowed _].
    destruct (exec B st0 l) as [st1 |] eqn:Hexec; [| done]. simpl in Hrun.
    apply Forall_cons in Hrange as [Hl Hrange].
    apply (IH st1); [by eapply sound_step | done | done |].
    by eapply holdsRun_step.
Qed.

(** X10: in a run that starts with empty work queues and bio maps, in
    which a KVIO is written and submitted only while it is not queued, a
    bio is submitted only while it waits in no list, and the sectors of
    the bios submitted are [sector_t] values, the list of every data KVIO
    queued is a run of blocks: each bio of it is one block after the bio
    before it and has the same direction; the bio of the KVIO itself is in
    its list.  So the bios the work function hands to the device for a
    data work item are such a run, in ascending order, and the bio of the
    work item is among them. *)
Theorem merged_lists_are_runs ls st0 st :
  initial st0 → observes B fresh ls st0 → Forall inRange ls →
  runLabels B false ls st0 = Some st →
  (∀ (i : nat) bqd p,
     bioQueueData (ioSubmitter st) !! i = Some bqd → p ∈ queue bqd →
     isData (kvios (mem st) !!! p) = true →
     isRun B (biosMerged (kvios (mem st) !!! p)) ∧
     bioToSubmit (kvios (mem st) !!! p) ∈ biosMerged (kvios (mem st) !!! p)) ∧
  (∀ (i : nat) item st',
     runWorkItem i item st = Some st' →
     isData (kvios (mem st) !!! item) = true →
     ∃ bl, requestsOf (trace (mem st')) = requestsOf (trace (mem st)) ++ bl ∧
           isRun B bl ∧ bioToSubmit (kvios (mem st) !!! item) ∈ bl).
Proof.
  intros Hinit _ Hrange Hrun.
  destruct (holdsRun_run ls st0 st (sound_initial _ Hinit) Hrange Hrun
              (queuedAll_initial _ _ Hinit)) as [Hsound Hall].
  split.
  - intros i bqd p Hi Hp Hdata.
    destruct (Hall i bqd p Hi Hp Hdata) as (? & ? & _). done.
  - intros i item st' Hwork Hdata.
    pose proof (exec_effect st (L_processBioMap i item) st' Hsound I Hwork)
      as Heff.
    inversion Heff as [| | | ? ? bqd rest mp k q Hi Hdeq]; subst.
    cbn [mem trace]. unfold pendingBios. subst k. rewrite Hdata.
    cbn [USE_BIOMAP andb]. eexists.
    rewrite !requestsOf_app, requestsOf_requests. cbn [requestsOf].
    rewrite requestsOf_app, requestsOf_removals. cbn [requestsOf app].
    split; [done |].
    destruct (dequeueItem_Some _ _ _ Hdeq) as (Hin & _).
    destruct (Hall i bqd item Hi Hin Hdata) as (? & ? & _). done.
Qed.

(** *** The configuration of the submitter *)

Lemma effect_configuration st l st' :
  effect B st l st' →
  numBioQueuesUsed (ioSubmitter st') = numBioQueuesUsed (ioSubmitter st) ∧
  bioQueueRotationInterval (ioSubmitter st')
  = bioQueueRotationInterval (ioSubmitter st) ∧
  bioQueueRotor (ioSubmitter st') = bioQueueRotor (ioSubmitter st) ∧
  length (bioQueueData (ioSubmitter st'))
  = length (bioQueueData (ioSubmitter st)) ∧
  ∀ j : nat, queueNumber <$> bioQueueData (ioSubmitter st') !! j
             = queueNumber <$> bioQueueData (ioSubmitter st) !! j.
Proof.
  assert (Hnum : ∀ s (i : nat) bqd qu mp (j : nat),
            bioQueueData s !! i = Some bqd →
            queueNumber <$> bioQueueData
              (set_bioQueueData i (mkBioQueueData qu mp (queueNumber bqd)) s)
              !! j
            = queueNumber <$> bioQueueData s !! j).
  { intros s i bqd qu mp j Hi. unfold set_bioQueueData. cbn [bioQueueData].
    destruct (decide (j = i)) as [-> | Hne].
    - rewrite list_lookup_insert_eq by (by eapply lookup_lt_Some).
      by rewrite Hi.
    - by rewrite list_lookup_insert_ne. }
  intros [p k
         | puts bio act i bqd mp evs kvio k q _ Hi _
         | puts bio act i bqd mp target hd tl atTail kvio k kt q
             _ Hi _ _ _ _ _ _ _ _
         | i item bqd rest mp k q Hi _];
    cbn [ioSubmitter set_bioQueueData numBioQueuesUsed
         bioQueueRotationInterval bioQueueRotor bioQueueData];
    rewrite ?length_insert; split_and!; try done;
    try (intros j; by apply (Hnum (ioSubmitter st))).
Qed.

Lemma bioQueueNumberForPBN_configuration s s' pbn :
  numBioQueuesUsed s' = numBioQueuesUsed s →
  bioQueueRotationInterval s' = bioQueueRotationInterval s →
  bioQueueNumberForPBN s' pbn = bioQueueNumberForPBN s pbn.
Proof. intros Hw Hr. unfold bioQueueNumberForPBN. by rewrite Hw, Hr. Qed.

Lemma configuration_run ls st0 st :
  sound st0 → runLabels B false ls st0 = Some st →
  numBioQueuesUsed (ioSubmitter st) = numBioQueuesUsed (ioSubmitter st0) ∧
  bioQueueRotationInterval (ioSubmitter st)
  = bioQueueRotationInterval (ioSubmitter st0) ∧
  bioQueueRotor (ioSubmitter st) = bioQueueRotor (ioSubmitter st0) ∧
  length (bioQueueData (ioSubmitter st))
  = length (bioQueueData (ioSubmitter st0)) ∧
  ∀ j : nat, queueNumber <$> bioQueueData (ioSubmitter st) !! j
             = queueNumber <$> bioQueueData (ioSubmitter st0) !! j.
Proof.
  revert st0. induction ls as [| l ls IH]; intros st0 Hsound Hrun;
    simpl in Hrun; [by simplify_eq |].
  case_bool_decide as Hok; [| done]. destruct Hok as [Hallowed _].
  destruct (exec B st0 l) as [st1 |] eqn:Hexec; [| done]. simpl in Hrun.
  pose proof (exec_effect st0 l st1 Hsound Hallowed Hexec) as Heff.
  destruct (effect_configuration _ _ _ Heff) as (Hw & Hr & Hrot & Hlen & Hq).
  destruct (IH st1) as (Hw' & Hr' & Hrot' & Hlen' & Hq');
    [by eapply sound_step | done |].
  split_and!; first [congruence | intros j; by rewrite Hq', Hq].
Qed.

(** X12: in a run that starts with empty work queues and bio maps and
    in which a
    KVIO is written and submitted only while it is not queued, neither
    [submitBio] nor the work function changes the number of queues in
    use, the rotation interval, the rotor, the number of elements of
    [bioQueueData] or the queue number of one of them.  So a submitter
    whose routing is defined at the start keeps it defined, its queues
    stay numbered by their position if they were, and [submitBio] is
    defined for every bio after the run: it divides by no zero and selects
    no queue outside [bioQueueData]. *)
Theorem runs_keep_the_configuration ls st0 st :
  initial st0 → runLabels B false ls st0 = Some st →
  numBioQueuesUsed (ioSubmitter st) = numBioQueuesUsed (ioSubmitter st0) ∧
  bioQueueRotationInterval (ioSubmitter st)
  = bioQueueRotationInterval (ioSubmitter st0) ∧
  bioQueueRotor (ioSubmitter st) = bioQueueRotor (ioSubmitter st0) ∧
  length (bioQueueData (ioSubmitter st))
  = length (bioQueueData (ioSubmitter st0)) ∧
  (∀ j : nat, queueNumber <$> bioQueueData (ioSubmitter st) !! j
              = queueNumber <$> bioQueueData (ioSubmitter st0) !! j) ∧
  (numbered (ioSubmitter st0) → numbered (ioSubmitter st)) ∧
  (routable (ioSubmitter st0) →
   routable (ioSubmitter st) ∧
   ∀ puts bio act, is_Some (submitBio B puts st bio act)).
Proof.
  intros Hinit Hrun.
  destruct (configuration_run ls st0 st (sound_initial _ Hinit) Hrun)
    as (Hw & Hr & Hrot & Hlen & Hq).
  split_and!; try done.
  - intros Hn j bqd Hj. specialize (Hq j). rewrite Hj in Hq. simpl in Hq.
    destruct (bioQueueData (ioSubmitter st0) !! j) as [bqd0 |] eqn:Hj0;
      [| done].
    simpl in Hq. injection Hq as ->. by apply Hn.
  - intros Hroutable.
    assert (Hroutable' : routable (ioSubmitter st)).
    { destruct Hroutable as (? & ? & ? & ?). unfold routable.
      by rewrite Hw, Hr, Hlen. }
    split; [done |]. intros puts bio act.
    destruct (routable_bioQueueDataForPBN (ioSubmitter st)
                (physical (kvios (mem st) !!! bi_private bio)) Hroutable')
      as (i & bqd & Hroute & _).
    destruct (submitBio_eq B puts st bio act i bqd Hroute)
      as (bqd' & m' & merged & Hsub & _).
    rewrite Hsub. by eexists.
Qed.

(** *** The bio maps refer to queued KVIOs only *)

(** X11: in every state of a run that starts with empty work queues and
    bio maps, and in which a KVIO is written and submitted only while it
    is not queued and a bio is submitted only while it waits in no list,
    every entry of a bio map leads to a data KVIO that is queued on the
    work queue of that same bio queue and on no other, whose list of
    merged bios is not empty and has the key of the entry as the sector of
    its head or of its tail; and no KVIO is queued twice.  This holds
    whatever the results of the insertions. *)
Theorem bio_map_never_stale st (i : nat) bqd :
  reachable B (λ st l, allowed st l ∧ fresh st l) st →
  bioQueueData (ioSubmitter st) !! i = Some bqd →
  NoDup (queue bqd) ∧
  ∀ key p, map bqd !! key = Some p →
    p ∈ queue bqd ∧
    (∀ (j : nat) bj, bioQueueData (ioSubmitter st) !! j = Some bj →
                     p ∈ queue bj → j = i) ∧
    isData (kvios (mem st) !!! p) = true ∧
    ∃ hd tl, biosMerged (kvios (mem st) !!! p) = hd :: tl ∧
             (key = getBioSector hd ∨ key = getBioSector (List.last tl hd)).
Proof.
  intros Hreach Hi.
  pose proof (proj1 (reachable_distinct st Hreach)) as Hsound.
  pose proof (sound_queues _ Hsound) as [Hnd Hsep].
  split; [by eapply Hnd |].
  intros key p Hkey.
  destruct (sound_maps _ Hsound i bqd Hi key p Hkey) as (Hq & Hd & Hl).
  split_and!; try done.
  intros j bj Hj Hp. by eapply Hsep.
Qed.

(** X13: in a run that starts with empty work queues and bio maps, and
    in which a KVIO is written and submitted only while it is not queued
    and a bio is submitted only while it waits in no list: once the work
    function has run for a work item, nothing of the submitter refers to
    the KVIO of the item any more: it is in no work queue, no entry of a
    bio map leads to it, and, for a data KVIO, its list of merged bios is
    empty.  Its owner may write and submit it again, and each of the bios
    handed to the device for the item waits in no list any more and may be
    submitted again. *)
Theorem processed_item_is_detached st (i : nat) item st' :
  reachable B (λ st l, allowed st l ∧ fresh st l) st →
  runWorkItem i item st = Some st' →
  ¬ queued (ioSubmitter st') item ∧
  (∀ (j : nat) bj key, bioQueueData (ioSubmitter st') !! j = Some bj →
                       map bj !! key ≠ Some item) ∧
  (isData (kvios (mem st) !!! item) = true →
   biosMerged (kvios (mem st') !!! item) = []) ∧
  (∀ puts bio act, bi_private bio = item →
                   allowed st' (L_submitBio puts bio act)) ∧
  requestsOf (trace (mem st'))
  = requestsOf (trace (mem st)) ++ pendingBios (kvios (mem st)) item ∧
  (∀ b puts bio act,
     b ∈ pendingBios (kvios (mem st)) item →
     bio_address bio = bio_address b →
     fresh st' (L_submitBio puts bio act)).
Proof.
  intros Hreach Hwork.
  destruct (reachable_distinct st Hreach) as [Hsound Hdistinct].
  assert (Hsound' : sound st').
  { by apply (sound_step B st (L_processBioMap i item) st'). }
  pose proof (exec_effect st (L_processBioMap i item) st' Hsound I Hwork)
    as Heff.
  assert (Hnq : ¬ queued (ioSubmitter st') item).
  { inversion Heff as [| | | ? ? bqd rest mp k q Hi Hdeq]; subst.
    cbn [ioSubmitter]. intros Hq. apply queued_lookup in Hq as (j & bj & Hj & Hp).
    destruct (dequeueItem_Some _ _ _ Hdeq) as (Hin & _ & _ & Hnd).
    destruct (Hnd (proj1 (sound_queues _ Hsound) i bqd Hi)) as [_ Hitem].
    unfold set_bioQueueData in Hj. cbn [bioQueueData] in Hj.
    destruct (decide (j = i)) as [-> | Hne].
    - rewrite list_lookup_insert_eq in Hj by (by eapply lookup_lt_Some).
      by simplify_eq.
    - rewrite list_lookup_insert_ne in Hj by done.
      by eapply (other_queue st i j bqd bj item). }
  assert (Hsent : requestsOf (trace (mem st'))
                  = requestsOf (trace (mem st))
                    ++ pendingBios (kvios (mem st)) item).
  { inversion Heff as [| | | ? ? bqd rest mp k q Hi Hdeq]; subst.
    cbn [mem trace]. rewrite !requestsOf_app, requestsOf_requests.
    destruct (USE_BIOMAP && isData k); [| done]. cbn [requestsOf].
    by rewrite requestsOf_app, requestsOf_removals. }
  split_and!.
  - done.
  - intros j bj key Hj Hkey.
    destruct (sound_maps _ Hsound' j bj Hj key item Hkey) as (Hq & _).
    apply Hnq, queued_lookup. eauto.
  - intros Hdata.
    inversion Heff as [| | | ? ? bqd rest mp k q Hi Hdeq]; subst.
    cbn [mem kvios]. subst k. rewrite Hdata. cbn [USE_BIOMAP andb].
    by rewrite lookup_total_insert_eq.
  - intros puts bio act <-. exact Hnq.
  - exact Hsent.
  - intros b puts bio act Hb Haddr. simpl. apply Forall_forall.
    intros c Hc Heq.
    destruct (sent_step st (L_processBioMap i item) st' Hsound I Hwork)
      as (sent & Hsent' & Hperm).
    rewrite Hsent in Hsent'. apply app_inv_head in Hsent' as <-.
    unfold submittedBios in Hperm. rewrite bind_singleton, app_nil_r in Hperm.
    rewrite <- Hperm, fmap_app in Hdistinct.
    apply NoDup_app in Hdistinct as (_ & Hdisj & _).
    apply (Hdisj (bio_address b)); [by apply list_elem_of_fmap_2 |].
    rewrite <- Haddr, <- Heq. by apply list_elem_of_fmap_2.
Qed.

(** *** Round trips of a single bio *)

Lemma routable_bioQueueNumberForPBN s pbn :
  routable s →
  ∃ (i : nat) bqd,
    bioQueueNumberForPBN s pbn = Some (Z.of_nat i) ∧
    bioQueueData s !! i = Some bqd ∧
    bioQueueDataForPBN s pbn = Some (i, bqd).
Proof.
  intros Hroutable.
  destruct (routable_bioQueueDataForPBN s pbn Hroutable)
    as (i & bqd & Hroute & Hi).
  exists i, bqd. split_and!; try done.
  revert Hroute. unfold bioQueueDataForPBN.
  destruct (bioQueueNumberForPBN _ _) as [n |] eqn:Hn; [| done]. simpl.
  destruct (bioQueueData _ !! Z.to_nat n) eqn:Hl; [| done]. simpl.
  intros [= <- <-]. f_equal.
  apply bioQueueNumberForPBN_Some in Hn as (_ & _ & ->).
  pose proof (wrap32_range
    ((pbn mod wrap32 (numBioQueuesUsed s * bioQueueRotationInterval s))
     / bioQueueRotationInterval s)). lia.
Qed.

Lemma set_bioQueueData_back (i : nat) bqd bqd' s :
  bioQueueData s !! i = Some bqd →
  bioQueueData
    (set_bioQueueData i (mkBioQueueData (queue bqd) (map bqd)
                                        (queueNumber bqd))
       (set_bioQueueData i bqd' s))
  = bioQueueData s.
Proof.
  intros Hi. unfold set_bioQueueData. cbn [bioQueueData].
  rewrite list_insert_insert_eq. apply list_insert_id. by destruct bqd.
Qed.

(** X14: a bio whose KVIO is not a data KVIO goes past the bio map: on a
    submitter whose routing is defined, [submitBio] sets up the list of
    the KVIO and queues the KVIO on the queue of its physical block number
    without taking the mutex or touching a bio map, for every action code,
    and the work function hands exactly this bio to the device, after
    which the work queues and the bio maps are as they were before the bio
    was submitted. *)
Theorem other_bios_bypass_the_bio_map puts st bio act :
  let kvio := bi_private bio in
  routable (ioSubmitter st) →
  ¬ queued (ioSubmitter st) kvio →
  isData (kvios (mem st) !!! kvio) = false →
  ∃ (i : nat) bqd st1 st2,
    bioQueueDataForPBN (ioSubmitter st)
                       (physical (kvios (mem st) !!! kvio)) = Some (i, bqd) ∧
    submitBio B puts st bio act = Some st1 ∧
    bioQueueData (ioSubmitter st1)
    = <[i := mkBioQueueData (queue bqd ++ [kvio]) (map bqd)
                            (queueNumber bqd)]>
        (bioQueueData (ioSubmitter st)) ∧
    trace (mem st1)
    = trace (mem st)
      ++ [Ev_bio_list_init kvio; Ev_enqueue (queueNumber bqd) kvio] ∧
    runWorkItem i kvio st1 = Some st2 ∧
    bioQueueData (ioSubmitter st2) = bioQueueData (ioSubmitter st) ∧
    kvios (mem st2) = kvios (mem st1) ∧
    trace (mem st2) = trace (mem st1) ++ [Ev_generic_make_request bio].
Proof.
  intros kvio Hroutable Hnq Hdata.
  destruct (routable_bioQueueNumberForPBN (ioSubmitter st)
              (physical (kvios (mem st) !!! kvio)) Hroutable)
    as (i & bqd & Hnum & Hi & Hroute).
  destruct (submitBio_eq B puts st bio act i bqd Hroute)
    as (bqd' & m' & merged & Hsub & Hcase).
  fold kvio in Hsub, Hcase. rewrite Hdata in Hcase. simplify_eq.
  exists i, bqd. eexists _, _. split; [done |]. split; [exact Hsub |].
  split; [done |].
  split; [cbn [mem add_events trace set_kvio]; by rewrite <- app_assoc |].
  assert (Hk : kvio ∉ queue bqd) by (by eapply not_queued_queue).
  unfold runWorkItem. cbn [ioSubmitter mem set_bioQueueData bioQueueData].
  rewrite list_lookup_insert_eq by (by eapply lookup_lt_Some).
  cbn [mbind option_bind enqueueWorkQueue queue map queueNumber].
  rewrite dequeueItem_app_last by done. cbn [mbind option_bind].
  unfold processBioMap. cbn [add_events kvios set_kvio].
  rewrite lookup_total_insert_eq. cbn [setupKVIO isData].
  rewrite Hdata. cbn [USE_BIOMAP andb bioToSubmit].
  split; [done |]. cbn [ioSubmitter mem].
  split; [| done].
  apply (set_bioQueueData_back i bqd _ (ioSubmitter st) Hi).
Qed.

(** X15: a data bio that finds no candidate and no entry under its own
    sector, and whose KVIO is processed before another bio joins it,
    leaves the bio map as it found it: [submitBio] queues the KVIO, with
    the map holding it under the sector of the bio if the insertion
    succeeded and unchanged if it failed; the work function removes that
    key, empties the list of the KVIO and hands the bio to the device, and
    the work queues and bio maps are as they were before. *)
Theorem lone_data_bio_leaves_the_map_as_it_was puts st bio act :
  let kvio := bi_private bio in
  routable (ioSubmitter st) →
  ¬ queued (ioSubmitter st) kvio →
  isData (kvios (mem st) !!! kvio) = true →
  ∀ (i : nat) bqd,
    bioQueueDataForPBN (ioSubmitter st)
                       (physical (kvios (mem st) !!! kvio)) = Some (i, bqd) →
    map bqd !! wrap64 (getBioSector bio - B) = None →
    map bqd !! wrap64 (getBioSector bio + B) = None →
    map bqd !! getBioSector bio = None →
    ∃ st1 st2 bqd1,
      submitBio B puts st bio act = Some st1 ∧
      bioQueueData (ioSubmitter st1) !! i = Some bqd1 ∧
      queue bqd1 = queue bqd ++ [kvio] ∧
      map bqd1 = (if decide (puts.1 = VDO_SUCCESS)
                  then <[getBioSector bio := kvio]> (map bqd)
                  else map bqd) ∧
      runWorkItem i kvio st1 = Some st2 ∧
      bioQueueData (ioSubmitter st2) = bioQueueData (ioSubmitter st) ∧
      biosMerged (kvios (mem st2) !!! kvio) = [] ∧
      requestsOf (trace (mem st2)) = requestsOf (trace (mem st)) ++ [bio].
Proof.
  intros kvio Hroutable Hnq Hdata i bqd Hroute Hback Hfront Hown.
  destruct (routable_bioQueueNumberForPBN (ioSubmitter st)
              (physical (kvios (mem st) !!! kvio)) Hroutable)
    as (i' & bqd' & Hnum & Hi & Hroute').
  rewrite Hroute in Hroute'. simplify_eq.
  pose proof (submitBio_no_candidate B puts st bio act i' bqd' Hnum Hi Hdata
                Hback Hfront) as Hsub.
  fold kvio in Hsub.
  assert (Hk : kvio ∉ queue bqd') by (by eapply not_queued_queue).
  eexists _, _, _. split; [exact Hsub |].
  cbn [ioSubmitter mem set_bioQueueData bioQueueData].
  split; [apply list_lookup_insert_eq; by eapply lookup_lt_Some |].
  split; [done |]. split; [done |].
  rewrite (runWorkItem_data i' kvio _
             (mkBioQueueData (queue bqd' ++ [kvio])
                (putResult puts.1 (getBioSector bio) kvio (map bqd'))
                (queueNumber bqd'))
             (queue bqd') bio []).
  - split; [done |]. cbn [ioSubmitter mem kvios trace].
    split_and!.
    + cbn [set_bioQueueData bioQueueData queue map queueNumber].
      rewrite list_insert_insert_eq. apply list_insert_id.
      rewrite Hi. f_equal. destruct bqd' as [qu mp qn]. f_equal.
      cbn [List.last map] in *. unfold putResult.
      destruct (decide (puts.1 = VDO_SUCCESS)).
      * rewrite delete_insert_eq. by rewrite !(delete_id mp) by done.
      * by rewrite !(delete_id mp) by done.
    + by rewrite lookup_total_insert_eq.
    + rewrite !requestsOf_app. simpl. by rewrite app_nil_r.
  - cbn [ioSubmitter set_bioQueueData bioQueueData].
    apply list_lookup_insert_eq. by eapply lookup_lt_Some.
  - cbn [queue]. by apply dequeueItem_app_last.
  - cbn [mem kvios]. by rewrite lookup_total_insert_eq.
  - cbn [mem kvios]. by rewrite lookup_total_insert_eq.
Qed.

(** *** Where the routing is undefined *)

(** X16: the queue number of a physical block number and the queue
    number of the rotor are undefined, by a division by zero, exactly
    when the 32-bit product of the number of queues and the rotation
    interval is zero, which is the case for a rotation interval of zero;
    [submitBio] and [enqueueBioWorkItem] are then undefined for every bio
    and every work item.  Nothing in the file checks the two parameters. *)
Theorem routing_is_undefined_iff_product_is_zero s pbn :
  let w := numBioQueuesUsed s in
  let r := bioQueueRotationInterval s in
  (bioQueueNumberForPBN s pbn = None ↔ wrap32 (w * r) = 0) ∧
  (advanceBioRotor s = None ↔ wrap32 (w * r) = 0) ∧
  (r = 0 → wrap32 (w * r) = 0) ∧
  (wrap32 (w * r) = 0 →
   (∀ item, enqueueBioWorkItem s item = None) ∧
   (∀ puts st bio act, ioSubmitter st = s →
                       submitBio B puts st bio act = None)).
Proof.
  intros w r.
  assert (Hr0 : r = 0 → wrap32 (w * r) = 0).
  { intros ->. by rewrite Z.mul_0_r. }
  assert (Hpbn : ∀ x, bioQueueNumberForPBN s x = None ↔ wrap32 (w * r) = 0).
  { intros x. split.
    - intros Hnone. destruct (decide (wrap32 (w * r) = 0)) as [| Hnz]; [done |].
      by rewrite bioQueueNumberForPBN_defined in Hnone.
    - intros Hz. unfold bioQueueNumberForPBN, umod. fold w r.
      by rewrite decide_True. }
  assert (Hrot : advanceBioRotor s = None ↔ wrap32 (w * r) = 0).
  { split.
    - intros Hnone. destruct (decide (wrap32 (w * r) = 0)) as [| Hnz]; [done |].
      by rewrite advanceBioRotor_defined in Hnone.
    - intros Hz. unfold advanceBioRotor, umod. fold w r.
      by rewrite decide_True. }
  split_and!; try done. intros Hz. split.
  - intros item. unfold enqueueBioWorkItem.
    by rewrite (proj2 Hrot Hz).
  - intros puts st bio act <-. unfold submitBio, bioQueueDataForPBN.
    by rewrite (proj2 (Hpbn _) Hz).
Qed.

(** *** Every bio is sent from the queue of its block number *)

Lemma pending_elem st (i : nat) bqd p b :
  bioQueueData (ioSubmitter st) !! i = Some bqd → p ∈ queue bqd →
  b ∈ pendingBios (kvios (mem st)) p → b ∈ pending st.
Proof.
  intros Hi Hp Hb. unfold pending. apply list_elem_of_bind.
  exists p. split; [done |]. apply queued_lookup. eauto.
Qed.

Lemma bios_routed_update st (i : nat) bqd bqd' h' tr :
  sound st → bios_routed st →
  bioQueueData (ioSubmitter st) !! i = Some bqd →
  (∀ o, physical (h' !!! o) = physical (kvios (mem st) !!! o)) →
  (∀ p b, p ∈ queue bqd' → b ∈ pendingBios h' p →
          routedTo (ioSubmitter st) i (h' !!! bi_private b)) →
  (∀ p, queued (ioSubmitter st) p → p ∉ queue bqd →
        h' !!! p = kvios (mem st) !!! p) →
  bios_routed (mkState (set_bioQueueData i bqd' (ioSubmitter st))
                       (mkMem h' tr)).
Proof.
  intros Hsound Hall Hi Hphys Hnew Hframe j bj p b Hj Hp Hb.
  cbn [ioSubmitter mem kvios set_bioQueueData bioQueueData] in *.
  unfold routedTo.
  rewrite (bioQueueNumberForPBN_configuration (ioSubmitter st)) by done.
  destruct (decide (j = i)) as [-> | Hne].
  - rewrite list_lookup_insert_eq in Hj by (by eapply lookup_lt_Some).
    simplify_eq. by eapply Hnew.
  - rewrite list_lookup_insert_ne in Hj by done.
    rewrite Hphys. eapply (Hall j bj p b); [done | done |].
    rewrite <- (pendingBios_agree (kvios (mem st)) h' p); [done |].
    apply Hframe; [apply queued_lookup; eauto | by eapply other_queue].
Qed.

Lemma bios_routed_step st l st' :
  sound st → allowed st l → untouched st l → exec B st l = Some st' →
  bios_routed st → bios_routed st'.
Proof.
  intros Hsound Hallowed Huntouched Hexec Hall.
  destruct (exec_effect st l st' Hsound Hallowed Hexec)
    as [p0 k0
       | puts bio act i bqd mp evs kvio k q Hnum Hi Hevs
       | puts bio act i bqd mp target hd tl atTail kvio k kt q
           Hnum Hi Hdata Htq Htk Htd Hbl Hact Hdir Hadj
       | i item bqd rest mp k q Hi Hdeq].
  - (* the owner writes a KVIO none of whose bios is pending *)
    intros i bqd p b Hi Hp Hb. cbn [ioSubmitter mem set_kvio kvios] in *.
    assert (Hpp : p ≠ p0).
    { intros ->. apply Hallowed, queued_lookup. eauto. }
    rewrite (pendingBios_agree (kvios (mem st))) in Hb
      by (by apply lookup_total_insert_ne).
    rewrite lookup_total_insert_ne.
    + by eapply Hall.
    + simpl in Huntouched. rewrite Forall_forall in Huntouched.
      intros Heq. symmetry in Heq. revert Heq.
      by apply Huntouched, (pending_elem st i bqd p b Hi Hp Hb).
  - simpl in Hallowed.
    assert (Hphys : ∀ o, physical (<[kvio := setupKVIO bio act k]>
                                     (kvios (mem st)) !!! o)
                         = physical (kvios (mem st) !!! o)).
    { intros o. destruct (decide (o = kvio)) as [-> | Hne].
      - by rewrite lookup_total_insert_eq.
      - by rewrite lookup_total_insert_ne. }
    apply (bios_routed_update st i bqd); [done | done | done | done | |].
    + intros p b Hp Hb. cbn [queue] in Hp. unfold routedTo. rewrite Hphys.
      apply elem_of_app in Hp as [Hp | Hp].
      * rewrite (pendingBios_agree (kvios (mem st))) in Hb.
        -- by eapply (Hall i bqd p b).
        -- apply lookup_total_insert_ne.
           intros <-. apply Hallowed, queued_lookup. eauto.
      * apply list_elem_of_singleton in Hp as ->.
        unfold pendingBios in Hb. rewrite lookup_total_insert_eq in Hb.
        cbn [setupKVIO isData biosMerged bioToSubmit bio_list_add
             bio_list_init app] in Hb.
        assert (b = bio) as ->.
        { destruct (USE_BIOMAP && isData k); set_solver. }
        exact Hnum.
    + intros p Hp _. apply lookup_total_insert_ne. by intros <-.
  - simpl in Hallowed.
    assert (Hphys : ∀ o, physical
                           (<[target := set_biosMerged
                                          (if atTail then (hd :: tl) ++ [bio]
                                           else bio :: hd :: tl) kt]>
                              (<[kvio := setupKVIO bio act k]>
                                 (kvios (mem st))) !!! o)
                         = physical (kvios (mem st) !!! o)).
    { intros o. destruct (decide (o = target)) as [-> | Hne].
      - by rewrite lookup_total_insert_eq.
      - rewrite lookup_total_insert_ne by done.
        destruct (decide (o = kvio)) as [-> | Hne'].
        + by rewrite lookup_total_insert_eq.
        + by rewrite lookup_total_insert_ne. }
    apply (bios_routed_update st i bqd); [done | done | done | done | |].
    + intros p b Hp Hb. cbn [queue] in Hp. unfold routedTo. rewrite Hphys.
      destruct (decide (p = target)) as [-> | Hne].
      * unfold pendingBios in Hb. rewrite lookup_total_insert_eq in Hb.
        cbn [set_biosMerged isData biosMerged] in Hb. fold kt in Hb.
        rewrite Htd in Hb. cbn [USE_BIOMAP andb] in Hb.
        assert (Hcases : b = bio ∨ b ∈ hd :: tl)
          by (destruct atTail; set_solver).
        destruct Hcases as [-> | Hold]; [exact Hnum |].
        apply (Hall i bqd target b Hi Htq).
        unfold pendingBios. fold kt. rewrite Htd, Hbl. done.
      * rewrite (pendingBios_agree (kvios (mem st))) in Hb.
        -- by eapply (Hall i bqd p b).
        -- rewrite !lookup_total_insert_ne; [done | | done].
           intros <-. apply Hallowed, queued_lookup. eauto.
    + intros p Hp Hpq. rewrite !lookup_total_insert_ne; [done | |].
      * intros <-. by apply Hallowed.
      * by intros <-.
  - destruct (dequeueItem_Some _ _ _ Hdeq) as (Hin & Hsub & _ & Hnd).
    destruct (Hnd (proj1 (sound_queues _ Hsound) i bqd Hi)) as [_ Hitem].
    assert (Hphys : ∀ o, physical
                           ((if USE_BIOMAP && isData k
                             then <[item := set_biosMerged [] k]>
                                    (kvios (mem st))
                             else kvios (mem st)) !!! o)
                         = physical (kvios (mem st) !!! o)).
    { intros o. destruct (USE_BIOMAP && isData k); [| done].
      destruct (decide (o = item)) as [-> | Hne].
      - by rewrite lookup_total_insert_eq.
      - by rewrite lookup_total_insert_ne. }
    apply (bios_routed_update st i bqd); [done | done | done | done | |].
    + intros p b Hp Hb. cbn [queue] in Hp. unfold routedTo. rewrite Hphys.
      assert (p ≠ item) by (by intros ->).
      rewrite (pendingBios_agree (kvios (mem st))) in Hb.
      * eapply (Hall i bqd p b); eauto.
      * destruct (USE_BIOMAP && isData k); [| done].
        by apply lookup_total_insert_ne.
    + intros p Hp Hpq. destruct (USE_BIOMAP && isData k); [| done].
      apply lookup_total_insert_ne. by intros <-.
Qed.

Lemma reachable_bios_routed st :
  reachable B (λ st l, allowed st l ∧ untouched st l) st →
  sound st ∧ bios_routed st.
Proof.
  induction 1 as [st Hinit | st l st' _ [Hsound Hall] [Hallowed Hunt] Hexec].
  - split; [by apply sound_initial |].
    intros i bqd p b Hi Hp. revert Hinit. unfold initial.
    rewrite Forall_lookup. intros Hinit.
    destruct (Hinit i bqd Hi) as [Hq _]. rewrite Hq in Hp. set_solver.
  - split; [by eapply sound_step | by eapply bios_routed_step].
Qed.

(** X17: in a run that starts with empty work queues and bio maps, in
    which a KVIO is written and submitted only while it is not queued and
    is not written while one of its bios waits in a list of merged bios,
    and a bio is submitted only while it waits in no list, every bio the
    work function will hand to the device for a work item,
    whether it is the bio of the item or has joined its list, belongs to a
    KVIO whose physical block number selects the queue the item is queued
    on.  When the queues are numbered by their position, the check of
    [assertRunningInBioQueueForPBN] that [sendBioToDevice] makes for the
    bio on the thread of that queue finds the two queue numbers equal. *)
Theorem every_bio_is_sent_from_the_queue_of_its_block st :
  reachable B (λ st l, allowed st l ∧ fresh st l ∧ untouched st l) st →
  ∀ (i : nat) bqd p b,
    bioQueueData (ioSubmitter st) !! i = Some bqd → p ∈ queue bqd →
    b ∈ pendingBios (kvios (mem st)) p →
    bioQueueNumberForPBN (ioSubmitter st)
      (physical (kvios (mem st) !!! bi_private b)) = Some (Z.of_nat i) ∧
    (numbered (ioSubmitter st) →
     assertRunningInBioQueueForPBN (ioSubmitter st) i
       (physical (kvios (mem st) !!! bi_private b)) = Some true).
Proof.
  intros Hreach i bqd p b Hi Hp Hb.
  apply (reachable_mono B _ (λ st l, allowed st l ∧ untouched st l))
    in Hreach; [| tauto].
  destruct (reachable_bios_routed st Hreach) as [_ Hall].
  pose proof (Hall i bqd p b Hi Hp Hb) as Hrouted. unfold routedTo in Hrouted.
  split; [done |]. intros Hn. pose proof (Hn i bqd Hi) as Hq.
  unfold assertRunningInBioQueueForPBN, bioQueueToSubmitter.
  rewrite Hi. simpl. rewrite decide_True by lia. simpl.
  rewrite Hrouted. simpl. by rewrite bool_decide_true.
Qed.

End RunProperties.

(** ** The properties of runs at concrete runs *)

Lemma no_bio_lost_or_duplicated_witness :
  ∃ st,
    runLabels 8 false
      [L_submitBio (0, 0) (mkBIO 11 8 WRITE 1) BIO_Q_ACTION_DATA;
       L_submitBio (0, 12) (mkBIO 12 0 WRITE 2) BIO_Q_ACTION_DATA;
       L_submitBio (0, 0) (mkBIO 13 16 WRITE 3) BIO_Q_ACTION_DATA;
       L_processBioMap 0 1; L_processBioMap 0 3]
      example_state = Some st ∧
    requestsOf (trace (mem st))
    ≡ₚ [mkBIO 11 8 WRITE 1; mkBIO 12 0 WRITE 2; mkBIO 13 16 WRITE 3].
Proof.
  eexists. split; [vm_compute; reflexivity |].
  refine (proj2 (proj2 (no_bio_lost_or_duplicated 8
                   [L_submitBio (0, 0) (mkBIO 11 8 WRITE 1) BIO_Q_ACTION_DATA;
                    L_submitBio (0, 12) (mkBIO 12 0 WRITE 2) BIO_Q_ACTION_DATA;
                    L_submitBio (0, 0) (mkBIO 13 16 WRITE 3) BIO_Q_ACTION_DATA;
                    L_processBioMap 0 1; L_processBioMap 0 3]
                   example_state _ example_state_initial _ _)) _).
  - refine (bool_decide_unpack _ _). vm_compute. exact I.
  - vm_compute. reflexivity.
  - repeat constructor.
Defined.

Lemma bio_maps_change_under_their_locks_witness :
  ∃ st,
    runLabels 8 false
      [L_submitBio (0, 0) (mkBIO 11 8 WRITE 1) BIO_Q_ACTION_DATA;
       L_submitBio (0, 12) (mkBIO 12 0 WRITE 2) BIO_Q_ACTION_DATA;
       L_processBioMap 0 1]
      example_state = Some st ∧
    lockDiscipline (trace (mem st)).
Proof.
  eexists. split; [vm_compute; reflexivity |].
  refine (proj1 (bio_maps_change_under_their_locks 8
                   [L_submitBio (0, 0) (mkBIO 11 8 WRITE 1) BIO_Q_ACTION_DATA;
                    L_submitBio (0, 12) (mkBIO 12 0 WRITE 2) BIO_Q_ACTION_DATA;
                    L_processBioMap 0 1]
                   example_state _ example_state_initial _ _)).
  - reflexivity.
  - vm_compute. reflexivity.
Defined.

Lemma merged_lists_are_runs_witness :
  ∃ st,
    runLabels 8 false
      [L_submitBio (0, 0) (mkBIO 11 8 WRITE 1) BIO_Q_ACTION_DATA;
       L_submitBio (0, 0) (mkBIO 12 0 WRITE 2) BIO_Q_ACTION_DATA;
       L_submitBio (0, 0) (mkBIO 13 16 WRITE 3) BIO_Q_ACTION_DATA]
      example_state = Some st ∧
    biosMerged (kvios (mem st) !!! 1%positive)
    = [mkBIO 12 0 WRITE 2; mkBIO 11 8 WRITE 1; mkBIO 13 16 WRITE 3] ∧
    isRun 8 (biosMerged (kvios (mem st) !!! 1%positive)).
Proof.
  eexists. split; [vm_compute; reflexivity |]. split; [reflexivity |].
  refine (proj1 (proj1 (merged_lists_are_runs 8
                   [L_submitBio (0, 0) (mkBIO 11 8 WRITE 1) BIO_Q_ACTION_DATA;
                    L_submitBio (0, 0) (mkBIO 12 0 WRITE 2) BIO_Q_ACTION_DATA;
                    L_submitBio (0, 0) (mkBIO 13 16 WRITE 3) BIO_Q_ACTION_DATA]
                   example_state _ example_state_initial _ _ _)
                 0%nat _ 1%positive _ _ _)).
  - refine (bool_decide_unpack _ _). vm_compute. exact I.
  - repeat constructor; simpl; lia.
  - vm_compute. reflexivity.
  - reflexivity.
  - cbn. set_solver.
  - reflexivity.
Defined.

Lemma bio_map_never_stale_witness :
  ∃ st bqd,
    runLabels 8 false
      [L_submitBio (0, 0) (mkBIO 11 8 WRITE 1) BIO_Q_ACTION_DATA;
       L_submitBio (0, 0) (mkBIO 12 8 WRITE 2) BIO_Q_ACTION_DATA;
       L_submitBio (0, 12) (mkBIO 13 16 WRITE 3) BIO_Q_ACTION_DATA]
      example_state = Some st ∧
    bioQueueData (ioSubmitter st) !! 0%nat = Some bqd ∧
    NoDup (queue bqd) ∧
    ∀ key p, map bqd !! key = Some p →
      p ∈ queue bqd ∧
      (∀ (j : nat) bj, bioQueueData (ioSubmitter st) !! j = Some bj →
                       p ∈ queue bj → j = 0%nat) ∧
      isData (kvios (mem st) !!! p) = true ∧
      ∃ hd tl, biosMerged (kvios (mem st) !!! p) = hd :: tl ∧
               (key = getBioSector hd ∨ key = getBioSector (List.last tl hd)).
Proof.
  eexists _, _. split; [vm_compute; reflexivity |]. split; [reflexivity |].
  apply (bio_map_never_stale 8 _ 0).
  - eapply (observes_reachable 8 fresh false
      [L_submitBio (0, 0) (mkBIO 11 8 WRITE 1) BIO_Q_ACTION_DATA;
       L_submitBio (0, 0) (mkBIO 12 8 WRITE 2) BIO_Q_ACTION_DATA;
       L_submitBio (0, 12) (mkBIO 13 16 WRITE 3) BIO_Q_ACTION_DATA]);
      [apply reachable_initial, example_state_initial | |].
    + refine (bool_decide_unpack _ _). vm_compute. exact I.
    + vm_compute. reflexivity.
  - reflexivity.
Defined.

Lemma example_state_routable : routable (ioSubmitter example_state).
Proof. unfold routable. simpl. repeat split; try lia. vm_compute. discriminate. Qed.

Lemma example_state_numbered : numbered (ioSubmitter example_state).
Proof.
  intros [| i] bqd Hi; simpl in Hi; [by simplify_eq | done].
Qed.

Lemma runs_keep_the_configuration_witness :
  ∃ st,
    runLabels 8 false
      [L_submitBio (0, 0) (mkBIO 11 8 WRITE 1) BIO_Q_ACTION_DATA;
       L_submitBio (0, 0) (mkBIO 12 32 WRITE 2) BIO_Q_ACTION_DATA;
       L_processBioMap 0 2]
      example_state = Some st ∧
    routable (ioSubmitter st) ∧
    is_Some (submitBio 8 (0, 0) st (mkBIO 13 16 READ 3) BIO_Q_ACTION_DATA).
Proof.
  eexists. split; [vm_compute; reflexivity |].
  destruct (runs_keep_the_configuration 8
              [L_submitBio (0, 0) (mkBIO 11 8 WRITE 1) BIO_Q_ACTION_DATA;
               L_submitBio (0, 0) (mkBIO 12 32 WRITE 2) BIO_Q_ACTION_DATA;
               L_processBioMap 0 2]
              example_state _ example_state_initial
              ltac:(vm_compute; reflexivity))
    as (_ & _ & _ & _ & _ & _ & Hroutable).
  destruct (Hroutable example_state_routable) as [Hr Hsub].
  split; [exact Hr | apply Hsub].
Defined.

Lemma every_bio_is_sent_from_the_queue_of_its_block_witness :
  ∃ st,
    runLabels 8 false
      [L_submitBio (0, 0) (mkBIO 11 8 WRITE 1) BIO_Q_ACTION_DATA;
       L_submitBio (0, 0) (mkBIO 12 16 WRITE 2) BIO_Q_ACTION_DATA]
      example_state = Some st ∧
    mkBIO 12 16 WRITE 2 ∈ pendingBios (kvios (mem st)) 1%positive ∧
    assertRunningInBioQueueForPBN (ioSubmitter st) 0
      (physical (kvios (mem st) !!! 2%positive)) = Some true.
Proof.
  eexists. split; [vm_compute; reflexivity |].
  split; [vm_compute; repeat constructor |].
  pose proof (observes_reachable 8 (λ st l, fresh st l ∧ untouched st l) false
                [L_submitBio (0, 0) (mkBIO 11 8 WRITE 1) BIO_Q_ACTION_DATA;
                 L_submitBio (0, 0) (mkBIO 12 16 WRITE 2) BIO_Q_ACTION_DATA]
                example_state _
                (reachable_initial 8 _ _ example_state_initial)
                ltac:(refine (bool_decide_unpack _ _); vm_compute; exact I)
                ltac:(vm_compute; reflexivity)) as Hreach.
  refine (proj2 (every_bio_is_sent_from_the_queue_of_its_block 8 _ Hreach
                   0%nat _ 1%positive (mkBIO 12 16 WRITE 2) _ _ _) _).
  - reflexivity.
  - vm_compute. repeat constructor.
  - vm_compute. repeat constructor.
  - intros [| j] bqd Hj; simpl in Hj; [by simplify_eq | done].
Defined.

Lemma processed_item_is_detached_witness :
  ∃ st st',
    runLabels 8 false
      [L_submitBio (0, 0) (mkBIO 11 8 WRITE 1) BIO_Q_ACTION_DATA;
       L_submitBio (0, 0) (mkBIO 12 16 WRITE 2) BIO_Q_ACTION_DATA]
      example_state = Some st ∧
    runWorkItem 0 1 st = Some st' ∧
    ¬ queued (ioSubmitter st') 1%positive ∧
    (∀ (j : nat) bj key, bioQueueData (ioSubmitter st') !! j = Some bj →
                         map bj !! key ≠ Some 1%positive) ∧
    fresh st' (L_submitBio (0, 0) (mkBIO 12 40 WRITE 2) BIO_Q_ACTION_DATA).
Proof.
  eexists _, _. split; [vm_compute; reflexivity |].
  split; [vm_compute; reflexivity |].
  destruct (processed_item_is_detached 8 _ 0 1%positive _
              (observes_reachable 8 fresh false
                 [L_submitBio (0, 0) (mkBIO 11 8 WRITE 1) BIO_Q_ACTION_DATA;
                  L_submitBio (0, 0) (mkBIO 12 16 WRITE 2) BIO_Q_ACTION_DATA]
                 example_state _
                 (reachable_initial 8 _ _ example_state_initial)
                 ltac:(refine (bool_decide_unpack _ _); vm_compute; exact I)
                 ltac:(vm_compute; reflexivity))
              ltac:(vm_compute; reflexivity))
    as (Hnq & Hmap & _ & _ & _ & Hfresh).
  split; [exact Hnq |]. split; [exact Hmap |].
  apply (Hfresh (mkBIO 12 16 WRITE 2)); [| reflexivity].
  vm_compute. repeat constructor.
Defined.

Lemma other_bios_bypass_the_bio_map_witness :
  ∃ st1 st2,
    submitBio 8 (0, 0) example_state_mixed (mkBIO 14 24 WRITE 4)
              BIO_Q_ACTION_METADATA = Some st1 ∧
    runWorkItem 0 4 st1 = Some st2 ∧
    bioQueueData (ioSubmitter st2)
    = bioQueueData (ioSubmitter example_state_mixed) ∧
    trace (mem st2)
    = [Ev_bio_list_init 4%positive; Ev_enqueue 0 4%positive;
       Ev_generic_make_request (mkBIO 14 24 WRITE 4)].
Proof.
  destruct (other_bios_bypass_the_bio_map 8 (0, 0) example_state_mixed
              (mkBIO 14 24 WRITE 4) BIO_Q_ACTION_METADATA)
    as (i & bqd & st1 & st2 & Hroute & Hsub & _ & Htr1 & Hwork & Hq & _ & Htr2).
  - unfold routable. simpl. repeat split; try lia. vm_compute. discriminate.
  - unfold queued. cbn. set_solver.
  - reflexivity.
  - injection Hroute as <- <-. exists st1, st2.
    split; [exact Hsub |]. split; [exact Hwork |]. split; [exact Hq |].
    rewrite Htr2, Htr1. reflexivity.
Defined.

Lemma lone_data_bio_leaves_the_map_as_it_was_witness :
  ∃ st1 st2,
    submitBio 8 (12, 0) example_state (mkBIO 11 8 WRITE 1) BIO_Q_ACTION_DATA
    = Some st1 ∧
    runWorkItem 0 1 st1 = Some st2 ∧
    bioQueueData (ioSubmitter st2) = bioQueueData (ioSubmitter example_state) ∧
    requestsOf (trace (mem st2)) = [mkBIO 11 8 WRITE 1].
Proof.
  destruct (lone_data_bio_leaves_the_map_as_it_was 8 (12, 0) example_state
              (mkBIO 11 8 WRITE 1) BIO_Q_ACTION_DATA)
    with (i := 0%nat) (bqd := mkBioQueueData [] ∅ 0)
    as (st1 & st2 & bqd1 & Hsub & _ & _ & _ & Hwork & Hq & _ & Hreq).
  - apply example_state_routable.
  - unfold queued. cbn. set_solver.
  - reflexivity.
  - reflexivity.
  - apply lookup_empty.
  - apply lookup_empty.
  - apply lookup_empty.
  - exists st1, st2. split; [exact Hsub |]. split; [exact Hwork |].
    split; [exact Hq | exact Hreq].
Defined.

Lemma routing_is_undefined_iff_product_is_zero_witness :
  let s := mkIOSubmitter 65536 65536 0 [] in
  bioQueueNumberForPBN s 7 = None ∧
  advanceBioRotor s = None ∧
  ∀ item, enqueueBioWorkItem s item = None.
Proof.
  intros s.
  destruct (routing_is_undefined_iff_product_is_zero 8 s 7)
    as (Hpbn & Hrotor & _ & Hall).
  assert (Hz : wrap32 (numBioQueuesUsed s * bioQueueRotationInterval s) = 0)
    by reflexivity.
  split; [by apply Hpbn |]. split; [by apply Hrotor |].
  by destruct (Hall Hz).
Defined.
